(** * txt2epub: a shallow embedding of [EpubGenerator] and its properties

    The program reads a plain-text novel, splits it into volumes and
    chapters with a line-by-line state machine, and writes the documents of
    an EPUB container.  Python strings are sequences of Unicode code points,
    so a [str] is a list of code points ([N]); the dictionaries the parser
    builds are objects with identity, so they live in a store and the book
    holds references to them. *)

From Stdlib Require Import NArith ZArith Ascii String Decimal Lia.
From Stdlib Require DecimalNat.
From stdpp Require Import base option list gmap.

Abbreviation str := (list N).
Abbreviation ref := nat.

(** ** String literals

    A literal of the source is written as a Rocq string (the bytes of its
    UTF-8 encoding) and decoded to code points. *)

Fixpoint utf8_decode (bs : list N) : str :=
  match bs with
  | [] => []
  | b :: r =>
    if (b <? 128)%N then b :: utf8_decode r
    else if (b <? 224)%N then
      match r with
      | b1 :: r1 => ((b - 192) * 64 + (b1 - 128))%N :: utf8_decode r1
      | _ => []
      end
    else if (b <? 240)%N then
      match r with
      | b1 :: b2 :: r2 =>
          ((b - 224) * 4096 + (b1 - 128) * 64 + (b2 - 128))%N :: utf8_decode r2
      | _ => []
      end
    else
      match r with
      | b1 :: b2 :: b3 :: r3 =>
          ((b - 240) * 262144 + (b1 - 128) * 4096 + (b2 - 128) * 64 + (b3 - 128))%N
            :: utf8_decode r3
      | _ => []
      end
  end.

Definition u (s : string) : str :=
  utf8_decode (map N_of_ascii (list_ascii_of_string s)).

(** The source's markup literals are full of double quotes; they are
    written here with a backquote (a character no literal of the source
    contains), which [uq] turns into U+0022. *)
Definition uq (s : string) : str :=
  map (λ c, if (c =? 96)%N then 34%N else c) (u s).

(** ** Exceptions *)

Inductive exn :=
  | IndexError
  | KeyError (key : str)
  | AttributeError (name : str)
  | TypeError
  | ValueError
  | FileNotFoundError (path : list str)
  | FileExistsError
  | NotADirectoryError
  | IsADirectoryError.

Inductive result (A : Type) :=
  | Ok (a : A)
  | Raise (e : exn).
Arguments Ok {A} a.
Arguments Raise {A} e.

#[global] Instance result_ret : MRet result := λ A, Ok.
#[global] Instance result_bind : MBind result :=
  λ A B f m, match m with Ok a => f a | Raise e => Raise e end.

(** ** The [str] methods the program calls *)

(** [s.startswith(p)] *)
Fixpoint startswith (s p : str) {struct p} : bool :=
  match p, s with
  | [], _ => true
  | c :: p', d :: s' => (c =? d)%N && startswith s' p'
  | _ :: _, [] => false
  end.

(** [s.startswith((p1, p2, ...))] *)
Definition startswith_any (s : str) (ps : list str) : bool :=
  existsb (startswith s) ps.

(** [s.lstrip(...)] and [s.rstrip(...)] for a set of characters [p] *)
Fixpoint lstrip_chars (p : N → bool) (s : str) : str :=
  match s with
  | c :: s' => if p c then lstrip_chars p s' else s
  | [] => []
  end.

Fixpoint rstrip_chars (p : N → bool) (s : str) : str :=
  match s with
  | c :: s' =>
      match rstrip_chars p s' with
      | [] => if p c then [] else [c]
      | r => c :: r
      end
  | [] => []
  end.

(** The characters [str.strip()] removes: CPython's [Py_UNICODE_ISSPACE]. *)
Definition isspace (c : N) : bool :=
  ((9 <=? c) && (c <=? 13) || (28 <=? c) && (c <=? 32) || (c =? 133) || (c =? 160)
   || (c =? 5760) || (8192 <=? c) && (c <=? 8202) || (c =? 8232) || (c =? 8233)
   || (c =? 8239) || (c =? 8287) || (c =? 12288))%N.

(** [s.strip()] *)
Definition strip (s : str) : str := rstrip_chars isspace (lstrip_chars isspace s).

(** [s.rstrip('\n')] *)
Definition rstrip_newline (s : str) : str := rstrip_chars (λ c, (c =? 10)%N) s.

(** [s[start:stop]], with Python's reading of negative and out-of-range
    indices. *)
Definition slice (s : str) (start stop : Z) : str :=
  let n := Z.of_nat (length s) in
  let norm i := if (i <? 0)%Z then Z.max 0 (i + n) else Z.min i n in
  take (Z.to_nat (norm stop - norm start)) (drop (Z.to_nat (norm start)) s).

(** [s.replace(old, new)] for a one-character [old]. *)
Definition replace_char (old : N) (new : str) (s : str) : str :=
  flat_map (λ c, if (c =? old)%N then new else [c]) s.

(** [s.split(sep)] for a one-character [sep]: never empty. *)
Fixpoint split_char (sep : N) (s : str) : list str :=
  match s with
  | [] => [[]]
  | c :: s' =>
      if (c =? sep)%N then [] :: split_char sep s'
      else match split_char sep s' with
           | w :: ws => (c :: w) :: ws
           | [] => [[c]]
           end
  end.

(** [sep.join(parts)] *)
Fixpoint join (sep : str) (parts : list str) : str :=
  match parts with
  | [] => []
  | [p] => p
  | p :: ps => p ++ sep ++ join sep ps
  end.

(** [l[i]] on a list *)
Definition getitem {A} (l : list A) (i : nat) : result A :=
  match l !! i with
  | Some x => Ok x
  | None => Raise IndexError
  end.

(** [str(n)] for a non-negative integer: its decimal digits. *)
Fixpoint uint_chars (d : Decimal.uint) : str :=
  match d with
  | Decimal.Nil => []
  | Decimal.D0 d => 48%N :: uint_chars d
  | Decimal.D1 d => 49%N :: uint_chars d
  | Decimal.D2 d => 50%N :: uint_chars d
  | Decimal.D3 d => 51%N :: uint_chars d
  | Decimal.D4 d => 52%N :: uint_chars d
  | Decimal.D5 d => 53%N :: uint_chars d
  | Decimal.D6 d => 54%N :: uint_chars d
  | Decimal.D7 d => 55%N :: uint_chars d
  | Decimal.D8 d => 56%N :: uint_chars d
  | Decimal.D9 d => 57%N :: uint_chars d
  end.

Definition str_of_nat (n : nat) : str := uint_chars (Nat.to_uint n).

(** [enumerate(l, start)] *)
Fixpoint enumerate {A} (start : nat) (l : list A) : list (nat * A) :=
  match l with
  | [] => []
  | x :: l' => (start, x) :: enumerate (S start) l'
  end.

(** ** Regular expressions

    The fragment of [re] the two patterns of the program are written in:
    one-character atoms (a literal, a class, [\d], [.]), greedy [*] and
    [+] and lazy [*?] over such an atom, capturing groups, concatenation
    and [$] ([Eps] is the empty pattern).  The matcher backtracks the way [re] does: a greedy
    repetition tries the longest run first, a lazy one the shortest. *)

Inductive regex :=
  | Eps
  | Chr (p : N → bool)
  | Star (p : N → bool)
  | Plus (p : N → bool)
  | StarLazy (p : N → bool)
  | Grp (n : nat) (r : regex)
  | Cat (r1 r2 : regex)
  | Dollar.

Fixpoint star_greedy {R} (p : N → bool) (s : str) (k : str → option R) : option R :=
  match s with
  | c :: s' =>
      if p c then
        match star_greedy p s' k with
        | Some r => Some r
        | None => k s
        end
      else k s
  | [] => k s
  end.

Fixpoint star_lazy {R} (p : N → bool) (s : str) (k : str → option R) : option R :=
  match k s with
  | Some r => Some r
  | None =>
      match s with
      | c :: s' => if p c then star_lazy p s' k else None
      | [] => None
      end
  end.

(** The text a sub-pattern consumed: what lies between where it started
    ([s]) and where it stopped ([s'], a suffix of [s]). *)
Definition consumed (s s' : str) : str := take (length s - length s') s.

(** [$] without MULTILINE: at the end, or before a newline that ends the
    string. *)
Definition at_end (s : str) : bool :=
  match s with
  | [] => true
  | [c] => (c =? 10)%N
  | _ => false
  end.

Fixpoint rmatch {R} (r : regex) (s : str) (g : gmap nat str)
    (k : str → gmap nat str → option R) : option R :=
  match r with
  | Eps => k s g
  | Chr p =>
      match s with
      | c :: s' => if p c then k s' g else None
      | [] => None
      end
  | Star p => star_greedy p s (λ s', k s' g)
  | Plus p =>
      match s with
      | c :: s' => if p c then star_greedy p s' (λ s'', k s'' g) else None
      | [] => None
      end
  | StarLazy p => star_lazy p s (λ s', k s' g)
  | Grp n r' => rmatch r' s g (λ s' g', k s' (<[n := consumed s s']> g'))
  | Cat r1 r2 => rmatch r1 s g (λ s' g', rmatch r2 s' g' k)
  | Dollar => if at_end s then k s g else None
  end.

(** [pattern.match(s)]: the groups of the match at the start of [s] and
    the text after the match. *)
Definition re_match (r : regex) (s : str) : option (gmap nat str * str) :=
  rmatch r s ∅ (λ s' g, Some (g, s')).

(** [m.group(n)] *)
Definition group (n : nat) (m : gmap nat str * str) : str := default [] (m.1 !! n).

(** A template of [sub]: literal text and group references. *)
Inductive tpl_item :=
  | TLit (s : str)
  | TGroup (n : nat).

Definition expand (tpl : list tpl_item) (m : gmap nat str * str) : str :=
  flat_map (λ it, match it with TLit s => s | TGroup n => group n m end) tpl.

(** [pattern.sub(template, s)]: the leftmost match is replaced, the scan
    goes on after it; where no match starts, one character is copied.
    The fuel is the length of the text: every step consumes a character
    (a match that consumed none is treated as no match; the pattern of
    this program has no such match). *)
Fixpoint sub_fuel (fuel : nat) (r : regex) (tpl : list tpl_item) (s : str) : str :=
  match fuel with
  | 0 => s
  | S fuel' =>
      match re_match r s with
      | Some (g, rest) =>
          if bool_decide (length rest < length s)
          then expand tpl (g, rest) ++ sub_fuel fuel' r tpl rest
          else match s with
               | c :: s' => c :: sub_fuel fuel' r tpl s'
               | [] => []
               end
      | None =>
          match s with
          | c :: s' => c :: sub_fuel fuel' r tpl s'
          | [] => []
          end
      end
  end.

Definition re_sub (r : regex) (tpl : list tpl_item) (s : str) : str :=
  sub_fuel (length s) r tpl s.

(** A literal character, and a sequence of them. *)
Definition lit (c : N) : regex := Chr (λ x, (x =? c)%N).

Definition lits (s : str) : regex := foldr (λ c r, Cat (lit c) r) Eps s.

(** [.] without DOTALL: anything but a newline. *)
Definition dot (c : N) : bool := negb (c =? 10)%N.

(** ** The data model *)

Record chapter := mkChapter {
  c_title : str;
  c_content : list str
}.

(** A volume's ['chapters'] list holds references to chapter objects. *)
Record volume := mkVolume {
  v_title : str;
  v_chapters : list ref
}.

Record metadata_dict := mkMetadata {
  md_title : str;
  md_author : str;
  md_description : str
}.

Record manifest_item := mkManifestItem {
  mi_id : str;
  mi_href : str;
  mi_media_type : str
}.

Record spine_item := mkSpineItem {
  idref : str
}.

(** The generator object.  The dictionaries created while parsing are
    objects: [volume_objs] and [chapter_objs] are the stores they are
    allocated in (a reference is a position in its store, a new object is
    put at the end), and [books], [current_volume] and [current_chapter]
    hold references, so that an append through [current_chapter] is seen
    through [books]. *)
Record generator := mkGenerator {
  txt_path : str;
  output_path : str;
  volume_objs : list volume;
  chapter_objs : list chapter;
  books : list ref;
  current_volume : option ref;
  current_chapter : option ref;
  manifest : list manifest_item;
  spine : list spine_item;
  nav_points : list str;
  metadata : metadata_dict
}.

(** [EpubGenerator.__init__] *)
Definition init (txt_path output_path : str) : generator :=
  {| txt_path := txt_path;
     output_path := output_path;
     volume_objs := [];
     chapter_objs := [];
     books := [];
     current_volume := None;
     current_chapter := None;
     manifest := [];
     spine := [];
     nav_points := [];
     metadata := {| md_title := u "默认标题"; md_author := u "默认作者"; md_description := [] |} |}.

(** Field updates. *)
Definition set_metadata (m : metadata_dict) (g : generator) : generator :=
  mkGenerator (txt_path g) (output_path g) (volume_objs g) (chapter_objs g) (books g)
    (current_volume g) (current_chapter g) (manifest g) (spine g) (nav_points g) m.

Definition set_tree (vs : list volume) (cs : list chapter) (bs : list ref)
    (cv cc : option ref) (g : generator) : generator :=
  mkGenerator (txt_path g) (output_path g) vs cs bs cv cc
    (manifest g) (spine g) (nav_points g) (metadata g).

Definition set_manifest_spine (m : list manifest_item) (sp : list spine_item)
    (g : generator) : generator :=
  mkGenerator (txt_path g) (output_path g) (volume_objs g) (chapter_objs g) (books g)
    (current_volume g) (current_chapter g) m sp (nav_points g) (metadata g).

Definition set_title (t : str) (m : metadata_dict) : metadata_dict :=
  mkMetadata t (md_author m) (md_description m).
Definition set_author (a : str) (m : metadata_dict) : metadata_dict :=
  mkMetadata (md_title m) a (md_description m).
Definition set_description (d : str) (m : metadata_dict) : metadata_dict :=
  mkMetadata (md_title m) (md_author m) d.

(** [volume['chapters'].append(c)] and [chapter['content'].append(line)] *)
Definition chapters_append (c : ref) (v : volume) : volume :=
  mkVolume (v_title v) (v_chapters v ++ [c]).
Definition content_append (line : str) (c : chapter) : chapter :=
  mkChapter (c_title c) (c_content c ++ [line]).

(** The book as the generators traverse it: the volumes [books] refers
    to, and the chapters a volume refers to. *)
Definition volumes_of (g : generator) : list volume :=
  omap (λ r, volume_objs g !! r) (books g).
Definition chapters_of (g : generator) (v : volume) : list chapter :=
  omap (λ r, chapter_objs g !! r) (v_chapters v).

(** ** Reading the file

    [open(..., 'r')] translates [\r\n] and [\r] to [\n]; [readlines]
    cuts after every [\n] and keeps it. *)
Fixpoint universal_newlines (s : str) : str :=
  match s with
  | [] => []
  | c :: s' =>
      if (c =? 13)%N then
        match s' with
        | d :: s'' => if (d =? 10)%N then 10%N :: universal_newlines s''
                      else 10%N :: universal_newlines s'
        | [] => [10%N]
        end
      else c :: universal_newlines s'
  end.

Fixpoint split_lines (cur : str) (s : str) : list str :=
  match s with
  | [] => match cur with [] => [] | _ => [cur] end
  | c :: s' =>
      if (c =? 10)%N then (cur ++ [c]) :: split_lines [] s'
      else split_lines (cur ++ [c]) s'
  end.

Definition readlines (text : str) : list str :=
  split_lines [] (universal_newlines text).

(** ** [parse_txt] *)

(** [re.compile(r'^\[卷名\] (.+)$')] *)
Definition volume_pattern : regex :=
  Cat (lits (u "[卷名] ")) (Cat (Grp 1 (Plus dot)) Dollar).

Definition metadata_delimiter : str := Eval vm_compute in u "━━━━━━━━━".
Definition title_marker : str := Eval vm_compute in u "「书名：".
Definition author_marker : str := Eval vm_compute in u "「作者：".
Definition description_marker : str := Eval vm_compute in u "「书籍简介：".
Definition indentation : list str := Eval vm_compute in [u " "; u "　"].

(** The state of the loop: the object, and the local [metadata_section]. *)
Record parser := mkParser {
  gen : generator;
  metadata_section : bool
}.

(** A line is a chapter header when it is not indented and not blank. *)
Definition is_chapter_header (line : str) : bool :=
  negb (startswith_any line indentation) && negb (bool_decide (strip line = [])).

(** Lines 49-65: the volume and chapter part of the loop body. *)
Definition parse_volume_chapter (line : str) (g : generator) : generator :=
  match re_match volume_pattern line with
  | Some volume_match =>
      let v := length (volume_objs g) in
      set_tree (volume_objs g ++ [mkVolume (group 1 volume_match) []])
               (chapter_objs g) (books g ++ [v]) (Some v) None g
  | None =>
      match current_volume g with
      | Some v =>
          let stripped_line := strip line in
          if is_chapter_header line then
            let c := length (chapter_objs g) in
            set_tree (alter (chapters_append c) v (volume_objs g))
                     (chapter_objs g ++ [mkChapter stripped_line []])
                     (books g) (Some v) (Some c) g
          else
            match current_chapter g with
            | Some c =>
                set_tree (volume_objs g)
                         (alter (content_append line) c (chapter_objs g))
                         (books g) (Some v) (Some c) g
            | None => g
            end
      | None => g
      end
  end.

(** Lines 38-46: a line read inside the metadata block. *)
Definition parse_metadata (lines : list str) (i : nat) (line : str) (p : parser)
    : result parser :=
  let g := gen p in
  if startswith line title_marker then
    Ok (mkParser (set_metadata (set_title (slice line 4 (-1)) (metadata g)) g) true)
  else if startswith line author_marker then
    Ok (mkParser (set_metadata (set_author (slice line 4 (-1)) (metadata g)) g) true)
  else if startswith line description_marker then
    next ← getitem lines (i + 1);
    Ok (mkParser (set_metadata (set_description (strip next) (metadata g)) g) false)
  else Ok p.

(** Lines 31-65: the body of the loop, for the line [lines[i]]. *)
Definition parse_line (lines : list str) (i : nat) (raw : str) (p : parser)
    : result parser :=
  let line := rstrip_newline raw in
  if bool_decide (line = metadata_delimiter) then Ok (mkParser (gen p) true)
  else if metadata_section p then parse_metadata lines i line p
  else Ok (mkParser (parse_volume_chapter line (gen p)) false).

(** [for i, line in enumerate(lines)]: [todo] is what is left of [lines]
    from position [i] on. *)
Fixpoint parse_loop (lines : list str) (i : nat) (todo : list str) (p : parser)
    : result parser :=
  match todo with
  | [] => Ok p
  | raw :: todo' =>
      p' ← parse_line lines i raw p;
      parse_loop lines (S i) todo' p'
  end.

Definition parse_lines (lines : list str) (g : generator) : result generator :=
  p ← parse_loop lines 0 lines (mkParser g false);
  Ok (gen p).

(** [parse_txt], on the decoded text of the file at [txt_path]. *)
Definition parse_txt (text : str) (g : generator) : result generator :=
  parse_lines (readlines text) g.

(** ** [process_images] *)

(** [\d] on a [str] pattern: the decimal digits of Unicode (category Nd),
    here the table of Unicode 14.0, the one CPython 3.11 is built with. *)
Definition decimal_ranges : list (N * N) :=
  [(48, 57); (1632, 1641); (1776, 1785); (1984, 1993); (2406, 2415); (2534, 2543);
   (2662, 2671); (2790, 2799); (2918, 2927); (3046, 3055); (3174, 3183); (3302, 3311);
   (3430, 3439); (3558, 3567); (3664, 3673); (3792, 3801); (3872, 3881); (4160, 4169);
   (4240, 4249); (6112, 6121); (6160, 6169); (6470, 6479); (6608, 6617); (6784, 6793);
   (6800, 6809); (6992, 7001); (7088, 7097); (7232, 7241); (7248, 7257); (42528, 42537);
   (43216, 43225); (43264, 43273); (43472, 43481); (43504, 43513); (43600, 43609);
   (44016, 44025); (65296, 65305); (66720, 66729); (68912, 68921); (69734, 69743);
   (69872, 69881); (69942, 69951); (70096, 70105); (70384, 70393); (70736, 70745);
   (70864, 70873); (71248, 71257); (71360, 71369); (71472, 71481); (71904, 71913);
   (72016, 72025); (72784, 72793); (73040, 73049); (73120, 73129); (92768, 92777);
   (92864, 92873); (93008, 93017); (120782, 120831); (123200, 123209); (123632, 123641);
   (125264, 125273); (130032, 130041)]%N.

Definition isdecimal (c : N) : bool :=
  existsb (λ r, (r.1 <=? c) && (c <=? r.2))%N decimal_ranges.

(** What a literal of the pattern matches under [re.IGNORECASE]: for an
    ASCII letter both cases, and the letters Unicode folds to it (the
    dotted and dotless i, the Kelvin sign, the long s); any other
    character of the pattern is uncased and matches itself. *)
Definition case_variants (c : N) : list N :=
  let l := if ((65 <=? c) && (c <=? 90))%N then (c + 32)%N else c in
  if ((97 <=? l) && (l <=? 122))%N then
    l :: (l - 32)%N ::
      (if (l =? 105)%N then [304; 305]%N
       else if (l =? 107)%N then [8490%N]
       else if (l =? 115)%N then [383%N]
       else [])
  else [c].

Definition ignorecase (c : N) : N → bool :=
  λ x, existsb (N.eqb x) (case_variants c).

Definition lits_ignorecase (s : str) : regex :=
  foldr (λ c r, Cat (Chr (ignorecase c)) r) Eps s.

(** The class [[，, ]]. *)
Definition img_separator (c : N) : bool :=
  ((c =? 65292) || (c =? 44) || (c =? 32))%N.

(** [re.compile(r'\[img=(\d+)[，, ]*(\d+)\](.*?)\[/img\]', re.IGNORECASE)] *)
Definition img_pattern : regex :=
  Cat (lits_ignorecase (u "[img="))
    (Cat (Grp 1 (Plus isdecimal))
      (Cat (Star img_separator)
        (Cat (Grp 2 (Plus isdecimal))
          (Cat (lits_ignorecase (u "]"))
            (Cat (Grp 3 (StarLazy dot))
              (lits_ignorecase (u "[/img]"))))))).

(** [r'<img src="\3" width="\1" height="\2"/>'] *)
Definition img_template : list tpl_item :=
  [TLit (uq "<img src=`"); TGroup 3; TLit (uq "` width=`"); TGroup 1;
   TLit (uq "` height=`"); TGroup 2; TLit (uq "`/>")].

Definition process_images (text : str) : str :=
  let text := replace_char 65306 (u ":") text in
  re_sub img_pattern img_template text.

(** ** [textwrap.dedent]

    Lines of blanks become empty; the longest run of blanks that starts
    every other non-empty line is removed from the lines that start with
    it. *)
Definition is_blank (c : N) : bool := ((c =? 32) || (c =? 9))%N.

Fixpoint leading (p : N → bool) (s : str) : str :=
  match s with
  | c :: s' => if p c then c :: leading p s' else []
  | [] => []
  end.

Fixpoint common_prefix (a b : str) : str :=
  match a, b with
  | x :: a', y :: b' => if (x =? y)%N then x :: common_prefix a' b' else []
  | _, _ => []
  end.

Definition dedent (text : str) : str :=
  let lines := map (λ l, if forallb is_blank l then [] else l) (split_char 10 text) in
  let indents :=
    omap (λ l, match l with [] => None | _ => Some (leading is_blank l) end) lines in
  let margin :=
    match indents with
    | [] => []
    | i :: rest => foldl common_prefix i rest
    end in
  join [10%N] (map (λ l, if startswith l margin then drop (length margin) l else l) lines).

(** ** [str.format]

    The replacement fields of a template are [{field_name}], a field name
    being an argument name followed by [.attribute] and [[index]]
    accessors.  What stands between the brackets of an index is the key
    as it is written: [str.format] takes no quotes off it. *)
Inductive accessor :=
  | Attr (name : str)
  | Item (key : str).

(** The accessors of a field name, read character by character: [pending]
    says what the characters gathered in [acc] are (nothing, right after
    a [[...]]), [item] whether we are between brackets. *)
Fixpoint accessors (item : bool) (pending : option (str → accessor)) (acc : str)
    (s : str) : list accessor :=
  let flush := match pending with Some mk => [mk acc] | None => [] end in
  match s with
  | [] => flush
  | c :: s' =>
      if item then
        if (c =? 93)%N then Item acc :: accessors false None [] s'
        else accessors true pending (acc ++ [c]) s'
      else if (c =? 46)%N then flush ++ accessors false (Some Attr) [] s'
      else if (c =? 91)%N then flush ++ accessors true None [] s'
      else accessors false pending (acc ++ [c]) s'
  end.

(** A field name split into its argument name and its accessors. *)
Definition parse_field (f : str) : str * list accessor :=
  let arg := leading (λ c, negb ((c =? 46) || (c =? 91))%N) f in
  (arg, accessors false None [] (drop (length arg) f)).

Inductive template_part :=
  | Literal (s : str)
  | Field (name : str).

(** The parts of a template: [{{] and [}}] stand for a brace, a single
    [{] opens a field that the next [}] closes, a single [}] elsewhere is
    an error.  (Conversions and format specifications are not part of
    this model; the template of the program has none.) *)
Fixpoint template_parts (field : option str) (s : str) : result (list template_part) :=
  match s with
  | [] => match field with Some _ => Raise ValueError | None => Ok [] end
  | c :: s' =>
      match field with
      | Some f =>
          if (c =? 125)%N then parts ← template_parts None s'; Ok (Field f :: parts)
          else template_parts (Some (f ++ [c])) s'
      | None =>
          if (c =? 123)%N then
            match s' with
            | d :: s'' =>
                if (d =? 123)%N
                then parts ← template_parts None s''; Ok (Literal [c] :: parts)
                else template_parts (Some []) s'
            | [] => Raise ValueError
            end
          else if (c =? 125)%N then
            match s' with
            | d :: s'' =>
                if (d =? 125)%N
                then parts ← template_parts None s''; Ok (Literal [c] :: parts)
                else Raise ValueError
            | [] => Raise ValueError
            end
          else parts ← template_parts None s'; Ok (Literal [c] :: parts)
      end
  end.

(** The objects a field of this program can reach from [self]. *)
Inductive pyobj :=
  | OGenerator (g : generator)
  | OMetadata (m : metadata_dict)
  | OStr (s : str)
  | OOther.

(** [getattr(o, name)] *)
Definition getattr (o : pyobj) (name : str) : result pyobj :=
  match o with
  | OGenerator g =>
      if bool_decide (name = u "metadata") then Ok (OMetadata (metadata g))
      else if bool_decide (name = u "txt_path") then Ok (OStr (txt_path g))
      else if bool_decide (name = u "output_path") then Ok (OStr (output_path g))
      else if bool_decide (name ∈ [u "books"; u "current_volume"; u "current_chapter";
                                    u "manifest"; u "spine"; u "nav_points"])
      then Ok OOther
      else Raise (AttributeError name)
  | _ => Raise (AttributeError name)
  end.

(** [self.metadata[key]]: the dictionary has the three keys [__init__]
    gives it, and no statement of the program adds one. *)
Definition metadata_getitem (m : metadata_dict) (key : str) : result str :=
  if bool_decide (key = u "title") then Ok (md_title m)
  else if bool_decide (key = u "author") then Ok (md_author m)
  else if bool_decide (key = u "description") then Ok (md_description m)
  else Raise (KeyError key).

(** [o[key]] *)
Definition getitem_obj (o : pyobj) (key : str) : result pyobj :=
  match o with
  | OMetadata m => s ← metadata_getitem m key; Ok (OStr s)
  | _ => Raise TypeError
  end.

Fixpoint resolve (o : pyobj) (accs : list accessor) : result pyobj :=
  match accs with
  | [] => Ok o
  | Attr name :: accs' => o' ← getattr o name; resolve o' accs'
  | Item key :: accs' => o' ← getitem_obj o key; resolve o' accs'
  end.

(** The value of one field under [.format(self=g)].  A field whose value
    is not a string would be rendered by [repr], which is not modelled
    ([TypeError] stands for it); no field of the program gets there. *)
Definition format_field (g : generator) (name : str) : result str :=
  let '(arg, accs) := parse_field name in
  if bool_decide (arg = u "self") then
    o ← resolve (OGenerator g) accs;
    match o with
    | OStr s => Ok s
    | _ => Raise TypeError
    end
  else Raise (KeyError arg).

Fixpoint format_parts (g : generator) (parts : list template_part) : result str :=
  match parts with
  | [] => Ok []
  | Literal s :: parts' => rest ← format_parts g parts'; Ok (s ++ rest)
  | Field name :: parts' =>
      v ← format_field g name;
      rest ← format_parts g parts';
      Ok (v ++ rest)
  end.

(** [template.format(self=g)] *)
Definition format_self (template : str) (g : generator) : result str :=
  parts ← template_parts None template;
  format_parts g parts.

(** ** The working directory

    A directory lists its entries in some order (the order [os.scandir]
    gives them in); a new entry goes to the end. *)
Inductive node :=
  | File (content : str)
  | Dir (entries : list (str * node)).

Fixpoint lookup_entry (name : str) (es : list (str * node)) : option node :=
  match es with
  | [] => None
  | (n, x) :: es' => if bool_decide (n = name) then Some x else lookup_entry name es'
  end.

Fixpoint update_entry (name : str) (x : node) (es : list (str * node))
    : list (str * node) :=
  match es with
  | [] => [(name, x)]
  | (n, y) :: es' =>
      if bool_decide (n = name) then (n, x) :: es' else (n, y) :: update_entry name x es'
  end.

Fixpoint lookup_path (path : list str) (n : node) : option node :=
  match path with
  | [] => Some n
  | name :: rest =>
      match n with
      | Dir es => x ← lookup_entry name es; lookup_path rest x
      | File _ => None
      end
  end.

(** [os.makedirs(path, exist_ok=True)] *)
Fixpoint makedirs (path : list str) (n : node) : result node :=
  match n with
  | File _ => Raise (match path with [] => FileExistsError | _ => NotADirectoryError end)
  | Dir es =>
      match path with
      | [] => Ok n
      | name :: rest =>
          x ← makedirs rest (default (Dir []) (lookup_entry name es));
          Ok (Dir (update_entry name x es))
      end
  end.

(** [with open(path, 'w') as f: f.write(content)] *)
Fixpoint write_file (path : list str) (content : str) (n : node) : result node :=
  match n with
  | File _ => Raise NotADirectoryError
  | Dir es =>
      match path with
      | [] => Raise IsADirectoryError
      | [name] =>
          match lookup_entry name es with
          | Some (Dir _) => Raise IsADirectoryError
          | _ => Ok (Dir (update_entry name (File content) es))
          end
      | name :: rest =>
          match lookup_entry name es with
          | Some x => x' ← write_file rest content x; Ok (Dir (update_entry name x' es))
          | None => Raise (FileNotFoundError path)
          end
      end
  end.

Definition read_file (path : list str) (n : node) : result str :=
  match lookup_path path n with
  | Some (File content) => Ok content
  | Some (Dir _) => Raise IsADirectoryError
  | None => Raise (FileNotFoundError path)
  end.

Definition subdirs (es : list (str * node)) : list str :=
  omap (λ e, match e.2 with Dir _ => Some e.1 | File _ => None end) es.
Definition files (es : list (str * node)) : list str :=
  omap (λ e, match e.2 with File _ => Some e.1 | Dir _ => None end) es.

(** [os.walk(top)], top-down, for the directory [n] found at [top]. *)
Fixpoint walk (top : list str) (n : node) : list (list str * list str * list str) :=
  match n with
  | File _ => []
  | Dir es =>
      (top, subdirs es, files es) ::
      (fix below (es : list (str * node)) :=
         match es with
         | [] => []
         | (name, x) :: es' =>
             match x with
             | Dir _ => walk (top ++ [name]) x
             | File _ => []
             end ++ below es'
         end) es
  end.

Definition os_walk (top : list str) (fs : node) : list (list str * list str * list str) :=
  match lookup_path top fs with
  | Some n => walk top n
  | None => []
  end.

(** [os.path.relpath(path, start)] for a [path] below [start]. *)
Definition relpath (path start : list str) : str :=
  join (u "/") (drop (length start) path).

(** A loop whose body may raise. *)
Fixpoint foldM {A S} (f : S → A → result S) (s : S) (l : list A) : result S :=
  match l with
  | [] => Ok s
  | x :: l' => s' ← f s x; foldM f s' l'
  end.

(** ** [create_epub_structure] *)

Definition container_xml : str :=
  dedent (uq "        <?xml version=`1.0`?>
        <container version=`1.0` xmlns=`urn:oasis:names:tc:opendocument:xmlns:container`>
          <rootfiles>
            <rootfile full-path=`OEBPS/content.opf` media-type=`application/oebps-package+xml`/>
          </rootfiles>
        </container>
        ").

Definition create_epub_structure (fs : node) : result node :=
  fs ← makedirs [u "epub"; u "OEBPS"] fs;
  fs ← makedirs [u "epub"; u "META-INF"] fs;
  fs ← write_file [u "epub"; u "mimetype"] (u "application/epub+zip") fs;
  write_file [u "epub"; u "META-INF"; u "container.xml"] container_xml fs.

(** ** [generate_chapters] *)

(** [f'vol{vol_idx}_chap{chap_idx}.xhtml'] *)
Definition chapter_filename (vol_idx chap_idx : nat) : str :=
  u "vol" ++ str_of_nat vol_idx ++ u "_chap" ++ str_of_nat chap_idx ++ u ".xhtml".

(** [filename.split('.')[0]] *)
Definition chapter_id (filename : str) : str :=
  match split_char 46 filename with
  | w :: _ => w
  | [] => []
  end.

Definition paragraph (para : str) : str :=
  if bool_decide (strip para = []) then u "<p>&#160;</p>"
  else u "<p>" ++ process_images para ++ u "</p>".

Definition chapter_xhtml (ch : chapter) (content : list str) : str :=
  dedent (uq "                <?xml version=`1.0` encoding=`utf-8`?>
                <!DOCTYPE html PUBLIC `-//W3C//DTD XHTML 1.1//EN`
                  `http://www.w3.org/TR/xhtml11/DTD/xhtml11.dtd`>
                <html xmlns=`http://www.w3.org/1999/xhtml`>
                <head>
                  <title>" ++ c_title ch ++ uq "</title>
                </head>
                <body>
                  <h2>" ++ c_title ch ++ uq "</h2>
                  " ++ concat content ++ uq "
                </body>
                </html>
                ").

(** The body of the inner loop, lines 93-125. *)
Definition generate_chapter (vol_idx chap_idx : nat) (ch : chapter)
    (st : generator * node) : result (generator * node) :=
  let filename := chapter_filename vol_idx chap_idx in
  let g :=
    set_manifest_spine
      (manifest st.1 ++
         [mkManifestItem (chapter_id filename) filename (u "application/xhtml+xml")])
      (spine st.1 ++ [mkSpineItem (chapter_id filename)])
      st.1 in
  let content := map paragraph (c_content ch) in
  fs ← write_file [u "epub"; u "OEBPS"; filename] (chapter_xhtml ch content) st.2;
  Ok (g, fs).

Definition generate_chapters (g : generator) (fs : node) : result (generator * node) :=
  foldM (λ st vol,
           foldM (λ st chap, generate_chapter vol.1 chap.1 chap.2 st)
                 st (enumerate 1 (chapters_of g vol.2)))
        (g, fs) (enumerate 1 (volumes_of g)).

(** ** [generate_toc] *)

Definition toc_header : str :=
  dedent (uq "        <?xml version=`1.0` encoding=`UTF-8`?>
        <!DOCTYPE ncx PUBLIC `-//NISO//DTD ncx 2005-1//EN` " ++ u "
          " ++ uq "`http://www.daisy.org/z3986/2005/ncx-2005-1.dtd`>
        <ncx xmlns=`http://www.daisy.org/z3986/2005/ncx/` version=`2005-1`>
          <head>
            <meta name=`dtb:uid` content=`urn:uuid:12345`/>
            <meta name=`dtb:depth` content=`2`/>
            <meta name=`dtb:totalPageCount` content=`0`/>
            <meta name=`dtb:maxPageNumber` content=`0`/>
          </head>
          <docTitle><text>{self.metadata['title']}</text></docTitle>
          <navMap>
        ").

(** Lines 145-148: the opening of a volume's navigation point. *)
Definition toc_volume_point (nav_id vol_idx : nat) (v : volume) : str :=
  uq "
            <navPoint id=`nav" ++ str_of_nat nav_id ++ uq "` playOrder=`"
    ++ str_of_nat nav_id ++ uq "`>
              <navLabel><text>" ++ v_title v ++ uq "</text></navLabel>
              <content src=`vol" ++ str_of_nat vol_idx ++ uq "_chap1.xhtml`/>".

(** Lines 153-157: a chapter's navigation point. *)
Definition toc_chapter_point (nav_id : nat) (filename : str) (ch : chapter) : str :=
  uq "
                <navPoint id=`nav" ++ str_of_nat nav_id ++ uq "` playOrder=`"
    ++ str_of_nat nav_id ++ uq "`>
                  <navLabel><text>" ++ c_title ch ++ uq "</text></navLabel>
                  <content src=`" ++ filename ++ uq "`/>
                </navPoint>".

(** Lines 143-160: the loop, on the text so far and the counter. *)
Definition toc_chapters (vol_idx : nat) (chs : list chapter) (st : str * nat) : str * nat :=
  foldl (λ st chap,
           (st.1 ++ toc_chapter_point st.2 (chapter_filename vol_idx chap.1) chap.2,
            S st.2))
        st (enumerate 1 chs).

Definition toc_volumes (g : generator) (st : str * nat) : str * nat :=
  foldl (λ st vol,
           let st := (st.1 ++ toc_volume_point st.2 vol.1 vol.2, S st.2) in
           let st := toc_chapters vol.1 (chapters_of g vol.2) st in
           (st.1 ++ u "</navPoint>", st.2))
        st (enumerate 1 (volumes_of g)).

Definition generate_toc (g : generator) (fs : node) : result node :=
  toc_xml ← format_self toc_header g;
  let nav_id := 1 in
  let st := toc_volumes g (toc_xml, nav_id) in
  let toc_xml := st.1 ++ u "</navMap></ncx>" in
  write_file [u "epub"; u "OEBPS"; u "toc.ncx"] toc_xml fs.

(** ** [generate_content_opf]

    [today] is [datetime.now().strftime("%Y-%m-%d")]. *)
Definition manifest_line (item : manifest_item) : str :=
  uq "<item id=`" ++ mi_id item ++ uq "` href=`" ++ mi_href item
    ++ uq "` media-type=`" ++ mi_media_type item ++ uq "`/>".

Definition spine_line (item : spine_item) : str :=
  uq "<itemref idref=`" ++ idref item ++ uq "`/>".

Definition content_opf (today : str) (g : generator) : str :=
  let manifest_items := join [10%N] (map manifest_line (manifest g)) in
  let spine_items := join [10%N] (map spine_line (spine g)) in
  dedent (uq "        <?xml version=`1.0` encoding=`utf-8`?>
        <package xmlns=`http://www.idpf.org/2007/opf` unique-identifier=`BookId` version=`2.0`>
          <metadata xmlns:dc=`http://purl.org/dc/elements/1.1/` xmlns:opf=`http://www.idpf.org/2007/opf`>
            <dc:identifier id=`BookId`>urn:uuid:12345</dc:identifier>
            <dc:title>" ++ md_title (metadata g) ++ uq "</dc:title>
            <dc:language>zh-CN</dc:language>
            <dc:creator>" ++ md_author (metadata g) ++ uq "</dc:creator>
            <dc:date>" ++ today ++ uq "</dc:date>
            <dc:description>" ++ md_description (metadata g) ++ uq "</dc:description>
          </metadata>
          <manifest>
            <item id=`toc` href=`toc.ncx` media-type=`application/x-dtbncx+xml`/>
            " ++ manifest_items ++ uq "
          </manifest>
          <spine toc=`toc`>
            " ++ spine_items ++ uq "
          </spine>
        </package>
        ").

Definition generate_content_opf (today : str) (g : generator) (fs : node) : result node :=
  write_file [u "epub"; u "OEBPS"; u "content.opf"] (content_opf today g) fs.

(** ** [zip_epub] *)

Inductive compression :=
  | ZIP_STORED
  | ZIP_DEFLATED.

Record zip_entry := mkZipEntry {
  arcname : str;
  compress_type : compression;
  data : str
}.

Record ZipFile := mkZipFile {
  zf_compression : compression;
  infolist : list zip_entry
}.

(** [zipfile.ZipFile(file, 'w', compression=ZIP_STORED)]: an archive
    opened without a [compression] argument stores its members. *)
Definition ZipFile_open (compression : option compression) : ZipFile :=
  mkZipFile (default ZIP_STORED compression) [].

(** [zf.write(path, arcname, compress_type=None)]: a member written
    without a [compress_type] takes the archive's. *)
Definition zf_write (fs : node) (path : list str) (name : str)
    (ct : option compression) (zf : ZipFile) : result ZipFile :=
  content ← read_file path fs;
  Ok (mkZipFile (zf_compression zf)
        (infolist zf ++ [mkZipEntry name (default (zf_compression zf) ct) content])).

(** The archive is the result; it is written to [output_path], which is
    taken to lie outside the [epub] tree that is walked. *)
Definition zip_epub (fs : node) : result ZipFile :=
  let zf := ZipFile_open None in
  zf ← zf_write fs [u "epub"; u "mimetype"] (u "mimetype") (Some ZIP_STORED) zf;
  foldM (λ zf entry,
           let root := entry.1.1 in
           foldM (λ zf file,
                    if bool_decide (file = u "mimetype") then Ok zf
                    else
                      let path := root ++ [file] in
                      let name := relpath path [u "epub"] in
                      zf_write fs path name None zf)
                 zf entry.2)
        zf (os_walk [u "epub"] fs).

(** ** [generate] *)
Definition generate (text today : str) (g : generator) (fs : node)
    : result (generator * node * ZipFile) :=
  g ← parse_txt text g;
  fs ← create_epub_structure fs;
  st ← generate_chapters g fs;
  fs ← generate_toc st.1 st.2;
  fs ← generate_content_opf today st.1 fs;
  zf ← zip_epub fs;
  Ok (st.1, fs, zf).

(** ** Notions the properties are stated with *)

(** A line that [volume_pattern] matches. *)
Definition is_volume_header (line : str) : bool :=
  match re_match volume_pattern line with
  | Some _ => true
  | None => false
  end.

(** The lines that the volume and chapter part of the loop gets to see
    (lines 49-65), with their newline taken off: those that are not the
    delimiter and are not read inside a metadata block.  [in_metadata]
    is the value of [metadata_section] before the first line. *)
Fixpoint scanned (in_metadata : bool) (lines : list str) : list str :=
  match lines with
  | [] => []
  | raw :: rest =>
      let line := rstrip_newline raw in
      if bool_decide (line = metadata_delimiter) then scanned true rest
      else if in_metadata then
        scanned (if startswith line title_marker then true
                 else if startswith line author_marker then true
                 else negb (startswith line description_marker)) rest
      else line :: scanned false rest
  end.

(** What is left of a list of lines from its first volume header on. *)
Fixpoint from_first_volume (ls : list str) : list str :=
  match ls with
  | [] => []
  | l :: ls' => if is_volume_header l then ls else from_first_volume ls'
  end.

(** A line that starts a chapter when a volume is open. *)
Definition is_chapter_line (line : str) : bool :=
  negb (is_volume_header line) && is_chapter_header line.

(** The input ends in a description marker: there is no line for
    [lines[i+1]] to read. *)
Definition ends_in_description (lines : list str) : bool :=
  match last lines with
  | Some raw => startswith (rstrip_newline raw) description_marker
  | None => false
  end.

(** The shape of the object graph the parser builds: references are
    handed out in order, [books] lists every volume once, every chapter
    is listed once, by one volume, and the current volume and chapter are
    the last ones made. *)
Record tree_inv (g : generator) : Prop := mkTreeInv {
  inv_books : books g = seq 0 (length (volume_objs g));
  inv_chapters :
    concat (v_chapters <$> volume_objs g) = seq 0 (length (chapter_objs g));
  inv_current_volume :
    ∀ v, current_volume g = Some v → S v = length (volume_objs g);
  inv_no_volume :
    current_volume g = None → volume_objs g = [] ∧ chapter_objs g = [];
  inv_current_chapter :
    ∀ c, current_chapter g = Some c → S c = length (chapter_objs g);
  inv_titles : Forall (λ ch, c_title ch ≠ []) (chapter_objs g)
}.

(** How many lines of [ls] satisfy [f]. *)
Definition count (f : str → bool) (ls : list str) : nat := length (List.filter f ls).

(** The lines that can start a chapter, given whether a volume is open. *)
Definition chapter_candidates (open : bool) (ls : list str) : list str :=
  if open then ls else from_first_volume ls.

(** Two generators hold the same book: the same objects, the same
    references to them. *)
Definition same_tree (g g' : generator) : Prop :=
  volume_objs g' = volume_objs g ∧ chapter_objs g' = chapter_objs g
  ∧ books g' = books g ∧ current_volume g' = current_volume g
  ∧ current_chapter g' = current_chapter g.

(** [new] is [old], or what a line of [rest] that starts with [marker]
    carries between the marker and its last character. *)
Definition set_by_marker (marker : str) (rest : list str) (old new : str) : Prop :=
  new = old
  ∨ ∃ raw, raw ∈ rest ∧ startswith (rstrip_newline raw) marker = true
           ∧ new = slice (rstrip_newline raw) 4 (-1).

(** The identifier of the chapter at position [M] of the volume at
    position [N]. *)
Definition chapter_name (N M : nat) : str :=
  u "vol" ++ str_of_nat N ++ u "_chap" ++ str_of_nat M.

(** The positions of the chapters of the book in traversal order
    (volume by volume, chapter by chapter), counted from 1. *)
Definition book_positions (g : generator) : list (nat * nat) :=
  flat_map (λ vol, (λ chap, (vol.1, chap.1)) <$> enumerate 1 (chapters_of g vol.2))
           (enumerate 1 (volumes_of g)).

(** The manifest and spine entries of the chapter at a position. *)
Definition chapter_item (pos : nat * nat) : manifest_item :=
  mkManifestItem (chapter_name pos.1 pos.2) (chapter_name pos.1 pos.2 ++ u ".xhtml")
                 (u "application/xhtml+xml").

Definition chapter_itemref (pos : nat * nat) : spine_item :=
  mkSpineItem (chapter_name pos.1 pos.2).

Definition chapter_ids (g : generator) : list str :=
  (λ pos, chapter_name pos.1 pos.2) <$> book_positions g.

(** The directory [epub/OEBPS] exists and holds files only, so that a
    chapter document can be written into it. *)
Definition chapters_writable (fs : node) : Prop :=
  ∃ es, lookup_path [u "epub"; u "OEBPS"] fs = Some (Dir es)
        ∧ ∀ name x, lookup_entry name es = Some x → ∃ content, x = File content.

(** A tree as a file system has it: no directory lists a name twice. *)
Inductive well_formed : node → Prop :=
  | wf_file (content : str) : well_formed (File content)
  | wf_dir (es : list (str * node)) :
      NoDup es.*1 → Forall (λ e, well_formed e.2) es → well_formed (Dir es).

(** The files [zip_epub] adds after the first member: the files that
    [os.walk('epub')] lists, in its order, but for those called
    [mimetype]; each as the components of its path. *)
Definition archive_members (fs : node) : list (list str) :=
  flat_map (λ entry,
              (λ file, entry.1.1 ++ [file])
                <$> List.filter (λ file, negb (bool_decide (file = u "mimetype"))) entry.2)
           (os_walk [u "epub"] fs).

(** The member [e] of the archive is the file at [path], stored with the
    method [c] under its path relative to [epub]. *)
Definition member_of (fs : node) (c : compression) (path : list str) (e : zip_entry)
    : Prop :=
  (∃ rel, path = u "epub" :: rel ∧ arcname e = join (u "/") rel)
  ∧ compress_type e = c
  ∧ read_file path fs = Ok (data e).

(** [s] starts with [p], up to the case of [p]'s letters. *)
Fixpoint startswith_ignorecase (s p : str) {struct p} : bool :=
  match p, s with
  | [], _ => true
  | c :: p', d :: s' => ignorecase c d && startswith_ignorecase s' p'
  | _ :: _, [] => false
  end.

(** The image element the template makes. *)
Definition img_element (src width height : str) : str :=
  uq "<img src=`" ++ src ++ uq "` width=`" ++ width ++ uq "` height=`" ++ height
    ++ uq "`/>".

(** The transformer as the claim words it: the width and the height
    separated by one comma, full-width comma or space. *)
Definition img_pattern_as_claimed : regex :=
  Cat (lits_ignorecase (u "[img="))
    (Cat (Grp 1 (Plus isdecimal))
      (Cat (Chr img_separator)
        (Cat (Grp 2 (Plus isdecimal))
          (Cat (lits_ignorecase (u "]"))
            (Cat (Grp 3 (StarLazy dot))
              (lits_ignorecase (u "[/img]"))))))).

Definition process_images_as_claimed (text : str) : str :=
  re_sub img_pattern_as_claimed img_template (replace_char 65306 (u ":") text).

(** [x] is [p] up to the case of its letters. *)
Definition is_variant (x p : str) : Prop :=
  length x = length p ∧ startswith_ignorecase x p = true.

(** [img_pattern] stage by stage, from its end: what is left to match
    once the groups in [g] have been captured. *)
Definition img_close (g : gmap nat str) (s : str) : option (gmap nat str * str) :=
  if startswith_ignorecase s (u "[/img]") then Some (g, drop 6 s) else None.

Definition img_text (g : gmap nat str) (s : str) : option (gmap nat str * str) :=
  star_lazy dot s (λ s', img_close (<[3 := consumed s s']> g) s').

Definition img_bracket (g : gmap nat str) (s : str) : option (gmap nat str * str) :=
  if startswith_ignorecase s (u "]") then img_text g (drop 1 s) else None.

Definition img_height (g : gmap nat str) (s : str) : option (gmap nat str * str) :=
  match s with
  | c :: s' =>
      if isdecimal c
      then star_greedy isdecimal s' (λ s'', img_bracket (<[2 := consumed s s'']> g) s'')
      else None
  | [] => None
  end.

Definition img_sep (g : gmap nat str) (s : str) : option (gmap nat str * str) :=
  star_greedy img_separator s (img_height g).

Definition img_width (g : gmap nat str) (s : str) : option (gmap nat str * str) :=
  match s with
  | c :: s' =>
      if isdecimal c
      then star_greedy isdecimal s' (λ s'', img_sep (<[1 := consumed s s'']> g) s'')
      else None
  | [] => None
  end.

(** The first pass of [process_images]: every full-width colon becomes
    an ASCII colon. *)
Definition ascii_colons (text : str) : str := replace_char 65306 (u ":") text.

(** ** A book as a value, and as the text of a source file *)

(** A book without references: the volumes with their titles, each with
    its chapters. *)
Abbreviation book := (list (str * list chapter)).

(** The book a generator holds, read through [books] as the generators
    read it. *)
Definition book_of (g : generator) : book :=
  (λ vol, (v_title vol, chapters_of g vol)) <$> volumes_of g.

(** The lines a book is written as: for a volume its header, for a
    chapter its title and then the lines of its content. *)
Definition chapter_lines (ch : chapter) : list str := c_title ch :: c_content ch.

Definition volume_lines (vol : str * list chapter) : list str :=
  (u "[卷名] " ++ vol.1) :: flat_map chapter_lines vol.2.

Definition book_lines (b : book) : list str := flat_map volume_lines b.

(** What [readlines] returns for a file of these lines: each with its
    newline. *)
Definition with_newline (line : str) : str := line ++ [10%N].

(** The titles and lines that can be written out and read back. *)
Definition volume_title_ok (t : str) : Prop := t ≠ [] ∧ forallb dot t = true.

Definition chapter_title_ok (t : str) : Prop :=
  is_chapter_header t = true ∧ strip t = t ∧ is_volume_header t = false
  ∧ t ≠ metadata_delimiter.

Definition content_line_ok (line : str) : Prop :=
  is_chapter_header line = false ∧ rstrip_newline line = line.

Definition chapter_ok (ch : chapter) : Prop :=
  chapter_title_ok (c_title ch) ∧ Forall content_line_ok (c_content ch).

Definition book_ok (b : book) : Prop :=
  Forall (λ vol, volume_title_ok vol.1 ∧ Forall chapter_ok vol.2) b.

(** The store the parser builds for a book: the chapters in one list,
    the volumes with the positions of their chapters in it. *)
Fixpoint volume_refs (offset : nat) (b : book) : list volume :=
  match b with
  | [] => []
  | vol :: b' =>
      mkVolume vol.1 (seq offset (length vol.2))
        :: volume_refs (offset + length vol.2) b'
  end.

Definition chapters_total (b : book) : nat := length (concat b.*2).

Definition load (b : book) (g : generator) : generator :=
  set_tree (volume_refs 0 b) (concat b.*2) (seq 0 (length b))
    (match length b with 0 => None | S v => Some v end)
    (match last b with
     | Some vol =>
         match vol.2 with
         | [] => None
         | _ :: _ => Some (chapters_total b - 1)
         end
     | None => None
     end)
    g.

(** ** The chapters of a book and their documents *)

(** The chapters in the order [generate_chapters] visits them, each
    with its position: the number of its volume and its number in the
    volume, from 1. *)
Definition book_chapters (g : generator) : list (nat * nat * chapter) :=
  flat_map (λ vol, (λ chap, (vol.1, chap.1, chap.2)) <$> enumerate 1 (chapters_of g vol.2))
           (enumerate 1 (volumes_of g)).

(** The document written for a chapter, and where. *)
Definition chapter_document (ch : chapter) : str :=
  chapter_xhtml ch (map paragraph (c_content ch)).

Definition chapter_path (pos : nat * nat) : list str :=
  [u "epub"; u "OEBPS"; chapter_filename pos.1 pos.2].

(** ** Lines *)

(** The text has a line, not its first, that starts with [c]. *)
Definition has_line_from (c : N) (t : str) : Prop := ∃ X Y, t = X ++ 10%N :: c :: Y.

(** The lines of the document of a chapter: the template without its
    margin, with the title in two places and all the paragraphs on one
    line. *)
Definition chapter_document_lines (ch : chapter) : list str :=
  [uq "<?xml version=`1.0` encoding=`utf-8`?>";
   uq "<!DOCTYPE html PUBLIC `-//W3C//DTD XHTML 1.1//EN`";
   uq "  `http://www.w3.org/TR/xhtml11/DTD/xhtml11.dtd`>";
   uq "<html xmlns=`http://www.w3.org/1999/xhtml`>";
   u "<head>";
   u "  <title>" ++ c_title ch ++ u "</title>";
   u "</head>";
   u "<body>";
   u "  <h2>" ++ c_title ch ++ u "</h2>";
   match c_content ch with
   | [] => []
   | _ :: _ => u "  " ++ concat (map paragraph (c_content ch))
   end;
   u "</body>";
   u "</html>";
   []].

(** The metadata block of a source file: the delimiter, the title and
    the author between their markers and a closing bracket, the marker
    of the description, and the description on the line after it. *)
Definition metadata_lines (title author description : str) : list str :=
  [metadata_delimiter;
   title_marker ++ title ++ u "」";
   author_marker ++ author ++ u "」";
   description_marker;
   description].

(** ** The navigation map *)

(** The number of chapters of the volumes before position [k] of the
    book (positions from 0). *)
Definition chapters_before (g : generator) (k : nat) : nat :=
  length (concat (chapters_of g <$> take k (volumes_of g))).

(** The text of the navigation point of a volume: the point of the
    volume itself, numbered [nav_id], the points of its chapters,
    numbered from [nav_id + 1] on, and the closing tag.  [N] is the
    number of the volume. *)
Definition volume_block (nav_id N : nat) (v : volume) (chs : list chapter) : str :=
  toc_volume_point nav_id N v
    ++ concat (imap (λ j ch, toc_chapter_point (S nav_id + j) (chapter_filename N (S j)) ch)
                    chs)
    ++ u "</navPoint>".

(** The navigation points of the book, numbered from [n] on: the volume
    at position [k] has the number [k + 1], and its point the play order
    [n] plus the number of points before it. *)
Definition nav_map (g : generator) (n : nat) : str :=
  concat (imap (λ k v, volume_block (n + k + chapters_before g k) (S k) v (chapters_of g v))
               (volumes_of g)).

(** * Properties *)

(** ** Strings and patterns *)

Lemma bind_Ok {A B} (f : A → result B) (a : A) : Ok a ≫= f = f a.
Proof. reflexivity. Qed.

Lemma bind_Raise {A B} (f : A → result B) (e : exn) : Raise e ≫= f = Raise e.
Proof. reflexivity. Qed.

Lemma bind_Ok_inv {A B} (f : A → result B) (m : result A) (b : B) :
  m ≫= f = Ok b → ∃ a, m = Ok a ∧ f a = Ok b.
Proof. destruct m as [a|e]; [eauto | discriminate]. Qed.

Lemma startswith_app (s p : str) : startswith (p ++ s) p = true.
Proof. induction p as [|c p IH]; simpl; [done|]. by rewrite N.eqb_refl. Qed.

Lemma startswith_spec (s p : str) : startswith s p = true ↔ ∃ r, s = p ++ r.
Proof.
  split.
  - revert s. induction p as [|c p IH]; intros s H; simpl in *; [eauto|].
    destruct s as [|d s]; [done|].
    apply andb_prop in H as [Hc Hs]. apply N.eqb_eq in Hc as ->.
    destruct (IH _ Hs) as [r ->]. eauto.
  - intros [r ->]. apply startswith_app.
Qed.

Lemma startswith_head (c d : N) (s p : str) :
  c ≠ d → startswith (d :: s) (c :: p) = false.
Proof. intros H. simpl. by apply N.eqb_neq in H as ->. Qed.

Lemma rstrip_chars_nil (p : N → bool) (s : str) :
  rstrip_chars p s = [] ↔ forallb p s = true.
Proof.
  induction s as [|c s IH]; simpl; [done|].
  destruct (rstrip_chars p s) as [|d r] eqn:E.
  - destruct (p c); simpl; [|by split]. by rewrite <- IH.
  - split; [done|]. intros H. apply andb_prop in H as [_ H].
    by apply IH in H.
Qed.

Lemma rstrip_chars_keeps_head (p : N → bool) (c : N) (s : str) :
  p c = false → ∃ r, rstrip_chars p (c :: s) = c :: r.
Proof.
  intros H. simpl. destruct (rstrip_chars p s); rewrite ?H; eauto.
Qed.

(** A line whose first character is not white space does not strip to
    the empty string. *)
Lemma strip_head (c : N) (s : str) : isspace c = false → strip (c :: s) ≠ [].
Proof.
  intros H. unfold strip. simpl. rewrite H.
  destruct (rstrip_chars_keeps_head isspace c s H) as [r ->]. done.
Qed.

Lemma is_chapter_header_head (c : N) (s : str) :
  isspace c = false → is_chapter_header (c :: s) = true.
Proof.
  intros H. unfold is_chapter_header.
  rewrite bool_decide_eq_false_2 by by apply strip_head.
  assert (c ≠ 32%N ∧ c ≠ 12288%N) as [H1 H2].
  { split; intros ->; vm_compute in H; discriminate. }
  unfold startswith_any, indentation.
  change (u " ") with [32%N]. change (u "　") with [12288%N].
  cbn [existsb startswith].
  apply N.eqb_neq in H1, H2.
  rewrite (N.eqb_sym 32), (N.eqb_sym 12288), H1, H2. done.
Qed.

Lemma is_chapter_header_false (line : str) :
  is_chapter_header line = false →
  line = [] ∨ ∃ c s, line = c :: s ∧ isspace c = true.
Proof.
  destruct line as [|c s]; [eauto|]. intros H. right. exists c, s. split; [done|].
  destruct (isspace c) eqn:E; [done|].
  by rewrite is_chapter_header_head in H.
Qed.

(** The three conditions of the source, spelled out. *)
Lemma is_chapter_header_spec (line : str) :
  is_chapter_header line = true ↔
  startswith line (u " ") = false ∧ startswith line (u "　") = false ∧ strip line ≠ [].
Proof.
  unfold is_chapter_header, startswith_any, indentation. simpl existsb.
  rewrite orb_false_r, andb_true_iff, !negb_true_iff, orb_false_iff,
    bool_decide_eq_false. tauto.
Qed.

(** *** Matching literals *)

Lemma rmatch_lits {R} (p s : str) g (k : str → gmap nat str → option R) :
  rmatch (lits p) s g k = if startswith s p then k (drop (length p) s) g else None.
Proof.
  revert s. induction p as [|c p IH]; intros s; simpl; [done|].
  destruct s as [|d s]; [done|]. simpl.
  rewrite (N.eqb_sym c d). destruct (d =? c)%N; simpl; [apply IH|done].
Qed.

Lemma star_greedy_all {R} (p : N → bool) (s : str) (k : str → option R) r :
  forallb p s = true → k [] = Some r → star_greedy p s k = Some r.
Proof.
  intros Hp Hk. induction s as [|c s IH]; simpl in *; [done|].
  apply andb_prop in Hp as [-> Hp]. by rewrite IH.
Qed.

Lemma volume_prefix_eq : u "[卷名] " = [91; 21367; 21517; 93; 32]%N.
Proof. reflexivity. Qed.

(** A line matches [volume_pattern] when it is the marker followed by a
    non-empty title, and the group is the title. *)
Lemma volume_pattern_match (t : str) :
  t ≠ [] → forallb dot t = true →
  re_match volume_pattern (u "[卷名] " ++ t) = Some ({[ 1 := t ]}, []).
Proof.
  intros Hne Hdot. unfold re_match, volume_pattern. cbn [rmatch].
  rewrite rmatch_lits, startswith_app, drop_app_length.
  destruct t as [|c t]; [done|]. cbn [forallb] in Hdot.
  apply andb_prop in Hdot as [Hc Hdot]. cbn [rmatch]. rewrite Hc.
  rewrite (star_greedy_all dot t _ ({[ 1 := c :: t ]}, [])); [done|done|].
  cbn [rmatch at_end]. unfold consumed. cbn [length]. rewrite Nat.sub_0_r.
  by rewrite (take_ge (c :: t)) by (cbn [length]; lia).
Qed.

(** ** The parser *)

Lemma volume_pattern_starts (line : str) :
  is_volume_header line = true → ∃ s, line = 91%N :: s.
Proof.
  unfold is_volume_header, re_match, volume_pattern. cbn [rmatch].
  rewrite rmatch_lits. destruct (startswith line _) eqn:E; [|done].
  apply startswith_spec in E as [r ->]. rewrite volume_prefix_eq. eauto.
Qed.

Lemma volume_header_is_header_shaped (line : str) :
  is_chapter_header line = false → re_match volume_pattern line = None.
Proof.
  intros H. destruct (re_match volume_pattern line) eqn:E; [|done].
  destruct (volume_pattern_starts line) as [s ->].
  { unfold is_volume_header. by rewrite E. }
  by rewrite is_chapter_header_head in H.
Qed.

Lemma marker_is_header_shaped (line marker : str) :
  marker ∈ [metadata_delimiter; title_marker; author_marker; description_marker] →
  startswith line marker = true → is_chapter_header line = true.
Proof.
  intros Hm [r ->]%startswith_spec.
  repeat (apply elem_of_cons in Hm as [->|Hm]; [by apply is_chapter_header_head|]).
  by apply elem_of_nil in Hm.
Qed.

Lemma title_is_header_shaped (line : str) :
  startswith line title_marker = true → is_chapter_header line = true.
Proof. apply marker_is_header_shaped. repeat constructor. Qed.

Lemma author_is_header_shaped (line : str) :
  startswith line author_marker = true → is_chapter_header line = true.
Proof. apply marker_is_header_shaped. repeat constructor. Qed.

Lemma description_is_header_shaped (line : str) :
  startswith line description_marker = true → is_chapter_header line = true.
Proof. apply marker_is_header_shaped. repeat constructor. Qed.

Lemma delimiter_is_header_shaped : is_chapter_header metadata_delimiter = true.
Proof. reflexivity. Qed.

Lemma parser_eta (p : parser) : mkParser (gen p) (metadata_section p) = p.
Proof. by destruct p. Qed.

(** C5.  A body line -- a line that is indented or blank, or, while no
    volume has been opened, any line that the scanning part of the loop
    reads and that is not a volume header -- read while there is no
    current volume, or no current chapter, changes nothing: the parser
    goes on in the state it was in, and raises nothing. *)
Theorem body_line_dropped (lines : list str) (i : nat) (raw : str) (p : parser) :
  current_volume (gen p) = None ∨ current_chapter (gen p) = None →
  is_chapter_header (rstrip_newline raw) = false
  ∨ (metadata_section p = false ∧ current_volume (gen p) = None
     ∧ rstrip_newline raw ≠ metadata_delimiter
     ∧ is_volume_header (rstrip_newline raw) = false) →
  parse_line lines i raw p = Ok p.
Proof.
  intros Hcur Hline. unfold parse_line.
  set (line := rstrip_newline raw) in *.
  destruct Hline as [Hbody | (Hscan & Hvol & Hdelim & Hhead)].
  - rewrite bool_decide_eq_false_2.
    2:{ intros E. rewrite E, delimiter_is_header_shaped in Hbody. done. }
    destruct (metadata_section p) eqn:Hmd.
    + unfold parse_metadata.
      destruct (startswith line title_marker) eqn:E1.
      { by rewrite title_is_header_shaped in Hbody. }
      destruct (startswith line author_marker) eqn:E2.
      { by rewrite author_is_header_shaped in Hbody. }
      destruct (startswith line description_marker) eqn:E3.
      { by rewrite description_is_header_shaped in Hbody. }
      done.
    + unfold parse_volume_chapter.
      rewrite (volume_header_is_header_shaped line Hbody), Hbody.
      rewrite <- Hmd.
      destruct (current_volume (gen p)) as [v|] eqn:Ev.
      * destruct Hcur as [?|Hcc]; [done|]. rewrite Hcc. by rewrite parser_eta.
      * by rewrite parser_eta.
  - rewrite bool_decide_eq_false_2 by done. rewrite Hscan.
    unfold parse_volume_chapter. unfold is_volume_header in Hhead.
    destruct (re_match volume_pattern line); [done|]. rewrite Hvol.
    rewrite <- Hscan. by rewrite parser_eta.
Qed.

Lemma body_line_dropped_witness :
  parse_line [u "　　正文"] 0 (u "　　正文") (mkParser (init [] []) false)
  = Ok (mkParser (init [] []) false).
Proof.
  apply (body_line_dropped [u "　　正文"] 0 (u "　　正文") (mkParser (init [] []) false)).
  - left. reflexivity.
  - left. vm_compute. reflexivity.
Defined.

(** The state after the one line [[卷名] 卷]: a volume is open, no chapter. *)
Lemma one_volume_state :
  parse_loop [u "[卷名] 卷"] 0 [u "[卷名] 卷"] (mkParser (init [] []) false)
  = Ok (mkParser
          (set_tree [mkVolume (u "卷") []] [] [0] (Some 0) None (init [] [])) false).
Proof. vm_compute. reflexivity. Qed.

(** C1, as the claim states it, fails on the delimiter line: read in the
    scanning state with a volume open, it is no volume header, it is not
    indented and not blank, and yet no chapter is started (the line
    opens a metadata block). *)
Lemma chapter_header_iff_counterexample :
  ¬ (∀ (lines : list str) (i : nat) (raw : str) (p : parser) (v : ref),
       metadata_section p = false →
       current_volume (gen p) = Some v →
       is_volume_header (rstrip_newline raw) = false →
       ∃ p', parse_line lines i raw p = Ok p' ∧
         (length (chapter_objs (gen p')) = S (length (chapter_objs (gen p))) ↔
          strip (rstrip_newline raw) ≠ []
          ∧ startswith (rstrip_newline raw) (u " ") = false
          ∧ startswith (rstrip_newline raw) (u "　") = false)).
Proof.
  intros H.
  destruct (H [u "━━━━━━━━━"] 0 (u "━━━━━━━━━")
              (mkParser (set_tree [mkVolume (u "卷") []] [] [0] (Some 0) None (init [] []))
                        false) 0)
    as (p' & Hp' & Hiff); [reflexivity | reflexivity | by vm_compute |].
  vm_compute in Hp'. injection Hp' as <-.
  destruct Hiff as [_ Hiff]. cbn [gen chapter_objs set_tree length] in Hiff.
  assert (0 = 1) by (apply Hiff; by vm_compute). done.
Qed.

(** C1, amended.  In the scanning state with a current volume [v], on a
    line that is neither the metadata delimiter nor a volume header: a
    chapter is started if and only if the line, trimmed, is not empty
    and the line does not begin with a space or a full-width space; the
    chapter started has the trimmed line as its title and no content, is
    appended to the chapters of [v] and becomes the current chapter; any
    other line is appended as it is to the content of the current
    chapter, if there is one, and is dropped otherwise. *)
Theorem chapter_header_iff (lines : list str) (i : nat) (raw : str) (p : parser)
    (v : ref) (vol : volume) :
  metadata_section p = false →
  rstrip_newline raw ≠ metadata_delimiter →
  is_volume_header (rstrip_newline raw) = false →
  current_volume (gen p) = Some v →
  volume_objs (gen p) !! v = Some vol →
  ∃ g',
    parse_line lines i raw p = Ok (mkParser g' false)
    ∧ (length (chapter_objs g') = S (length (chapter_objs (gen p))) ↔
       strip (rstrip_newline raw) ≠ []
       ∧ startswith (rstrip_newline raw) (u " ") = false
       ∧ startswith (rstrip_newline raw) (u "　") = false)
    ∧ (is_chapter_header (rstrip_newline raw) = true →
       chapter_objs g' =
         chapter_objs (gen p) ++ [mkChapter (strip (rstrip_newline raw)) []]
       ∧ volume_objs g' =
           <[v := mkVolume (v_title vol) (v_chapters vol ++ [length (chapter_objs (gen p))])]>
             (volume_objs (gen p))
       ∧ current_chapter g' = Some (length (chapter_objs (gen p))))
    ∧ (is_chapter_header (rstrip_newline raw) = false →
       volume_objs g' = volume_objs (gen p)
       ∧ current_chapter g' = current_chapter (gen p)
       ∧ match current_chapter (gen p) with
         | Some c =>
             ∀ ch, chapter_objs (gen p) !! c = Some ch →
               chapter_objs g' =
                 <[c := mkChapter (c_title ch) (c_content ch ++ [rstrip_newline raw])]>
                   (chapter_objs (gen p))
         | None => g' = gen p
         end)
    ∧ books g' = books (gen p)
    ∧ current_volume g' = Some v
    ∧ metadata g' = metadata (gen p).
Proof.
  intros Hscan Hdelim Hhead Hcv Hvol.
  set (line := rstrip_newline raw) in *. set (g := gen p) in *.
  unfold parse_line. fold line. rewrite bool_decide_eq_false_2 by done.
  rewrite Hscan. fold g. unfold parse_volume_chapter.
  unfold is_volume_header in Hhead.
  destruct (re_match volume_pattern line); [done|]. rewrite Hcv.
  destruct (is_chapter_header line) eqn:Hch.
  - eexists. split; [reflexivity|].
    cbn [set_tree chapter_objs volume_objs current_chapter current_volume books metadata].
    rewrite length_app. cbn [length].
    apply is_chapter_header_spec in Hch as (H1 & H2 & H3).
    split_and!; try done.
    + split; [done|lia].
    + intros _. split_and!; try done.
      apply list_eq. intros j.
      destruct (decide (j = v)) as [->|Hne].
      * rewrite list_lookup_alter_eq, Hvol.
        rewrite list_lookup_insert_eq by (by eapply lookup_lt_Some). done.
      * rewrite list_lookup_alter_ne, list_lookup_insert_ne by done. done.
  - assert (¬ (strip line ≠ [] ∧ startswith line (u " ") = false
               ∧ startswith line (u "　") = false)) as Hno.
    { intros (H1 & H2 & H3).
      assert (is_chapter_header line = true) by (by apply is_chapter_header_spec).
      congruence. }
    destruct (current_chapter g) as [c|] eqn:Hcc.
    + eexists. split; [reflexivity|].
      cbn [set_tree chapter_objs volume_objs current_chapter current_volume books metadata].
      split_and!; try done.
      * rewrite length_alter. split; [lia|done].
      * intros _. split_and!; try done. intros ch Hc.
        apply list_eq. intros j.
        destruct (decide (j = c)) as [->|Hne].
        -- rewrite list_lookup_alter_eq, Hc.
           rewrite list_lookup_insert_eq by (by eapply lookup_lt_Some). done.
        -- rewrite list_lookup_alter_ne, list_lookup_insert_ne by done. done.
    + exists g. split; [done|]. split_and!; try done. split; [lia|done].
Qed.

Lemma chapter_header_iff_witness :
  ∃ g',
    parse_line [u "第一章"] 0 (u "第一章")
      (mkParser (set_tree [mkVolume (u "卷") []] [] [0] (Some 0) None (init [] [])) false)
    = Ok (mkParser g' false)
    ∧ chapter_objs g' = [mkChapter (u "第一章") []]
    ∧ volume_objs g' = [mkVolume (u "卷") [0]].
Proof.
  destruct (chapter_header_iff [u "第一章"] 0 (u "第一章")
              (mkParser (set_tree [mkVolume (u "卷") []] [] [0] (Some 0) None (init [] []))
                        false) 0 (mkVolume (u "卷") []))
    as (g' & Hg' & _ & Hch & _); [reflexivity | by vm_compute | reflexivity
                                 | reflexivity | reflexivity |].
  exists g'. split; [exact Hg'|].
  destruct Hch as (H1 & H2 & _); [reflexivity|]. split; [exact H1 | exact H2].
Defined.

(** *** The loop *)

Lemma parse_loop_app (lines : list str) (i : nat) (a b : list str) (p : parser) :
  parse_loop lines i (a ++ b) p =
  parse_loop lines i a p ≫= parse_loop lines (i + length a) b.
Proof.
  revert i p. induction a as [|raw a IH]; intros i p; cbn [app parse_loop length].
  - by rewrite Nat.add_0_r.
  - destruct (parse_line lines i raw p) as [p'|e]; [|done].
    rewrite !bind_Ok, IH. by replace (S i + length a) with (i + S (length a)) by lia.
Qed.

(** The markers differ in their second or third character. *)
Lemma description_not_title (line : str) :
  startswith line description_marker = true →
  startswith line title_marker = false ∧ startswith line author_marker = false.
Proof. intros [r ->]%startswith_spec. split; reflexivity. Qed.

(** The only statement of the loop that can raise is [lines[i+1]]. *)
Lemma parse_line_raises (lines : list str) (i : nat) (raw : str) (p : parser) (e : exn) :
  parse_line lines i raw p = Raise e →
  e = IndexError ∧ metadata_section p = true ∧ lines !! (i + 1) = None
  ∧ startswith (rstrip_newline raw) description_marker = true.
Proof.
  unfold parse_line, parse_metadata, getitem.
  repeat case_match; try discriminate. intros [= <-]. done.
Qed.

Lemma parse_line_next (lines : list str) (i : nat) (raw : str) (p : parser) :
  is_Some (lines !! (i + 1)) → ∃ p', parse_line lines i raw p = Ok p'.
Proof.
  intros [x Hx]. destruct (parse_line lines i raw p) as [p'|e] eqn:E; [eauto|].
  apply parse_line_raises in E as (_ & _ & E & _). congruence.
Qed.

(** Lines that have a line after them are read without an exception. *)
Lemma parse_loop_inner (lines : list str) (i : nat) (todo : list str) (p : parser) :
  i + length todo < length lines → ∃ p', parse_loop lines i todo p = Ok p'.
Proof.
  revert i p. induction todo as [|raw todo IH]; intros i p Hlen; cbn [parse_loop].
  - eauto.
  - cbn [length] in Hlen.
    destruct (parse_line_next lines i raw p) as [p' ->].
    { apply lookup_lt_is_Some. lia. }
    rewrite bind_Ok. apply IH. lia.
Qed.

(** A description marker read inside a metadata block on the last line:
    [lines[i+1]] is out of range. *)
Lemma parse_line_description_last (lines : list str) (i : nat) (raw : str) (p : parser) :
  metadata_section p = true →
  startswith (rstrip_newline raw) description_marker = true →
  lines !! (i + 1) = None →
  parse_line lines i raw p = Raise IndexError.
Proof.
  intros Hmd Hd Hnone. unfold parse_line.
  assert (rstrip_newline raw ≠ metadata_delimiter) as Hne.
  { intros E. by rewrite E in Hd. }
  rewrite bool_decide_eq_false_2 by done. rewrite Hmd. unfold parse_metadata.
  destruct (description_not_title _ Hd) as [-> ->]. rewrite Hd.
  unfold getitem. by rewrite Hnone.
Qed.

Lemma parse_line_delimiter (lines : list str) (i : nat) (raw : str) (p : parser) :
  rstrip_newline raw = metadata_delimiter →
  parse_line lines i raw p = Ok (mkParser (gen p) true).
Proof. intros E. unfold parse_line. by rewrite bool_decide_eq_true_2. Qed.

(** C6: the evaluation at the failing input.  Whatever comes before, a
    delimiter line followed by a description marker that ends the input
    makes the parser raise [IndexError], the exception of the list index
    [lines[i+1]] itself: the access is not guarded. *)
Theorem description_marker_last_line (prefix : list str) (delimiter marker : str)
    (g : generator) :
  rstrip_newline delimiter = metadata_delimiter →
  startswith (rstrip_newline marker) description_marker = true →
  parse_lines (prefix ++ [delimiter; marker]) g = Raise IndexError.
Proof.
  intros Hdelim Hmarker. unfold parse_lines.
  set (lines := prefix ++ [delimiter; marker]).
  unfold lines at 2. rewrite parse_loop_app.
  destruct (parse_loop_inner lines 0 prefix (mkParser g false)) as [p1 ->].
  { unfold lines. rewrite length_app. cbn [length]. lia. }
  rewrite bind_Ok. cbn [parse_loop]. rewrite (parse_line_delimiter _ _ _ _ Hdelim).
  rewrite bind_Ok. rewrite parse_line_description_last; [done|done|done|].
  apply lookup_ge_None. unfold lines. rewrite length_app. cbn [length]. lia.
Qed.

Lemma description_marker_last_line_witness :
  parse_txt (u "━━━━━━━━━
「书籍简介：") (init [] []) = Raise IndexError.
Proof.
  apply (description_marker_last_line [] (u "━━━━━━━━━
") (u "「书籍简介：") (init [] [])); reflexivity.
Defined.

(** *** Inside a metadata block *)

Lemma same_tree_refl (g : generator) : same_tree g g.
Proof. by repeat split. Qed.

Lemma same_tree_set_metadata (g : generator) (m : metadata_dict) :
  same_tree g (set_metadata m g).
Proof. by repeat split. Qed.

Lemma same_tree_trans (g1 g2 g3 : generator) :
  same_tree g1 g2 → same_tree g2 g3 → same_tree g1 g3.
Proof. unfold same_tree. intros (?&?&?&?&?) (?&?&?&?&?). split_and!; congruence. Qed.

Lemma set_by_marker_step (marker raw : str) (rest : list str) (a b c : str) :
  (b = a ∨ (startswith (rstrip_newline raw) marker = true
            ∧ b = slice (rstrip_newline raw) 4 (-1))) →
  set_by_marker marker rest b c → set_by_marker marker (raw :: rest) a c.
Proof.
  intros Hab [->|(r & Hr & Hs & ->)].
  - destruct Hab as [->|[Hs ->]]; [by left|]. right. exists raw.
    split; [apply list_elem_of_here|done].
  - right. exists r. split; [by apply list_elem_of_further|done].
Qed.

(** One line read in a metadata block, other than a description marker:
    the block goes on, the book is untouched, and only the title or the
    author may change. *)
Lemma parse_line_in_metadata (lines : list str) (i : nat) (raw : str) (p : parser) :
  metadata_section p = true →
  startswith (rstrip_newline raw) description_marker = false →
  ∃ p', parse_line lines i raw p = Ok p'
        ∧ metadata_section p' = true
        ∧ same_tree (gen p) (gen p')
        ∧ md_description (metadata (gen p')) = md_description (metadata (gen p))
        ∧ (md_title (metadata (gen p')) = md_title (metadata (gen p))
           ∨ (startswith (rstrip_newline raw) title_marker = true
              ∧ md_title (metadata (gen p')) = slice (rstrip_newline raw) 4 (-1)))
        ∧ (md_author (metadata (gen p')) = md_author (metadata (gen p))
           ∨ (startswith (rstrip_newline raw) author_marker = true
              ∧ md_author (metadata (gen p')) = slice (rstrip_newline raw) 4 (-1))).
Proof.
  intros Hmd Hd. unfold parse_line.
  destruct (bool_decide (rstrip_newline raw = metadata_delimiter)).
  { eexists. split; [done|]. cbn [gen metadata_section].
    split_and!; auto using same_tree_refl. }
  rewrite Hmd. unfold parse_metadata. rewrite Hd.
  destruct (startswith (rstrip_newline raw) title_marker) eqn:Et;
    [|destruct (startswith (rstrip_newline raw) author_marker) eqn:Ea].
  - eexists. split; [done|].
    cbn [gen metadata_section metadata set_metadata set_title md_title md_author md_description].
    split_and!; auto using same_tree_set_metadata.
  - eexists. split; [done|].
    cbn [gen metadata_section metadata set_metadata set_author md_title md_author md_description].
    split_and!; auto using same_tree_set_metadata.
  - exists p. split_and!; auto using same_tree_refl.
Qed.

Lemma parse_loop_in_metadata (lines : list str) (i : nat) (todo : list str) (p : parser) :
  metadata_section p = true →
  Forall (λ raw, startswith (rstrip_newline raw) description_marker = false) todo →
  ∃ p', parse_loop lines i todo p = Ok p'
        ∧ metadata_section p' = true
        ∧ same_tree (gen p) (gen p')
        ∧ md_description (metadata (gen p')) = md_description (metadata (gen p))
        ∧ set_by_marker title_marker todo
            (md_title (metadata (gen p))) (md_title (metadata (gen p')))
        ∧ set_by_marker author_marker todo
            (md_author (metadata (gen p))) (md_author (metadata (gen p'))).
Proof.
  intros Hmd Hall. revert i p Hmd.
  induction Hall as [|raw todo Hraw Hall IH]; intros i p Hmd; cbn [parse_loop].
  - exists p. split_and!; auto using same_tree_refl; by left.
  - destruct (parse_line_in_metadata lines i raw p Hmd Hraw)
      as (p1 & -> & Hmd1 & Htree1 & Hdesc1 & Ht1 & Ha1).
    rewrite bind_Ok.
    destruct (IH (S i) p1 Hmd1) as (p2 & -> & Hmd2 & Htree2 & Hdesc2 & Ht2 & Ha2).
    exists p2. split_and!; [done|done|by eapply same_tree_trans|congruence|..].
    + by eapply set_by_marker_step.
    + by eapply set_by_marker_step.
Qed.

(** C10.  Once a delimiter line has been read, and as long as no line
    that starts with the description marker follows, the parser stays in
    the metadata block: after every further line [metadata_section] is
    still set and the book is what it was when the delimiter was reached
    -- no volume, no chapter and no content is added, whatever the lines
    look like -- the description is unchanged, and the title and the
    author are changed by the lines that carry their markers only.  In
    particular the book [parse_txt] ends with is the book of the lines
    before the delimiter. *)
Theorem metadata_block_swallows_rest (prefix : list str) (delimiter : str)
    (rest : list str) (g : generator) (k : nat) :
  rstrip_newline delimiter = metadata_delimiter →
  Forall (λ raw, startswith (rstrip_newline raw) description_marker = false) rest →
  ∃ p1 pk g',
    parse_loop (prefix ++ delimiter :: rest) 0 prefix (mkParser g false) = Ok p1
    ∧ parse_loop (prefix ++ delimiter :: rest) 0 (prefix ++ delimiter :: take k rest)
        (mkParser g false) = Ok pk
    ∧ metadata_section pk = true
    ∧ same_tree (gen p1) (gen pk)
    ∧ md_description (metadata (gen pk)) = md_description (metadata (gen p1))
    ∧ set_by_marker title_marker (take k rest)
        (md_title (metadata (gen p1))) (md_title (metadata (gen pk)))
    ∧ set_by_marker author_marker (take k rest)
        (md_author (metadata (gen p1))) (md_author (metadata (gen pk)))
    ∧ parse_lines (prefix ++ delimiter :: rest) g = Ok g'
    ∧ same_tree (gen p1) g'.
Proof.
  intros Hdelim Hrest.
  set (lines := prefix ++ delimiter :: rest).
  destruct (parse_loop_inner lines 0 prefix (mkParser g false)) as [p1 Hp1].
  { unfold lines. rewrite length_app. cbn [length]. lia. }
  assert (∀ todo,
    Forall (λ raw, startswith (rstrip_newline raw) description_marker = false) todo →
    ∃ p', parse_loop lines 0 (prefix ++ delimiter :: todo) (mkParser g false) = Ok p'
          ∧ metadata_section p' = true
          ∧ same_tree (gen p1) (gen p')
          ∧ md_description (metadata (gen p')) = md_description (metadata (gen p1))
          ∧ set_by_marker title_marker todo
              (md_title (metadata (gen p1))) (md_title (metadata (gen p')))
          ∧ set_by_marker author_marker todo
              (md_author (metadata (gen p1))) (md_author (metadata (gen p')))) as Hgo.
  { intros todo Htodo. rewrite parse_loop_app, Hp1, bind_Ok. cbn [parse_loop].
    rewrite (parse_line_delimiter _ _ _ _ Hdelim), bind_Ok.
    apply (parse_loop_in_metadata lines _ todo (mkParser (gen p1) true)); done. }
  destruct (Hgo (take k rest)) as (pk & Hpk & Hmdk & Htreek & Hdk & Htk & Hak).
  { by apply Forall_take. }
  destruct (Hgo rest Hrest) as (p' & Hp' & _ & Htree' & _).
  exists p1, pk, (gen p'). split_and!; try done.
  unfold parse_lines. fold lines. fold lines in Hp'. by rewrite Hp'.
Qed.

Lemma metadata_block_swallows_rest_witness :
  ∃ g', parse_txt (u "[卷名] 卷
一
━━━━━━━━━
「书名：甲」
[卷名] 二
二
  三
") (init [] []) = Ok g'
        ∧ books g' = [0] ∧ length (chapter_objs g') = 1.
Proof.
  destruct (metadata_block_swallows_rest
              [u "[卷名] 卷
"; u "一
"] (u "━━━━━━━━━
") [u "「书名：甲」
"; u "[卷名] 二
"; u "二
"; u "  三
"] (init [] []) 4) as (p1 & pk & g' & Hp1 & _ & _ & _ & _ & _ & _ & Hg' & Htree);
    [reflexivity | repeat constructor |].
  exists g'. split; [exact Hg'|].
  vm_compute in Hp1. injection Hp1 as <-.
  destruct Htree as (_ & Hc & Hb & _). rewrite Hb, Hc. split; reflexivity.
Defined.

(** *** The shape of the book *)

Lemma tree_inv_init (txt out : str) : tree_inv (init txt out).
Proof. split; cbn; done. Qed.

Lemma tree_inv_same_tree (g g' : generator) :
  same_tree g g' → tree_inv g → tree_inv g'.
Proof.
  intros (Hv & Hc & Hb & Hcv & Hcc) [].
  split; rewrite ?Hv, ?Hc, ?Hb, ?Hcv, ?Hcc; done.
Qed.

Lemma concat_chapters_alter_last (vs : list volume) (v c : ref) :
  S v = length vs →
  concat (v_chapters <$> alter (chapters_append c) v vs)
  = concat (v_chapters <$> vs) ++ [c].
Proof.
  intros Hv. destruct vs as [|x vs _] using rev_ind; [done|].
  rewrite length_app in Hv. cbn [length] in Hv.
  replace v with (length vs + 0) by lia.
  rewrite alter_app_r. cbn [alter list_alter].
  rewrite !fmap_app, !concat_app. cbn. by rewrite !app_nil_r, app_assoc.
Qed.

Lemma tree_inv_parse_volume_chapter (line : str) (g : generator) :
  tree_inv g → tree_inv (parse_volume_chapter line g).
Proof.
  intros Hinv. pose proof Hinv as [Hb Hc Hcv Hnv Hcc Ht]. unfold parse_volume_chapter.
  destruct (re_match volume_pattern line) as [m|].
  { split; cbn [set_tree volume_objs chapter_objs books current_volume current_chapter].
    - rewrite length_app, Hb. cbn [length]. by rewrite Nat.add_1_r, seq_S.
    - rewrite fmap_app, concat_app. cbn. by rewrite app_nil_r.
    - intros v [= <-]. rewrite length_app. cbn [length]. lia.
    - done.
    - done.
    - done. }
  destruct (current_volume g) as [v|] eqn:Ev; [|done].
  destruct (is_chapter_header line) eqn:Eh.
  { split; cbn [set_tree volume_objs chapter_objs books current_volume current_chapter].
    - by rewrite length_alter.
    - rewrite concat_chapters_alter_last by by apply Hcv.
      rewrite Hc, length_app. cbn [length]. by rewrite Nat.add_1_r, seq_S.
    - intros v' [= <-]. rewrite length_alter. by apply Hcv.
    - done.
    - intros c [= <-]. rewrite length_app. cbn [length]. lia.
    - apply Forall_app. split; [done|]. constructor; [|constructor]. cbn.
      by apply is_chapter_header_spec in Eh as (_ & _ & ?). }
  destruct (current_chapter g) as [c|] eqn:Ec; [|done].
  split; cbn [set_tree volume_objs chapter_objs books current_volume current_chapter].
  - done.
  - by rewrite length_alter.
  - intros v' [= <-]. by apply Hcv.
  - done.
  - intros c' [= <-]. rewrite length_alter. by apply Hcc.
  - apply Forall_alter; [done|]. by intros [].
Qed.

(** What one turn of the loop does, by the state it starts in. *)
Lemma parse_line_cases (lines : list str) (i : nat) (raw : str) (p p' : parser) :
  parse_line lines i raw p = Ok p' →
  (rstrip_newline raw = metadata_delimiter ∧ p' = mkParser (gen p) true)
  ∨ (rstrip_newline raw ≠ metadata_delimiter ∧ metadata_section p = true
     ∧ same_tree (gen p) (gen p')
     ∧ metadata_section p' =
         (if startswith (rstrip_newline raw) title_marker then true
          else if startswith (rstrip_newline raw) author_marker then true
          else negb (startswith (rstrip_newline raw) description_marker)))
  ∨ (rstrip_newline raw ≠ metadata_delimiter ∧ metadata_section p = false
     ∧ p' = mkParser (parse_volume_chapter (rstrip_newline raw) (gen p)) false).
Proof.
  unfold parse_line. case_bool_decide as Hd.
  { intros [= <-]. by left. }
  destruct (metadata_section p) eqn:Hmd.
  - intros H. right. left. split; [done|]. split; [done|].
    unfold parse_metadata in H.
    destruct (startswith (rstrip_newline raw) title_marker);
      [|destruct (startswith (rstrip_newline raw) author_marker);
        [|destruct (startswith (rstrip_newline raw) description_marker)]].
    + injection H as <-. split; [apply same_tree_set_metadata|done].
    + injection H as <-. split; [apply same_tree_set_metadata|done].
    + apply bind_Ok_inv in H as (next & _ & [= <-]).
      split; [apply same_tree_set_metadata|done].
    + injection H as <-. split; [apply same_tree_refl|done].
  - intros [= <-]. right. right. done.
Qed.

Lemma tree_inv_parse_loop (lines : list str) (i : nat) (todo : list str) (p p' : parser) :
  parse_loop lines i todo p = Ok p' → tree_inv (gen p) → tree_inv (gen p').
Proof.
  revert i p. induction todo as [|raw todo IH]; intros i p; cbn [parse_loop].
  - by intros [= <-].
  - intros (p1 & H1 & H2)%bind_Ok_inv Hinv. apply (IH _ _ H2).
    apply parse_line_cases in H1 as [[_ ->]|[(_ & _ & Hs & _)|(_ & _ & ->)]].
    + done.
    + by eapply tree_inv_same_tree.
    + by apply tree_inv_parse_volume_chapter.
Qed.

(** *** Counting volumes and chapters *)

Lemma count_cons (f : str → bool) (l : str) (ls : list str) :
  count f (l :: ls) = (if f l then 1 else 0) + count f ls.
Proof. unfold count. cbn [List.filter]. by destruct (f l). Qed.

Lemma parse_volume_chapter_counts (line : str) (g : generator) (ls : list str) :
  let g' := parse_volume_chapter line g in
  length (volume_objs g') + count is_volume_header ls
  = length (volume_objs g) + count is_volume_header (line :: ls)
  ∧ length (chapter_objs g')
      + count is_chapter_line (chapter_candidates (bool_decide (is_Some (current_volume g'))) ls)
    = length (chapter_objs g)
      + count is_chapter_line
          (chapter_candidates (bool_decide (is_Some (current_volume g))) (line :: ls)).
Proof.
  cbn zeta. unfold parse_volume_chapter.
  assert (is_volume_header line =
          match re_match volume_pattern line with Some _ => true | None => false end)
    as Hh by done.
  destruct (re_match volume_pattern line) as [m|] eqn:Em.
  - cbn [set_tree volume_objs chapter_objs current_volume].
    rewrite length_app. cbn [length].
    rewrite (bool_decide_eq_true_2 (is_Some (Some (length (volume_objs g))))) by eauto.
    rewrite count_cons, Hh. split; [lia|].
    assert (count is_chapter_line (line :: ls) = count is_chapter_line ls) as Hcl.
    { rewrite count_cons. unfold is_chapter_line. rewrite Hh. cbn [negb andb]. lia. }
    unfold chapter_candidates. case_bool_decide.
    + rewrite Hcl. lia.
    + cbn [from_first_volume]. rewrite Hh, Hcl. lia.
  - rewrite count_cons, Hh.
    assert (count is_chapter_line (line :: ls)
            = (if is_chapter_header line then 1 else 0) + count is_chapter_line ls) as Hcl.
    { rewrite count_cons. unfold is_chapter_line. rewrite Hh. cbn [negb andb]. done. }
    unfold chapter_candidates.
    destruct (current_volume g) as [v|] eqn:Ev.
    2:{ rewrite Ev. rewrite bool_decide_eq_false_2 by (by intros [? ?]).
        cbn [from_first_volume]. rewrite Hh. split; lia. }
    rewrite (bool_decide_eq_true_2 (is_Some (Some v))) by eauto. rewrite Hcl.
    destruct (is_chapter_header line).
    { cbn [set_tree volume_objs chapter_objs current_volume].
      rewrite length_alter, length_app. cbn [length].
      rewrite (bool_decide_eq_true_2 (is_Some (Some v))) by eauto. split; lia. }
    destruct (current_chapter g) as [c|].
    { cbn [set_tree volume_objs chapter_objs current_volume]. rewrite length_alter.
      rewrite (bool_decide_eq_true_2 (is_Some (Some v))) by eauto. split; lia. }
    rewrite Ev. rewrite (bool_decide_eq_true_2 (is_Some (Some v))) by eauto. split; lia.
Qed.

Lemma parse_loop_counts (lines : list str) (i : nat) (todo : list str) (p p' : parser) :
  parse_loop lines i todo p = Ok p' →
  length (volume_objs (gen p'))
  = length (volume_objs (gen p)) + count is_volume_header (scanned (metadata_section p) todo)
  ∧ length (chapter_objs (gen p'))
    = length (chapter_objs (gen p))
      + count is_chapter_line
          (chapter_candidates (bool_decide (is_Some (current_volume (gen p))))
             (scanned (metadata_section p) todo)).
Proof.
  revert i p. induction todo as [|raw todo IH]; intros i p; cbn [parse_loop scanned].
  - intros [= <-]. unfold count, chapter_candidates. case_bool_decide; cbn; lia.
  - intros (p1 & H1 & H2)%bind_Ok_inv. destruct (IH _ _ H2) as [IHv IHc].
    rewrite IHv, IHc. clear IH IHv IHc H2.
    apply parse_line_cases in H1 as [[Hd ->]|[(Hd & Hmd & Hs & Hmd')|(Hd & Hmd & ->)]].
    + rewrite bool_decide_eq_true_2 by done. done.
    + rewrite bool_decide_eq_false_2 by done. rewrite Hmd, Hmd'.
      destruct Hs as (-> & -> & _ & -> & _). done.
    + rewrite bool_decide_eq_false_2 by done. rewrite Hmd. cbn [gen metadata_section].
      destruct (parse_volume_chapter_counts (rstrip_newline raw) (gen p)
                  (scanned false todo)) as [Hv Hc].
      cbn zeta in Hv, Hc. split; lia.
Qed.

(** *** The book as it is traversed *)

Lemma omap_lookup_seq {A} (l : list A) : omap (λ r, l !! r) (seq 0 (length l)) = l.
Proof.
  induction l as [|x l IH] using rev_ind; [done|].
  rewrite length_app. cbn [length]. rewrite Nat.add_1_r, seq_S, omap_app. cbn.
  rewrite lookup_app_r by lia. rewrite Nat.sub_diag. cbn.
  f_equal. rewrite <- IH at 2. apply list_omap_ext, Forall_Forall2_diag, Forall_forall.
  intros r Hr%elem_of_seq. rewrite lookup_app_l; [done|lia].
Qed.

Lemma omap_concat {A B} (f : A → option B) (ls : list (list A)) :
  omap f (concat ls) = concat ((λ l : list A, omap f l) <$> ls).
Proof. induction ls as [|l ls IH]; [done|]. cbn. by rewrite omap_app, IH. Qed.

(** In a book the parser built, [books] refers to the volumes in the
    order they were made, and the chapters of the volumes, taken in book
    order, are the chapters in the order they were made. *)
Lemma tree_inv_traversal (g : generator) :
  tree_inv g →
  volumes_of g = volume_objs g
  ∧ concat (chapters_of g <$> volumes_of g) = chapter_objs g.
Proof.
  intros [Hb Hc _ _ _ _].
  assert (volumes_of g = volume_objs g) as Hv.
  { unfold volumes_of. rewrite Hb. apply omap_lookup_seq. }
  split; [done|]. rewrite Hv.
  transitivity (omap (λ r, chapter_objs g !! r) (concat (v_chapters <$> volume_objs g))).
  - rewrite omap_concat, <- list_fmap_compose. done.
  - rewrite Hc. apply omap_lookup_seq.
Qed.

Lemma elem_of_concat {A} (x : A) (ls : list (list A)) :
  x ∈ concat ls ↔ ∃ l, x ∈ l ∧ l ∈ ls.
Proof.
  induction ls as [|l0 ls IH]; cbn.
  - split; [by intros ?%elem_of_nil|]. by intros (l & _ & ?%elem_of_nil).
  - rewrite elem_of_app, IH. split.
    + intros [H|(l & H1 & H2)]; [exists l0|exists l]; split; try done.
      * apply list_elem_of_here.
      * by apply list_elem_of_further.
    + intros (l & H1 & [->|H2]%elem_of_cons); [by left|right; eauto].
Qed.

Lemma NoDup_concat_unique {A} (ls : list (list A)) (x : A) (i j : nat) (l k : list A) :
  NoDup (concat ls) → ls !! i = Some l → ls !! j = Some k → x ∈ l → x ∈ k → i = j.
Proof.
  revert i j. induction ls as [|l0 ls IH]; intros i j Hnd Hi Hj Hl Hk; [done|].
  cbn in Hnd. apply NoDup_app in Hnd as (_ & Hdis & Hnd).
  destruct i as [|i], j as [|j]; cbn in Hi, Hj.
  - done.
  - injection Hi as ->. exfalso. apply (Hdis x Hl).
    apply elem_of_concat. exists k. split; [done|]. by eapply list_elem_of_lookup_2.
  - injection Hj as ->. exfalso. apply (Hdis x Hk).
    apply elem_of_concat. exists l. split; [done|]. by eapply list_elem_of_lookup_2.
  - f_equal. by apply IH.
Qed.

(** Every chapter object is listed by exactly one volume of the book. *)
Lemma tree_inv_owner (g : generator) (c : ref) :
  tree_inv g → c < length (chapter_objs g) →
  ∃ v vol, v ∈ books g ∧ volume_objs g !! v = Some vol ∧ c ∈ v_chapters vol
           ∧ ∀ w wol, volume_objs g !! w = Some wol → c ∈ v_chapters wol → w = v.
Proof.
  intros [Hb Hc _ _ _ _] Hlt.
  assert (c ∈ concat (v_chapters <$> volume_objs g)) as Hin.
  { rewrite Hc. apply elem_of_seq. lia. }
  apply elem_of_concat in Hin as (l & Hcl & Hl).
  apply list_elem_of_lookup in Hl as [v Hv].
  rewrite list_lookup_fmap in Hv.
  destruct (volume_objs g !! v) as [vol|] eqn:Evol; [|done].
  injection Hv as <-. exists v, vol. split_and!; try done.
  - rewrite Hb. apply elem_of_seq. apply lookup_lt_Some in Evol. lia.
  - intros w wol Hw Hcw.
    apply (NoDup_concat_unique (v_chapters <$> volume_objs g) c w v
             (v_chapters wol) (v_chapters vol)); try done.
    + rewrite Hc. apply NoDup_seq.
    + by rewrite list_lookup_fmap, Hw.
    + by rewrite list_lookup_fmap, Evol.
Qed.

(** *** When the parser raises *)

Lemma parse_loop_raises (lines : list str) (i : nat) (todo : list str) (p : parser)
    (e : exn) :
  drop i lines = todo → parse_loop lines i todo p = Raise e →
  e = IndexError ∧ ends_in_description lines = true.
Proof.
  revert i p. induction todo as [|raw todo IH]; intros i p Hdrop; cbn [parse_loop]; [done|].
  destruct (parse_line lines i raw p) as [p1|e1] eqn:E1.
  - rewrite bind_Ok. apply IH.
    rewrite <- (Nat.add_1_r i), <- drop_drop, Hdrop. done.
  - rewrite bind_Raise. intros [= <-].
    apply parse_line_raises in E1 as (-> & _ & Hnone & Hd). split; [done|].
    assert (lines !! i = Some raw) as Hi.
    { rewrite <- (Nat.add_0_r i), <- lookup_drop, Hdrop. done. }
    unfold ends_in_description. rewrite last_lookup.
    apply lookup_ge_None in Hnone. apply lookup_lt_Some in Hi as Hlt.
    replace (pred (length lines)) with i by lia. by rewrite Hi.
Qed.

Lemma count_le_scanned (f : str → bool) (md : bool) (lines : list str) :
  count f (scanned md lines) ≤ count f (rstrip_newline <$> lines).
Proof.
  revert md. induction lines as [|raw lines IH]; intros md; [done|].
  cbn [scanned fmap list_fmap]. rewrite count_cons.
  case_bool_decide; [specialize (IH true); lia|].
  destruct md; [|rewrite count_cons; specialize (IH false); lia].
  match goal with |- count f (scanned ?b _) ≤ _ => specialize (IH b) end. lia.
Qed.

Lemma count_le_from_first_volume (f : str → bool) (ls : list str) :
  count f (from_first_volume ls) ≤ count f ls.
Proof.
  induction ls as [|l ls IH]; [done|]. cbn [from_first_volume].
  destruct (is_volume_header l); [done|]. rewrite count_cons. lia.
Qed.

(** C7, as the claim states it, fails: a volume header and a chapter
    header read inside a metadata block produce nothing, so the book has
    fewer volumes and chapters than the input has header lines. *)
Lemma header_counts_counterexample :
  ∃ g, parse_txt (u "━━━━━━━━━
[卷名] 卷
第一章
") (init [] []) = Ok g
       ∧ books g = [] ∧ chapter_objs g = []
       ∧ is_volume_header (u "[卷名] 卷") = true
       ∧ is_chapter_line (u "第一章") = true.
Proof. eexists. split; [by vm_compute|]. split_and!; by vm_compute. Qed.

(** C7, amended.  In every book the parser returns, taken in traversal
    order: every chapter has a non-empty title; every chapter object is
    listed by exactly one volume of the book, and no volume is in the
    book twice; the number of volumes is the number of volume-header
    lines that the scanning part of the loop read (not those inside a
    metadata block), and the number of chapters is the number of
    chapter-header lines it read after the first of these volume headers
    (not those before any volume); neither exceeds the number of header
    lines of the input.  The statement covers every input: where the
    parser returns no book it has raised [IndexError], and the last line
    of the input starts with the description marker (the defect of
    C6). *)
Theorem parsed_book_counts (lines : list str) (txt out : str) :
  match parse_lines lines (init txt out) with
  | Ok g =>
      Forall (λ ch, c_title ch ≠ []) (concat (chapters_of g <$> volumes_of g))
      ∧ NoDup (books g)
      ∧ (∀ c, c < length (chapter_objs g) →
           ∃ v vol, v ∈ books g ∧ volume_objs g !! v = Some vol ∧ c ∈ v_chapters vol
                    ∧ ∀ w wol, volume_objs g !! w = Some wol → c ∈ v_chapters wol → w = v)
      ∧ length (volumes_of g) = count is_volume_header (scanned false lines)
      ∧ length (concat (chapters_of g <$> volumes_of g))
        = count is_chapter_line (from_first_volume (scanned false lines))
      ∧ length (volumes_of g) ≤ count is_volume_header (rstrip_newline <$> lines)
      ∧ length (concat (chapters_of g <$> volumes_of g))
        ≤ count is_chapter_line (rstrip_newline <$> lines)
  | Raise e => e = IndexError ∧ ends_in_description lines = true
  end.
Proof.
  unfold parse_lines.
  destruct (parse_loop lines 0 lines (mkParser (init txt out) false)) as [p|e] eqn:E.
  - rewrite bind_Ok.
    assert (tree_inv (gen p)) as Hinv.
    { eapply tree_inv_parse_loop; [exact E|]. apply tree_inv_init. }
    destruct (tree_inv_traversal _ Hinv) as [Hv Hc].
    destruct (parse_loop_counts _ _ _ _ _ E) as [Hnv Hnc].
    cbn [gen metadata_section init volume_objs chapter_objs current_volume length] in Hnv, Hnc.
    rewrite bool_decide_eq_false_2 in Hnc by (by intros [? ?]).
    unfold chapter_candidates in Hnc. rewrite Hc, Hv.
    split_and!.
    + apply Hinv.
    + rewrite (inv_books _ Hinv). apply NoDup_seq.
    + intros c Hlt. by apply tree_inv_owner.
    + lia.
    + lia.
    + rewrite Hnv. apply count_le_scanned.
    + rewrite Hnc. etrans; [apply count_le_from_first_volume|apply count_le_scanned].
  - rewrite bind_Raise.
    by apply (parse_loop_raises lines 0 lines (mkParser (init txt out) false) e).
Qed.

(** ** [generate_chapters] *)

Lemma enumerate_lookup {A} (s : nat) (l : list A) (i : nat) :
  enumerate s l !! i = (λ x, (s + i, x)) <$> l !! i.
Proof.
  revert s i. induction l as [|x l IH]; intros s [|i]; cbn; try done.
  - by rewrite Nat.add_0_r.
  - rewrite IH. by replace (S s + i) with (s + S i) by lia.
Qed.

Lemma length_enumerate {A} (s : nat) (l : list A) : length (enumerate s l) = length l.
Proof. revert s. induction l as [|x l IH]; intros s; cbn; [done|]. by rewrite IH. Qed.

(** *** Decimal digits and the identifier *)

Lemma uint_chars_digits (d : Decimal.uint) :
  Forall (λ c, (48 ≤ c ≤ 57)%N) (uint_chars d).
Proof. induction d; cbn [uint_chars]; constructor; try done; lia. Qed.

Lemma str_of_nat_digits (n : nat) : Forall (λ c, (48 ≤ c ≤ 57)%N) (str_of_nat n).
Proof. apply uint_chars_digits. Qed.

Lemma split_char_head (sep : N) (a b : str) :
  Forall (λ c, c ≠ sep) a → ∃ ws, split_char sep (a ++ sep :: b) = a :: ws.
Proof.
  induction 1 as [|c a Hc Ha [ws IH]]; cbn [app split_char].
  - rewrite N.eqb_refl. eauto.
  - apply N.eqb_neq in Hc as ->. rewrite IH. eauto.
Qed.

Lemma chapter_name_no_dot (N M : nat) : Forall (λ c, c ≠ 46%N) (chapter_name N M).
Proof.
  unfold chapter_name. rewrite !Forall_app. split_and!.
  - repeat constructor; done.
  - eapply Forall_impl; [apply str_of_nat_digits|]. cbn. lia.
  - repeat constructor; done.
  - eapply Forall_impl; [apply str_of_nat_digits|]. cbn. lia.
Qed.

Lemma chapter_filename_name (N M : nat) :
  chapter_filename N M = chapter_name N M ++ u ".xhtml".
Proof. unfold chapter_filename, chapter_name. by rewrite <- !app_assoc. Qed.

(** [filename.split('.')[0]] is the file name without its extension. *)
Lemma chapter_id_filename (N M : nat) :
  chapter_id (chapter_filename N M) = chapter_name N M.
Proof.
  rewrite chapter_filename_name. unfold chapter_id.
  change (u ".xhtml") with (46%N :: u "xhtml").
  destruct (split_char_head 46 (chapter_name N M) (u "xhtml")) as [ws ->]; [|done].
  apply chapter_name_no_dot.
Qed.

(** *** Writing into the directory *)

Lemma lookup_update_entry (name n : str) (x : node) (es : list (str * node)) :
  lookup_entry n (update_entry name x es)
  = if bool_decide (n = name) then Some x else lookup_entry n es.
Proof.
  induction es as [|[m y] es IH]; cbn [update_entry lookup_entry].
  - repeat case_bool_decide; congruence.
  - destruct (decide (m = name)) as [->|Hm].
    + rewrite (bool_decide_eq_true_2 (name = name)) by done. cbn [lookup_entry].
      repeat case_bool_decide; congruence.
    + rewrite (bool_decide_eq_false_2 (m = name)) by done. cbn [lookup_entry].
      rewrite IH. repeat case_bool_decide; congruence.
Qed.

Lemma write_chapter_ok (name content : str) (fs : node) :
  chapters_writable fs →
  ∃ fs', write_file [u "epub"; u "OEBPS"; name] content fs = Ok fs'
         ∧ chapters_writable fs'.
Proof.
  intros (es2 & Hpath & Hfiles).
  destruct fs as [|es]; [done|]. cbn [lookup_path] in Hpath.
  destruct (lookup_entry (u "epub") es) as [x1|] eqn:E1; [|done].
  cbn [mbind option_bind] in Hpath.
  destruct x1 as [|es1]; [done|].
  destruct (lookup_entry (u "OEBPS") es1) as [x2|] eqn:E2; [|done].
  cbn [mbind option_bind] in Hpath. injection Hpath as ->.
  cbn [write_file]. rewrite E1. cbn [write_file]. rewrite E2. cbn [write_file].
  assert (∃ fs2, match lookup_entry name es2 with
                 | Some (Dir _) => Raise IsADirectoryError
                 | _ => Ok (Dir (update_entry name (File content) es2))
                 end = Ok fs2 ∧ fs2 = Dir (update_entry name (File content) es2))
    as (fs2 & -> & ->).
  { destruct (lookup_entry name es2) as [x|] eqn:E; [|eauto].
    destruct (Hfiles _ _ E) as [c ->]. eauto. }
  rewrite !bind_Ok. eexists. split; [done|].
  exists (update_entry name (File content) es2). split.
  - cbn [lookup_path]. rewrite lookup_update_entry, bool_decide_eq_true_2 by done.
    cbn. rewrite lookup_update_entry, bool_decide_eq_true_2 by done. done.
  - intros n x. rewrite lookup_update_entry. case_bool_decide; [|by apply Hfiles].
    intros [= <-]. eauto.
Qed.

(** *** The two loops *)

Lemma generate_chapter_ok (N M : nat) (ch : chapter) (g : generator) (fs : node) :
  chapters_writable fs →
  ∃ g' fs',
    generate_chapter N M ch (g, fs) = Ok (g', fs')
    ∧ chapters_writable fs'
    ∧ manifest g' = manifest g ++ [chapter_item (N, M)]
    ∧ spine g' = spine g ++ [chapter_itemref (N, M)].
Proof.
  intros Hfs. unfold generate_chapter.
  destruct (write_chapter_ok (chapter_filename N M)
              (chapter_xhtml ch (paragraph <$> c_content ch)) fs Hfs) as (fs' & Hw & Hfs').
  cbn [fst snd]. rewrite chapter_id_filename.
  change (map paragraph (c_content ch)) with (paragraph <$> c_content ch).
  rewrite Hw, bind_Ok. eexists _, fs'. split; [done|]. split; [done|].
  cbn [set_manifest_spine manifest spine].
  unfold chapter_item, chapter_itemref. cbn [fst snd].
  by rewrite chapter_filename_name.
Qed.

Lemma generate_volume_ok (N s : nat) (chs : list chapter) (g : generator) (fs : node) :
  chapters_writable fs →
  ∃ g' fs',
    foldM (λ st chap, generate_chapter N chap.1 chap.2 st) (g, fs) (enumerate s chs)
    = Ok (g', fs')
    ∧ chapters_writable fs'
    ∧ manifest g' = manifest g ++ (chapter_item <$> ((λ chap, (N, chap.1)) <$> enumerate s chs))
    ∧ spine g' = spine g ++ (chapter_itemref <$> ((λ chap, (N, chap.1)) <$> enumerate s chs)).
Proof.
  revert s g fs. induction chs as [|ch chs IH]; intros s g fs Hfs; cbn [enumerate foldM].
  - exists g, fs. cbn. by rewrite !app_nil_r.
  - cbn beta. cbn [fst snd].
    destruct (generate_chapter_ok N s ch g fs Hfs) as (g1 & fs1 & -> & Hfs1 & Hm1 & Hs1).
    rewrite bind_Ok.
    destruct (IH (S s) g1 fs1 Hfs1) as (g2 & fs2 & -> & Hfs2 & Hm2 & Hs2).
    exists g2, fs2. split; [done|]. split; [done|].
    rewrite Hm2, Hs2, Hm1, Hs1. cbn [fmap list_fmap fst snd]. by rewrite <- !app_assoc.
Qed.

Lemma generate_volumes_ok (g0 : generator) (s : nat) (vols : list volume)
    (g : generator) (fs : node) :
  chapters_writable fs →
  ∃ g' fs',
    foldM (λ st vol,
             foldM (λ st chap, generate_chapter vol.1 chap.1 chap.2 st)
                   st (enumerate 1 (chapters_of g0 vol.2)))
          (g, fs) (enumerate s vols)
    = Ok (g', fs')
    ∧ chapters_writable fs'
    ∧ manifest g' = manifest g ++ (chapter_item <$>
        flat_map (λ vol, (λ chap, (vol.1, chap.1)) <$> enumerate 1 (chapters_of g0 vol.2))
                 (enumerate s vols))
    ∧ spine g' = spine g ++ (chapter_itemref <$>
        flat_map (λ vol, (λ chap, (vol.1, chap.1)) <$> enumerate 1 (chapters_of g0 vol.2))
                 (enumerate s vols)).
Proof.
  revert s g fs. induction vols as [|vol vols IH]; intros s g fs Hfs;
    cbn [enumerate foldM flat_map].
  - exists g, fs. cbn. by rewrite !app_nil_r.
  - cbn beta. cbn [fst snd].
    destruct (generate_volume_ok s 1 (chapters_of g0 vol) g fs Hfs)
      as (g1 & fs1 & -> & Hfs1 & Hm1 & Hs1).
    rewrite bind_Ok.
    destruct (IH (S s) g1 fs1 Hfs1) as (g2 & fs2 & -> & Hfs2 & Hm2 & Hs2).
    exists g2, fs2. split; [done|]. split; [done|].
    rewrite Hm2, Hs2, Hm1, Hs1. rewrite !fmap_app. by rewrite <- !app_assoc.
Qed.

Lemma book_positions_length (g : generator) :
  length (book_positions g) = length (concat (chapters_of g <$> volumes_of g)).
Proof.
  unfold book_positions. generalize 1 at 2. generalize (volumes_of g).
  intros vols. induction vols as [|vol vols IH]; intros s; cbn [enumerate flat_map]; [done|].
  cbn [fmap list_fmap concat]. rewrite !length_app, IH.
  by rewrite length_fmap, length_enumerate.
Qed.

(** The tree [create_epub_structure] makes in an empty directory can
    take the chapter documents. *)
Lemma fresh_tree_writable :
  ∃ fs, create_epub_structure (Dir []) = Ok fs ∧ chapters_writable fs.
Proof.
  eexists. split; [by vm_compute|].
  exists []. split; [reflexivity|]. intros name x H. discriminate H.
Qed.

(** C2.  In a working tree where the chapter documents can be written,
    [generate_chapters] returns, and it appends to the manifest and to
    the spine one entry per chapter of the book, in traversal order
    (volume by volume, chapter by chapter): the manifest entry of the
    chapter at position [M] of the volume at position [N] (both counted
    from 1) has the id [vol{N}_chap{M}] and the href
    [vol{N}_chap{M}.xhtml], and its spine entry has the same id as
    idref.  Starting from the empty manifest and spine of a new
    generator, the sequence of idrefs of the spine is the sequence of
    ids of the manifest. *)
Theorem manifest_spine_order (g : generator) (fs : node) :
  chapters_writable fs →
  ∃ g' fs',
    generate_chapters g fs = Ok (g', fs')
    ∧ manifest g' = manifest g ++ (chapter_item <$> book_positions g)
    ∧ spine g' = spine g ++ (chapter_itemref <$> book_positions g)
    ∧ mi_id <$> manifest g' = (mi_id <$> manifest g) ++ chapter_ids g
    ∧ idref <$> spine g' = (idref <$> spine g) ++ chapter_ids g
    ∧ length (book_positions g) = length (concat (chapters_of g <$> volumes_of g))
    ∧ (manifest g = [] → spine g = [] → idref <$> spine g' = mi_id <$> manifest g').
Proof.
  intros Hfs. unfold generate_chapters.
  destruct (generate_volumes_ok g 1 (volumes_of g) g fs Hfs)
    as (g' & fs' & Hrun & _ & Hm & Hs).
  fold (book_positions g) in Hm, Hs.
  exists g', fs'. split; [exact Hrun|]. split; [exact Hm|]. split; [exact Hs|].
  assert (mi_id <$> (chapter_item <$> book_positions g) = chapter_ids g) as Hids1.
  { unfold chapter_ids. by rewrite <- list_fmap_compose. }
  assert (idref <$> (chapter_itemref <$> book_positions g) = chapter_ids g) as Hids2.
  { unfold chapter_ids. by rewrite <- list_fmap_compose. }
  split_and!.
  - by rewrite Hm, fmap_app, Hids1.
  - by rewrite Hs, fmap_app, Hids2.
  - apply book_positions_length.
  - intros Hm0 Hs0. rewrite Hm, Hs, Hm0, Hs0. cbn [app]. by rewrite Hids1, Hids2.
Qed.

Lemma manifest_spine_order_witness :
  ∃ g' fs',
    generate_chapters
      (set_tree [mkVolume (u "卷一") [0; 1]; mkVolume (u "卷二") [2]]
                [mkChapter (u "甲") []; mkChapter (u "乙") []; mkChapter (u "丙") []]
                [0; 1] (Some 1) (Some 2) (init [] []))
      (Dir [(u "epub", Dir [(u "OEBPS", Dir [])])])
    = Ok (g', fs')
    ∧ mi_id <$> manifest g' = [u "vol1_chap1"; u "vol1_chap2"; u "vol2_chap1"]
    ∧ idref <$> spine g' = [u "vol1_chap1"; u "vol1_chap2"; u "vol2_chap1"].
Proof.
  destruct (manifest_spine_order
              (set_tree [mkVolume (u "卷一") [0; 1]; mkVolume (u "卷二") [2]]
                 [mkChapter (u "甲") []; mkChapter (u "乙") []; mkChapter (u "丙") []]
                 [0; 1] (Some 1) (Some 2) (init [] []))
              (Dir [(u "epub", Dir [(u "OEBPS", Dir [])])]))
    as (g' & fs' & Hrun & _ & _ & Hm & Hs & _).
  - exists []. split; [reflexivity|]. intros name x H. discriminate H.
  - exists g', fs'. split; [exact Hrun|]. split; [exact Hm | exact Hs].
Defined.

(** ** [generate_toc] *)

(** The header of the navigation document has one replacement field,
    [{self.metadata['title']}].  [str.format] reads the index of a field
    as it stands, quotes included, so the key looked up in the metadata
    dictionary is the seven characters ['title'], which the dictionary
    does not have: whatever the generator holds, formatting the header
    raises [KeyError]. *)
Lemma toc_header_format (g : generator) :
  format_self toc_header g = Raise (KeyError (u "'title'")).
Proof. vm_compute. reflexivity. Qed.

Lemma generate_toc_raises (g : generator) (fs : node) :
  generate_toc g fs = Raise (KeyError (u "'title'")).
Proof. unfold generate_toc. by rewrite toc_header_format. Qed.

(** *** The counter of the loop *)

Lemma toc_chapters_counter (vol_idx : nat) (chs : list chapter) (st : str * nat) :
  (toc_chapters vol_idx chs st).2 = st.2 + length chs.
Proof.
  unfold toc_chapters. generalize 1. revert st.
  induction chs as [|ch chs IH]; intros st s; cbn [enumerate foldl length]; [lia|].
  rewrite IH. cbn [snd]. lia.
Qed.

Lemma toc_volumes_counter (g : generator) (st : str * nat) :
  (toc_volumes g st).2
  = st.2 + length (volumes_of g) + length (concat (chapters_of g <$> volumes_of g)).
Proof.
  unfold toc_volumes. generalize 1. generalize (volumes_of g). intros vols. revert st.
  induction vols as [|vol vols IH]; intros st s;
    cbn [enumerate foldl length fmap list_fmap concat]; [lia|].
  rewrite IH. cbn [fst snd]. rewrite toc_chapters_counter, length_app. cbn [snd]. lia.
Qed.

(** C3.  The navigation document is never written: whatever the book,
    [generate_toc] raises [KeyError] while it formats the header, before
    the loop that numbers the navigation points.  The loop itself counts
    as the claim says: entered with the counter at [n] it leaves it at
    [n] plus the number of volumes plus the number of chapters. *)
Theorem play_order_never_assigned (g : generator) (fs : node) :
  generate_toc g fs = Raise (KeyError (u "'title'"))
  ∧ ∀ xml n,
      (toc_volumes g (xml, n)).2
      = n + length (volumes_of g) + length (concat (chapters_of g <$> volumes_of g)).
Proof.
  split; [apply generate_toc_raises|]. intros xml n. apply toc_volumes_counter.
Qed.

(** No run of [generate] gets past [generate_toc]. *)
Lemma generate_raises (text today : str) (g : generator) (fs : node) :
  ∃ e, generate text today g fs = Raise e.
Proof.
  unfold generate.
  destruct (parse_txt text g) as [g1|e]; [|eexists; reflexivity].
  destruct (create_epub_structure fs) as [fs1|e]; [|eexists; reflexivity].
  cbn [mbind result_bind].
  destruct (generate_chapters g1 fs1) as [[g2 fs2]|e]; [|eexists; reflexivity].
  cbn [mbind result_bind fst snd]. rewrite generate_toc_raises. eexists; reflexivity.
Qed.

(** C8.  No volume gets a navigation point, with or without chapters:
    [generate] never completes, and for a book of one volume without
    chapters, made in an empty directory, it stops in [generate_toc] with
    the [KeyError] of the header; the directory then holds no
    [toc.ncx]. *)
Theorem volume_point_never_written (text today txt out : str) (g : generator)
    (fs : node) :
  (∀ r, generate text today g fs ≠ Ok r)
  ∧ generate (u "[卷名] 空卷
") today (init txt out) (Dir []) = Raise (KeyError (u "'title'"))
  ∧ ∃ g' fs',
      (parse_txt (u "[卷名] 空卷
") (init txt out) ≫= λ g1,
       create_epub_structure (Dir []) ≫= λ fs1, generate_chapters g1 fs1)
      = Ok (g', fs')
      ∧ length (volumes_of g') = 1
      ∧ concat (chapters_of g' <$> volumes_of g') = []
      ∧ lookup_path [u "epub"; u "OEBPS"; u "toc.ncx"] fs' = None
      ∧ generate_toc g' fs' = Raise (KeyError (u "'title'")).
Proof.
  split_and!.
  - intros r Hr. destruct (generate_raises text today g fs) as [e He]. congruence.
  - unfold generate.
    destruct (parse_txt _ (init txt out)) as [g1|e] eqn:Ep; [|by vm_compute in Ep].
    destruct (create_epub_structure (Dir [])) as [fs1|e] eqn:Ec; [|by vm_compute in Ec].
    cbn [mbind result_bind].
    destruct (generate_chapters g1 fs1) as [[g2 fs2]|e] eqn:Eg.
    + cbn [mbind result_bind fst snd]. by rewrite generate_toc_raises.
    + revert Eg. vm_compute in Ep, Ec. injection Ep as <-. injection Ec as <-.
      by vm_compute.
  - eexists _, _. split; [by vm_compute|]. split_and!; by vm_compute.
Qed.

(** ** [zip_epub] *)

Lemma node_induction (P : node → Prop) :
  (∀ content, P (File content)) →
  (∀ es, Forall (λ e, P e.2) es → P (Dir es)) →
  ∀ n, P n.
Proof.
  intros Hfile Hdir. fix IH 1. intros [content|es]; [apply Hfile|].
  apply Hdir. induction es as [|[name x] es IHes]; constructor; [apply IH|apply IHes].
Qed.

Lemma lookup_entry_NoDup (name : str) (x : node) (es : list (str * node)) :
  NoDup es.*1 → (name, x) ∈ es → lookup_entry name es = Some x.
Proof.
  induction es as [|[n y] es IH]; intros Hnd Hin; [by apply elem_of_nil in Hin|].
  cbn in Hnd. apply NoDup_cons in Hnd as [Hn Hnd]. cbn [lookup_entry].
  apply elem_of_cons in Hin as [[= -> ->]|Hin].
  - by rewrite bool_decide_eq_true_2.
  - rewrite bool_decide_eq_false_2; [by apply IH|].
    intros ->. apply Hn. apply list_elem_of_fmap. by exists (name, x).
Qed.

Lemma elem_of_files (file : str) (es : list (str * node)) :
  file ∈ files es ↔ ∃ content, (file, File content) ∈ es.
Proof.
  unfold files. rewrite list_elem_of_omap. split.
  - intros ([n [c|es']] & Hin & H); cbn in H; [|done]. injection H as ->. eauto.
  - intros [c Hin]. by exists (file, File c).
Qed.

Lemma lookup_path_app (a b : list str) (n : node) :
  lookup_path (a ++ b) n = lookup_path a n ≫= lookup_path b.
Proof.
  revert n. induction a as [|name a IH]; intros n; cbn [app lookup_path]; [done|].
  destruct n as [|es]; [done|].
  destruct (lookup_entry name es) as [x|]; cbn; [apply IH|done].
Qed.

(** Every file that [walk] lists is a file of the tree, found at the
    root it is listed under. *)
Lemma walk_lists_files (n : node) (top : list str) :
  well_formed n →
  Forall (λ entry, ∃ rel, entry.1.1 = top ++ rel
            ∧ ∀ file, file ∈ entry.2 →
                ∃ content, lookup_path (rel ++ [file]) n = Some (File content))
         (walk top n).
Proof.
  revert top. induction n as [content|es IH] using node_induction; intros top Hwf.
  { constructor. }
  inversion Hwf as [|? Hnd Hsub]; subst. cbn [walk]. constructor.
  - exists []. cbn [fst snd]. split; [by rewrite app_nil_r|].
    intros file [content Hin]%elem_of_files. exists content.
    cbn [app lookup_path]. by rewrite (lookup_entry_NoDup _ _ _ Hnd Hin).
  - assert (∀ es', es' ⊆ es →
      Forall (λ entry, ∃ rel, entry.1.1 = top ++ rel
                ∧ ∀ file, file ∈ entry.2 →
                    ∃ content, lookup_path (rel ++ [file]) (Dir es) = Some (File content))
        ((fix below (es0 : list (str * node)) :=
            match es0 with
            | [] => []
            | (name, x) :: es1 =>
                match x with
                | Dir _ => walk (top ++ [name]) x
                | File _ => []
                end ++ below es1
            end) es')) as Hbelow; [|by apply Hbelow].
    intros es'. induction es' as [|[name x] es' IHes']; intros Hsubset; [constructor|].
    apply Forall_app. split; [|apply IHes'; set_solver].
    destruct x as [content|es2]; [constructor|].
    assert ((name, Dir es2) ∈ es) as Hin by set_solver.
    rewrite Forall_forall in IH, Hsub.
    specialize (IH _ Hin (top ++ [name]) (Hsub _ Hin)). cbn [snd] in IH.
    eapply Forall_impl; [exact IH|]. cbn beta.
    intros entry (rel & Hroot & Hfiles). exists (name :: rel). split.
    + by rewrite Hroot, <- app_assoc.
    + intros file Hfile. destruct (Hfiles file Hfile) as [content Hc].
      exists content. cbn [app lookup_path].
      rewrite (lookup_entry_NoDup _ _ _ Hnd Hin). done.
Qed.

Lemma lookup_entry_elem_of (name : str) (x : node) (es : list (str * node)) :
  lookup_entry name es = Some x → (name, x) ∈ es.
Proof.
  induction es as [|[n y] es IH]; cbn [lookup_entry]; [done|].
  case_bool_decide as E.
  - intros [= ->]. subst. apply list_elem_of_here.
  - intros H. apply list_elem_of_further. by apply IH.
Qed.

Lemma well_formed_lookup_path (path : list str) (n x : node) :
  well_formed n → lookup_path path n = Some x → well_formed x.
Proof.
  revert n. induction path as [|name path IH]; intros n Hwf; cbn [lookup_path].
  - by intros [= <-].
  - destruct n as [|es]; [done|].
    destruct (lookup_entry name es) as [y|] eqn:E; [|done]. cbn.
    apply IH. inversion Hwf as [|? _ Hsub]; subst.
    rewrite Forall_forall in Hsub. apply (Hsub (name, y)).
    by apply lookup_entry_elem_of.
Qed.

Lemma zf_write_ok (fs : node) (path : list str) (name content : str)
    (ct : option compression) (zf : ZipFile) :
  read_file path fs = Ok content →
  zf_write fs path name ct zf
  = Ok (mkZipFile (zf_compression zf)
          (infolist zf ++ [mkZipEntry name (default (zf_compression zf) ct) content])).
Proof. intros H. unfold zf_write. by rewrite H. Qed.

(** The files of one directory, lines 205-210. *)
Lemma zip_directory (fs : node) (root : list str) (fls : list str) (zf : ZipFile) :
  (∃ rel, root = u "epub" :: rel) →
  (∀ file, file ∈ fls → ∃ content, lookup_path (root ++ [file]) fs = Some (File content)) →
  ∃ new,
    foldM (λ zf file,
             if bool_decide (file = u "mimetype") then Ok zf
             else zf_write fs (root ++ [file]) (relpath (root ++ [file]) [u "epub"]) None zf)
          zf fls
    = Ok (mkZipFile (zf_compression zf) (infolist zf ++ new))
    ∧ Forall2 (member_of fs (zf_compression zf))
        ((λ file, root ++ [file])
           <$> List.filter (λ file, negb (bool_decide (file = u "mimetype"))) fls)
        new.
Proof.
  intros [rel ->] Hfiles. revert zf.
  induction fls as [|file fls IH]; intros zf; cbn [foldM List.filter].
  - exists []. rewrite app_nil_r. split; [by destruct zf|constructor].
  - assert (∀ f, f ∈ fls →
              ∃ content, lookup_path ((u "epub" :: rel) ++ [f]) fs = Some (File content))
      as Hrest by (intros f Hf; apply Hfiles; by apply list_elem_of_further).
    specialize (IH Hrest). case_bool_decide as Hm; cbn [negb].
    + rewrite bind_Ok. apply IH.
    + destruct (Hfiles file (list_elem_of_here _ _)) as [content Hc].
      rewrite (zf_write_ok _ _ _ content) by (unfold read_file; by rewrite Hc).
      rewrite bind_Ok.
      edestruct IH as (new & -> & Hnew).
      cbn [zf_compression infolist default] in *.
      eexists (_ :: new). rewrite <- app_assoc. split; [done|].
      cbn [fmap list_fmap]. constructor; [|done].
      split_and!; cbn [arcname compress_type data].
      * exists (rel ++ [file]). split; [done|]. unfold relpath. done.
      * done.
      * unfold read_file. by rewrite Hc.
Qed.

(** The directories [os.walk] goes through, lines 204-210. *)
Lemma zip_walk (fs : node) (entries : list (list str * list str * list str))
    (zf : ZipFile) :
  Forall (λ entry,
            (∃ rel, entry.1.1 = u "epub" :: rel)
            ∧ ∀ file, file ∈ entry.2 →
                ∃ content, lookup_path (entry.1.1 ++ [file]) fs = Some (File content))
         entries →
  ∃ new,
    foldM (λ zf entry,
             foldM (λ zf file,
                      if bool_decide (file = u "mimetype") then Ok zf
                      else zf_write fs (entry.1.1 ++ [file])
                             (relpath (entry.1.1 ++ [file]) [u "epub"]) None zf)
                   zf entry.2)
          zf entries
    = Ok (mkZipFile (zf_compression zf) (infolist zf ++ new))
    ∧ Forall2 (member_of fs (zf_compression zf))
        (flat_map (λ entry,
                     (λ file, entry.1.1 ++ [file])
                       <$> List.filter (λ file, negb (bool_decide (file = u "mimetype")))
                             entry.2)
                  entries)
        new.
Proof.
  intros Hall. revert zf.
  induction Hall as [|entry entries [Hroot Hfiles] _ IH]; intros zf; cbn [foldM flat_map].
  - exists []. rewrite app_nil_r. split; [by destruct zf|constructor].
  - destruct (zip_directory fs entry.1.1 entry.2 zf Hroot Hfiles) as (new1 & -> & H1).
    rewrite bind_Ok.
    destruct (IH (mkZipFile (zf_compression zf) (infolist zf ++ new1)))
      as (new2 & -> & H2).
    cbn [zf_compression infolist] in *.
    exists (new1 ++ new2). rewrite <- app_assoc. split; [done|].
    by apply Forall2_app.
Qed.

(** C9, as the claim states it, fails: in the tree that
    [create_epub_structure] makes, the container descriptor is written
    to the archive after [mimetype], and it is stored, not compressed. *)
Lemma members_compressed_counterexample :
  ∃ fs zf e,
    create_epub_structure (Dir []) = Ok fs
    ∧ zip_epub fs = Ok zf
    ∧ e ∈ tail (infolist zf)
    ∧ arcname e = u "META-INF/container.xml"
    ∧ compress_type e = ZIP_STORED
    ∧ compress_type e ≠ ZIP_DEFLATED.
Proof.
  eexists _, _, (mkZipEntry _ _ _). split; [by vm_compute|].
  split; [by vm_compute|]. split; [cbn; apply list_elem_of_here|]. done.
Qed.

(** C9, amended.  In a tree that has the file [epub/mimetype], the
    archiver returns an archive whose first member is [mimetype], stored
    without compression; after it come the other files found under
    [epub] (all but those called [mimetype]), in the order [os.walk]
    lists them, each under its path relative to [epub] -- and each of
    them stored without compression as well: the archive is opened with
    the default method, [ZIP_STORED], and no member is given another. *)
Theorem archive_members_stored (fs : node) (mimetype : str) :
  well_formed fs →
  lookup_path [u "epub"; u "mimetype"] fs = Some (File mimetype) →
  ∃ rest,
    zip_epub fs
    = Ok (mkZipFile ZIP_STORED (mkZipEntry (u "mimetype") ZIP_STORED mimetype :: rest))
    ∧ Forall2 (member_of fs ZIP_STORED) (archive_members fs) rest
    ∧ Forall (λ e, compress_type e = ZIP_STORED) rest.
Proof.
  intros Hwf Hmime. unfold zip_epub.
  rewrite (zf_write_ok _ _ _ mimetype) by (unfold read_file; by rewrite Hmime).
  rewrite bind_Ok. cbn [ZipFile_open zf_compression infolist default app].
  destruct (lookup_path [u "epub"] fs) as [n|] eqn:En.
  2:{ change [u "epub"; u "mimetype"] with ([u "epub"] ++ [u "mimetype"]) in Hmime.
      rewrite lookup_path_app, En in Hmime. done. }
  edestruct (zip_walk fs (os_walk [u "epub"] fs)) as (new & -> & Hnew).
  { unfold os_walk. rewrite En.
    eapply Forall_impl; [apply (walk_lists_files n [u "epub"])|].
    - by eapply well_formed_lookup_path.
    - cbn beta. intros entry (rel & Hroot & Hfiles). split; [by exists rel|].
      intros file Hfile. destruct (Hfiles file Hfile) as [content Hc].
      exists content. rewrite Hroot, <- app_assoc, lookup_path_app, En. done. }
  cbn [zf_compression infolist app] in *. exists new. split; [done|].
  split; [exact Hnew|].
  clear -Hnew. induction Hnew as [|? ? ? ? (_ & ? & _)]; constructor; done.
Qed.

Lemma archive_members_stored_witness :
  ∃ rest,
    zip_epub (Dir [(u "epub", Dir [(u "mimetype", File (u "application/epub+zip"));
                                   (u "OEBPS", Dir [(u "toc.ncx", File (u "x"))])])])
    = Ok (mkZipFile ZIP_STORED
            (mkZipEntry (u "mimetype") ZIP_STORED (u "application/epub+zip") :: rest))
    ∧ Forall (λ e, compress_type e = ZIP_STORED) rest.
Proof.
  destruct (archive_members_stored
              (Dir [(u "epub", Dir [(u "mimetype", File (u "application/epub+zip"));
                                    (u "OEBPS", Dir [(u "toc.ncx", File (u "x"))])])])
              (u "application/epub+zip")) as (rest & Hzip & _ & Hstored).
  - apply wf_dir; [apply NoDup_singleton|].
    constructor; [|constructor]. apply wf_dir.
    + apply (bool_decide_unpack _). by vm_compute.
    + constructor; [apply wf_file|]. constructor; [|constructor].
      apply wf_dir; [apply NoDup_singleton|]. constructor; [apply wf_file|constructor].
  - reflexivity.
  - exists rest. split; [exact Hzip | exact Hstored].
Defined.

(** ** [process_images] *)

(** *** The matcher *)

Lemma rmatch_lits_ignorecase {R} (p s : str) g (k : str → gmap nat str → option R) :
  rmatch (lits_ignorecase p) s g k
  = if startswith_ignorecase s p then k (drop (length p) s) g else None.
Proof.
  revert s. induction p as [|c p IH]; intros s; cbn [lits_ignorecase foldr rmatch];
    [done|].
  destruct s as [|d s]; [done|]. cbn [startswith_ignorecase length drop].
  destruct (ignorecase c d); cbn [andb]; [apply IH|done].
Qed.

Lemma startswith_ignorecase_length (s p : str) :
  startswith_ignorecase s p = true → s = take (length p) s ++ drop (length p) s
  ∧ length (take (length p) s) = length p.
Proof.
  intros H. split; [by rewrite take_drop|].
  revert s H. induction p as [|c p IH]; intros s H; [done|].
  destruct s as [|d s]; [done|]. cbn in H. apply andb_prop in H as [_ H].
  cbn. f_equal. by apply IH.
Qed.

Lemma consumed_app (a b : str) : consumed (a ++ b) b = a.
Proof.
  unfold consumed. rewrite length_app.
  replace (length a + length b - length b) with (length a) by lia.
  by rewrite take_app_length.
Qed.

(** A greedy run: whatever it returns comes from the continuation, after
    a run of characters of the class. *)
Lemma star_greedy_sound {R} (p : N → bool) (s : str) (k : str → option R) (r : R) :
  star_greedy p s k = Some r →
  ∃ run rest, s = run ++ rest ∧ forallb p run = true ∧ k rest = Some r.
Proof.
  induction s as [|c s IH]; cbn [star_greedy].
  - intros H. by exists [], [].
  - destruct (p c) eqn:Hc; [|intros H; by exists [], (c :: s)].
    destruct (star_greedy p s k) as [r'|] eqn:E.
    + intros [= ->]. destruct (IH eq_refl) as (run & rest & -> & Hrun & Hk).
      exists (c :: run), rest. cbn. by rewrite Hc, Hrun.
    + intros H. by exists [], (c :: s).
Qed.

(** It returns what the continuation makes of the longest run it
    accepts. *)
Lemma star_greedy_complete {R} (p : N → bool) (run rest : str) (k : str → option R)
    (r : R) :
  forallb p run = true → k rest = Some r →
  (∀ more rest', rest = more ++ rest' → more ≠ [] → forallb p more = true →
     k rest' = None) →
  star_greedy p (run ++ rest) k = Some r.
Proof.
  intros Hrun Hk Hlonger.
  assert (∀ s, (∀ more rest', s = more ++ rest' → more ≠ [] → forallb p more = true →
                  k rest' = None) →
               star_greedy p s k = k s) as Hnone.
  { clear. intros s. induction s as [|c s IH]; intros H; cbn [star_greedy]; [done|].
    destruct (p c) eqn:Hc; [|done].
    rewrite IH.
    - rewrite (H [c] s); [done|done|done|]. cbn. by rewrite Hc.
    - intros more rest' -> Hne Hp. apply (H (c :: more) rest'); [done|done|].
      cbn. by rewrite Hc. }
  induction run as [|c run IH]; cbn [app].
  - rewrite Hnone; done.
  - cbn in Hrun. apply andb_prop in Hrun as [Hc Hrun]. cbn [star_greedy].
    by rewrite Hc, IH.
Qed.

(** A lazy run returns what the continuation makes of the shortest run
    it accepts. *)
Lemma star_lazy_sound {R} (p : N → bool) (s : str) (k : str → option R) (r : R) :
  star_lazy p s k = Some r →
  ∃ run rest, s = run ++ rest ∧ forallb p run = true ∧ k rest = Some r
              ∧ ∀ i, i < length run → k (drop i s) = None.
Proof.
  induction s as [|c s IH]; cbn [star_lazy].
  - destruct (k []) eqn:E; [|done]. intros [= ->]. exists [], [].
    split_and!; try done. cbn. lia.
  - destruct (k (c :: s)) as [r'|] eqn:E.
    + intros [= ->]. exists [], (c :: s). split_and!; try done. cbn. lia.
    + destruct (p c) eqn:Hc; [|done]. intros H.
      destruct (IH H) as (run & rest & -> & Hrun & Hk & Hnone).
      exists (c :: run), rest. split_and!; try done.
      * cbn. by rewrite Hc.
      * intros [|i] Hi; [done|]. cbn. apply Hnone. cbn in Hi. lia.
Qed.

Lemma star_lazy_complete {R} (p : N → bool) (run rest : str) (k : str → option R)
    (r : R) :
  forallb p run = true → k rest = Some r →
  (∀ i, i < length run → k (drop i (run ++ rest)) = None) →
  star_lazy p (run ++ rest) k = Some r.
Proof.
  intros Hrun Hk Hnone. induction run as [|c run IH]; cbn [app].
  - destruct rest; cbn [star_lazy]; by rewrite Hk.
  - cbn in Hrun. apply andb_prop in Hrun as [Hc Hrun]. cbn [star_lazy].
    pose proof (Hnone 0) as H0. cbn [drop app length] in H0.
    rewrite H0 by lia. rewrite Hc. apply IH; [done|].
    intros i Hi. apply (Hnone (S i)). cbn. lia.
Qed.

Lemma star_greedy_ext {R} (p : N → bool) (s : str) (k1 k2 : str → option R) :
  (∀ s', k1 s' = k2 s') → star_greedy p s k1 = star_greedy p s k2.
Proof.
  intros H. induction s as [|c s IH]; cbn [star_greedy]; [done|].
  rewrite IH, H. done.
Qed.

Lemma star_lazy_ext {R} (p : N → bool) (s : str) (k1 k2 : str → option R) :
  (∀ s', k1 s' = k2 s') → star_lazy p s k1 = star_lazy p s k2.
Proof.
  intros H. induction s as [|c s IH]; cbn [star_lazy]; rewrite H; [done|].
  by rewrite IH.
Qed.

(** *** [img_pattern], stage by stage *)

Lemma re_match_img_pattern (s : str) :
  re_match img_pattern s
  = if startswith_ignorecase s (u "[img=") then img_width ∅ (drop 5 s) else None.
Proof.
  unfold re_match, img_pattern. cbn [rmatch]. rewrite rmatch_lits_ignorecase.
  destruct (startswith_ignorecase s (u "[img=")); [|done].
  change (length (u "[img=")) with 5. unfold img_width.
  destruct (drop 5 s) as [|c s1]; [done|]. destruct (isdecimal c); [|done].
  apply star_greedy_ext. intros s2. unfold img_sep.
  apply star_greedy_ext. intros s3. unfold img_height.
  destruct s3 as [|d s3]; [done|]. destruct (isdecimal d); [|done].
  apply star_greedy_ext. intros s4. rewrite rmatch_lits_ignorecase.
  unfold img_bracket. destruct (startswith_ignorecase s4 (u "]")); [|done].
  change (length (u "]")) with 1. unfold img_text.
  apply star_lazy_ext. intros s5. rewrite rmatch_lits_ignorecase.
  unfold img_close. by destruct (startswith_ignorecase s5 (u "[/img]")).
Qed.

Lemma separator_not_decimal (c : N) : img_separator c = true → isdecimal c = false.
Proof.
  unfold img_separator. rewrite !orb_true_iff, !N.eqb_eq. by intros [[->| ->]| ->].
Qed.

Lemma decimal_not_separator (c : N) : isdecimal c = true → img_separator c = false.
Proof.
  intros H. destruct (img_separator c) eqn:E; [|done].
  apply separator_not_decimal in E. congruence.
Qed.

Lemma startswith_ignorecase_app (x p rest : str) :
  is_variant x p →
  startswith_ignorecase (x ++ rest) p = true ∧ drop (length p) (x ++ rest) = rest.
Proof.
  intros [Hlen Hx]. split.
  - clear Hlen. revert x Hx. induction p as [|c p IH]; intros x Hx; [done|].
    destruct x as [|d x]; [done|]. cbn in *.
    apply andb_prop in Hx as [-> Hx]. by apply IH.
  - by rewrite <- Hlen, drop_app_length.
Qed.

Lemma startswith_ignorecase_split (s p : str) :
  startswith_ignorecase s p = true →
  ∃ x, s = x ++ drop (length p) s ∧ is_variant x p.
Proof.
  intros H. exists (take (length p) s).
  destruct (startswith_ignorecase_length s p H) as [Hs Hlen].
  split; [done|]. split; [done|].
  clear Hs Hlen. revert s H. induction p as [|c p IH]; intros s H; [done|].
  destruct s as [|d s]; [done|]. cbn in *.
  apply andb_prop in H as [-> H]. by apply IH.
Qed.

Lemma startswith_bracket (s : str) :
  startswith_ignorecase s (u "]") = true ↔ ∃ rest, s = 93%N :: rest.
Proof.
  change (u "]") with [93%N]. split.
  - destruct s as [|d s]; [done|]. cbn [startswith_ignorecase].
    intros [H _]%andb_prop. exists s. f_equal.
    unfold ignorecase in H. cbn in H. rewrite orb_false_r in H. by apply N.eqb_eq in H.
  - intros [rest ->]. reflexivity.
Qed.

(** A tag, with the decomposition [re] picks, matches [img_pattern], and
    the groups are its width, its height and its text. *)
Lemma img_pattern_complete (opening W S H T closing rest : str) :
  is_variant opening (u "[img=") →
  W ≠ [] → forallb isdecimal W = true →
  forallb img_separator S = true →
  H ≠ [] → forallb isdecimal H = true →
  (S = [] → length H = 1) →
  forallb dot T = true →
  (∀ i, i < length T →
     startswith_ignorecase (drop i (T ++ closing ++ rest)) (u "[/img]") = false) →
  is_variant closing (u "[/img]") →
  re_match img_pattern (opening ++ W ++ S ++ H ++ [93%N] ++ T ++ closing ++ rest)
  = Some (<[3 := T]> (<[2 := H]> (<[1 := W]> ∅)), rest).
Proof.
  intros Hopen HW HWd HS HH HHd Hone HT Hfirst Hclose.
  rewrite re_match_img_pattern.
  destruct (startswith_ignorecase_app opening (u "[img=")
              (W ++ S ++ H ++ [93%N] ++ T ++ closing ++ rest) Hopen) as [-> Hdrop].
  change 5 with (length (u "[img=")). rewrite Hdrop. clear Hdrop Hopen opening.
  (* the text *)
  assert (∀ g, img_text g (T ++ closing ++ rest) = Some (<[3 := T]> g, rest)) as Htext.
  { intros g. unfold img_text. apply star_lazy_complete; [done|..].
    - rewrite consumed_app. unfold img_close.
      destruct (startswith_ignorecase_app closing (u "[/img]") rest Hclose) as [-> Hd].
      change 6 with (length (u "[/img]")). by rewrite Hd.
    - intros i Hi. unfold img_close. by rewrite Hfirst. }
  (* the height *)
  assert (∀ g, img_height g (H ++ [93%N] ++ T ++ closing ++ rest)
               = Some (<[3 := T]> (<[2 := H]> g), rest)) as Hheight.
  { intros g. destruct H as [|h H]; [done|]. cbn [forallb] in HHd.
    apply andb_prop in HHd as [Hh HHd]. cbn [app img_height]. rewrite Hh.
    apply star_greedy_complete; [done|..].
    - change (h :: H ++ 93%N :: T ++ closing ++ rest)
        with ((h :: H) ++ 93%N :: T ++ closing ++ rest).
      rewrite consumed_app. unfold img_bracket.
      rewrite (proj2 (startswith_bracket _)) by eauto. cbn [drop]. apply Htext.
    - intros more rest' Heq Hne Hmore. destruct more as [|m more]; [done|].
      cbn in Heq, Hmore. injection Heq as <- _. done. }
  (* the separators *)
  assert (∀ g, img_sep g (S ++ H ++ [93%N] ++ T ++ closing ++ rest)
               = Some (<[3 := T]> (<[2 := H]> g), rest)) as Hsep.
  { intros g. unfold img_sep. apply star_greedy_complete; [done|apply Hheight|].
    intros more rest' Heq Hne Hmore. destruct more as [|m more]; [done|].
    destruct H as [|h H]; [done|]. cbn in Heq, Hmore, HHd. injection Heq as <- _.
    apply andb_prop in HHd as [Hh _]. apply andb_prop in Hmore as [Hm _].
    apply decimal_not_separator in Hh. congruence. }
  (* the width *)
  destruct W as [|w W]; [done|]. cbn [forallb] in HWd.
  apply andb_prop in HWd as [Hw HWd]. cbn [app img_width]. rewrite Hw.
  apply star_greedy_complete; [done|..].
  - change (w :: W ++ ?x) with ((w :: W) ++ x).
    rewrite consumed_app. apply Hsep.
  - intros more rest' Heq Hne Hmore. destruct more as [|m more]; [done|].
    cbn [forallb] in Hmore. apply andb_prop in Hmore as [Hm Hmore].
    destruct S as [|s S].
    + (* no separator: the height is one digit, and what follows it is the bracket *)
      specialize (Hone eq_refl). destruct H as [|h [|? ?]]; try done.
      cbn in Heq. injection Heq as <- Heq.
      destruct more as [|m' more].
      * cbn in Heq. subst rest'. unfold img_sep. cbn [star_greedy]. done.
      * cbn in Heq, Hmore. injection Heq as <- _. done.
    + cbn in Heq, HS. injection Heq as <- _. apply andb_prop in HS as [Hs _].
      apply separator_not_decimal in Hs. congruence.
Qed.

(** Whatever [img_pattern] matches is a tag, and the groups are its
    width, its height and its text. *)
Lemma img_pattern_sound (s : str) (g : gmap nat str) (rest : str) :
  re_match img_pattern s = Some (g, rest) →
  ∃ opening W S H T closing,
    s = opening ++ W ++ S ++ H ++ [93%N] ++ T ++ closing ++ rest
    ∧ is_variant opening (u "[img=")
    ∧ W ≠ [] ∧ forallb isdecimal W = true
    ∧ forallb img_separator S = true
    ∧ H ≠ [] ∧ forallb isdecimal H = true
    ∧ forallb dot T = true
    ∧ is_variant closing (u "[/img]")
    ∧ g = <[3 := T]> (<[2 := H]> (<[1 := W]> ∅)).
Proof.
  rewrite re_match_img_pattern.
  destruct (startswith_ignorecase s (u "[img=")) eqn:Eo; [|done].
  apply startswith_ignorecase_split in Eo as (opening & Hs & Hopen).
  change (length (u "[img=")) with 5 in Hs. revert Hs.
  generalize (drop 5 s) as s1. intros s1 -> Hw.
  unfold img_width in Hw. destruct s1 as [|w s1]; [done|].
  destruct (isdecimal w) eqn:Ew; [|done].
  apply star_greedy_sound in Hw as (W & s2 & -> & HW & Hsep).
  change (w :: W ++ s2) with ((w :: W) ++ s2) in Hsep. rewrite consumed_app in Hsep.
  unfold img_sep in Hsep.
  apply star_greedy_sound in Hsep as (S & s3 & -> & HS & Hh).
  unfold img_height in Hh. destruct s3 as [|h s3]; [done|].
  destruct (isdecimal h) eqn:Eh; [|done].
  apply star_greedy_sound in Hh as (H & s4 & -> & HH & Hb).
  change (h :: H ++ s4) with ((h :: H) ++ s4) in Hb. rewrite consumed_app in Hb.
  unfold img_bracket in Hb.
  destruct (startswith_ignorecase s4 (u "]")) eqn:Eb; [|done].
  apply startswith_bracket in Eb as [s5 ->].
  change (drop 1 (93%N :: s5)) with s5 in Hb. unfold img_text in Hb.
  apply star_lazy_sound in Hb as (T & s6 & -> & HT & Hc & _).
  rewrite consumed_app in Hc. unfold img_close in Hc.
  destruct (startswith_ignorecase s6 (u "[/img]")) eqn:Ec; [|done].
  injection Hc as <- <-.
  apply startswith_ignorecase_split in Ec as (closing & Hs6 & Hclose).
  change (length (u "[/img]")) with 6 in Hs6.
  exists opening, (w :: W), S, (h :: H), T, closing.
  split_and!; try done.
  - rewrite <- Hs6. reflexivity.
  - cbn [forallb]. by rewrite Ew.
  - cbn [forallb]. by rewrite Eh.
Qed.

(** A match of [img_pattern] is never empty. *)
Lemma img_pattern_consumes (s : str) (g : gmap nat str) (rest : str) :
  re_match img_pattern s = Some (g, rest) → length rest < length s.
Proof.
  intros (opening & W & S & H & T & closing & -> & [Hlen _] & _)%img_pattern_sound.
  rewrite !length_app, Hlen. change (length (u "[img=")) with 5. lia.
Qed.

(** *** [sub] *)

Lemma sub_fuel_nil (r : regex) (tpl : list tpl_item) (n : nat) :
  sub_fuel n r tpl [] = [].
Proof.
  destruct n as [|n]; [done|]. cbn [sub_fuel].
  destruct (re_match r []) as [[g rest]|]; [|done].
  rewrite bool_decide_eq_false_2; [done|]. cbn [length]. lia.
Qed.

Lemma sub_fuel_enough (r : regex) (tpl : list tpl_item) (n m : nat) (s : str) :
  length s ≤ n → length s ≤ m → sub_fuel n r tpl s = sub_fuel m r tpl s.
Proof.
  revert m s. induction n as [|n IH]; intros m s Hn Hm.
  - destruct s; [|cbn in Hn; lia]. by rewrite !sub_fuel_nil.
  - destruct m as [|m].
    { destruct s; [|cbn in Hm; lia]. by rewrite !sub_fuel_nil. }
    cbn [sub_fuel]. destruct (re_match r s) as [[g rest]|].
    + case_bool_decide as Hlt.
      * f_equal. apply IH; lia.
      * destruct s as [|c s]; [done|]. f_equal. cbn in Hn, Hm. apply IH; lia.
    + destruct s as [|c s]; [done|]. f_equal. cbn in Hn, Hm. apply IH; lia.
Qed.

Lemma re_sub_nil (r : regex) (tpl : list tpl_item) : re_sub r tpl [] = [].
Proof. apply sub_fuel_nil. Qed.

(** Where the pattern matches, the match is replaced and the scan goes
    on behind it. *)
Lemma re_sub_match (r : regex) (tpl : list tpl_item) (s : str) (g : gmap nat str)
    (rest : str) :
  re_match r s = Some (g, rest) → length rest < length s →
  re_sub r tpl s = expand tpl (g, rest) ++ re_sub r tpl rest.
Proof.
  intros Hm Hlt. unfold re_sub. destruct s as [|c s]; [cbn in Hlt; lia|].
  cbn [length sub_fuel]. rewrite Hm. rewrite bool_decide_eq_true_2 by done.
  f_equal. cbn in Hlt. apply sub_fuel_enough; lia.
Qed.

(** Where it does not, one character is copied. *)
Lemma re_sub_copy (r : regex) (tpl : list tpl_item) (c : N) (s : str) :
  re_match r (c :: s) = None → re_sub r tpl (c :: s) = c :: re_sub r tpl s.
Proof. intros Hm. unfold re_sub. cbn [length sub_fuel]. by rewrite Hm. Qed.

Lemma expand_img_template (W H T rest : str) :
  expand img_template (<[3 := T]> (<[2 := H]> (<[1 := W]> ∅)), rest) = img_element T W H.
Proof.
  unfold expand, img_template, img_element, group. cbn [flat_map fst].
  rewrite lookup_insert_eq.
  rewrite (lookup_insert_ne _ 3 1), (lookup_insert_ne _ 2 1), lookup_insert_eq by done.
  rewrite (lookup_insert_ne _ 3 2), lookup_insert_eq by done.
  cbn [default]. unfold id. by rewrite app_nil_r.
Qed.

(** No tag starts where there is no opening bracket. *)
Lemma img_pattern_needs_bracket (c : N) (s : str) :
  c ≠ 91%N → re_match img_pattern (c :: s) = None.
Proof.
  intros Hc. rewrite re_match_img_pattern.
  change (u "[img=") with (91%N :: u "img="). cbn [startswith_ignorecase].
  replace (ignorecase 91 c) with false; [done|].
  unfold ignorecase. cbn. rewrite orb_false_r. symmetry. by apply N.eqb_neq.
Qed.

Lemma re_sub_no_bracket (s : str) :
  Forall (λ c, c ≠ 91%N) s → re_sub img_pattern img_template s = s.
Proof.
  induction 1 as [|c s Hc Hs IH]; [done|].
  rewrite re_sub_copy by by apply img_pattern_needs_bracket. by rewrite IH.
Qed.

Lemma replace_colon_map (text : str) :
  replace_char 65306 (u ":") text
  = (λ c, if (c =? 65306)%N then 58%N else c) <$> text.
Proof.
  unfold replace_char. induction text as [|c text IH]; [done|].
  cbn [flat_map fmap list_fmap]. rewrite IH. by destruct (c =? 65306)%N.
Qed.

(** *** The colons *)

Lemma ascii_colons_app (a b : str) :
  ascii_colons (a ++ b) = ascii_colons a ++ ascii_colons b.
Proof. unfold ascii_colons, replace_char. apply flat_map_app. Qed.

Lemma ascii_colons_id (s : str) :
  Forall (λ c, c ≠ 65306%N) s → ascii_colons s = s.
Proof.
  unfold ascii_colons. rewrite replace_colon_map.
  induction 1 as [|c s Hc Hs IH]; [done|]. cbn [fmap list_fmap].
  apply N.eqb_neq in Hc as ->. f_equal. apply IH.
Qed.

Lemma ascii_colons_length (s : str) : length (ascii_colons s) = length s.
Proof. unfold ascii_colons. by rewrite replace_colon_map, length_fmap. Qed.

Lemma ascii_colons_dot (s : str) :
  forallb dot s = true → forallb dot (ascii_colons s) = true.
Proof.
  unfold ascii_colons. rewrite replace_colon_map.
  induction s as [|c s IH]; [done|]. cbn [forallb fmap list_fmap].
  intros [Hc Hs]%andb_prop. rewrite IH; [|done].
  destruct (c =? 65306)%N; [done|]. by rewrite Hc.
Qed.

Lemma forallb_not_colon (p : N → bool) (s : str) :
  p 65306%N = false → forallb p s = true → Forall (λ c, c ≠ 65306%N) s.
Proof.
  intros Hp. induction s as [|c s IH]; [constructor|].
  cbn [forallb]. intros [Hc Hs]%andb_prop. constructor; [|by apply IH].
  intros ->. congruence.
Qed.

Lemma is_variant_not_colon (x p : str) :
  forallb (λ c, negb (ignorecase c 65306)) p = true →
  is_variant x p → Forall (λ c, c ≠ 65306%N) x.
Proof.
  intros Hp [Hlen Hx]. revert x Hlen Hx.
  induction p as [|c p IH]; intros [|d x] Hlen Hx; try done.
  cbn [forallb startswith_ignorecase] in Hp, Hx.
  apply andb_prop in Hp as [Hc Hp]. apply andb_prop in Hx as [Hd Hx].
  constructor.
  - intros ->. rewrite Hd in Hc. done.
  - apply IH; [done| |done]. cbn in Hlen. lia.
Qed.

(** *** The transformer *)

Lemma process_images_unfold (text : str) :
  process_images text = re_sub img_pattern img_template (ascii_colons text).
Proof. reflexivity. Qed.

(** A tag at the head of the text becomes the image element, and the
    transformer goes on behind it. *)
Lemma process_images_tag (opening W S H T closing rest : str) :
  is_variant opening (u "[img=") →
  W ≠ [] → forallb isdecimal W = true →
  forallb img_separator S = true →
  H ≠ [] → forallb isdecimal H = true →
  (S = [] → length H = 1) →
  forallb dot T = true →
  (∀ i, i < length T →
     startswith_ignorecase (drop i (ascii_colons (T ++ closing ++ rest))) (u "[/img]")
     = false) →
  is_variant closing (u "[/img]") →
  process_images (opening ++ W ++ S ++ H ++ [93%N] ++ T ++ closing ++ rest)
  = img_element (ascii_colons T) W H ++ process_images rest.
Proof.
  intros Hopen HW HWd HS HH HHd Hone HT Hfirst Hclose.
  assert (ascii_colons opening = opening) as Eopen.
  { apply ascii_colons_id, (is_variant_not_colon _ (u "[img=")); [|done].
    by vm_compute. }
  assert (ascii_colons closing = closing) as Eclose.
  { apply ascii_colons_id, (is_variant_not_colon _ (u "[/img]")); [|done].
    by vm_compute. }
  assert (ascii_colons W = W) as EW.
  { by apply ascii_colons_id, (forallb_not_colon isdecimal). }
  assert (ascii_colons H = H) as EH.
  { by apply ascii_colons_id, (forallb_not_colon isdecimal). }
  assert (ascii_colons S = S) as ES.
  { by apply ascii_colons_id, (forallb_not_colon img_separator). }
  rewrite !process_images_unfold, !ascii_colons_app, Eopen, Eclose, EW, EH, ES.
  rewrite (ascii_colons_id [93%N]) by by repeat constructor.
  rewrite !ascii_colons_app, Eclose in Hfirst.
  assert (re_match img_pattern
            (opening ++ W ++ S ++ H ++ [93%N] ++ ascii_colons T ++ closing
               ++ ascii_colons rest)
          = Some (<[3 := ascii_colons T]> (<[2 := H]> (<[1 := W]> ∅)),
                  ascii_colons rest)) as Hm.
  { apply img_pattern_complete; try done.
    - by apply ascii_colons_dot.
    - intros i Hi. apply Hfirst. by rewrite ascii_colons_length in Hi. }
  rewrite (re_sub_match _ _ _ _ _ Hm), expand_img_template; [done|].
  by apply img_pattern_consumes in Hm.
Qed.

(** Where no tag starts, the character is copied (a full-width colon as
    an ASCII one). *)
Lemma process_images_copy (c : N) (text : str) :
  re_match img_pattern (ascii_colons (c :: text)) = None →
  process_images (c :: text) = ascii_colons [c] ++ process_images text.
Proof.
  intros Hm. rewrite !process_images_unfold.
  assert (∃ d, ascii_colons [c] = [d]) as [d Hd].
  { unfold ascii_colons, replace_char. cbn [flat_map].
    destruct (c =? 65306)%N; eauto. }
  change (c :: text) with ([c] ++ text) in *.
  rewrite ascii_colons_app, Hd in Hm |- *. cbn [app] in *.
  by rewrite re_sub_copy.
Qed.

Lemma process_images_no_bracket (text : str) :
  Forall (λ c, c ≠ 91%N) text → process_images text = ascii_colons text.
Proof.
  intros Hno. rewrite process_images_unfold. apply re_sub_no_bracket.
  unfold ascii_colons. rewrite replace_colon_map. apply Forall_fmap.
  eapply Forall_impl; [exact Hno|]. intros c Hc. cbn.
  by destruct (c =? 65306)%N.
Qed.

(** The transformer is not the one with a single separator between the
    width and the height: a comma followed by a space is a separator of
    the program, and the tag is rewritten. *)
Lemma process_images_counterexample :
  ¬ (∀ text, process_images text = process_images_as_claimed text).
Proof.
  intros Heq. specialize (Heq (u "[img=100, 200]x[/img]")).
  vm_compute in Heq. discriminate.
Qed.

(** C4, as the program has it.  [process_images] first turns every
    full-width colon into an ASCII colon, also where the text has no
    tag, and then scans the text from the left.  Where the text reads
    [[img=] WIDTH SEP HEIGHT []] TEXT [[/img]], the literals in either
    case, WIDTH and HEIGHT non-empty runs of decimal digits, SEP any run
    of commas, full-width commas and spaces (of any length, possibly
    empty, in which case the height is the last digit), TEXT free of
    newlines and running to the first [[/img]], the tag becomes the image
    element with [src] TEXT, [width] WIDTH and [height] HEIGHT, and the
    scan goes on behind the tag.  Where the pattern does not match, one
    character is copied; whatever the pattern matches is such a tag.  A
    text without an opening bracket only has its colons replaced.  The
    three examples come out as stated. *)
Theorem process_images_rewrites :
  (∀ text, process_images text = re_sub img_pattern img_template (ascii_colons text))
  ∧ (∀ text,
       ascii_colons text = (λ c, if (c =? 65306)%N then 58%N else c) <$> text)
  ∧ (∀ text, Forall (λ c, c ≠ 91%N) text → process_images text = ascii_colons text)
  ∧ (∀ opening W S H T closing rest,
       is_variant opening (u "[img=") →
       W ≠ [] → forallb isdecimal W = true →
       forallb img_separator S = true →
       H ≠ [] → forallb isdecimal H = true →
       (S = [] → length H = 1) →
       forallb dot T = true →
       (∀ i, i < length T →
          startswith_ignorecase (drop i (ascii_colons (T ++ closing ++ rest)))
            (u "[/img]") = false) →
       is_variant closing (u "[/img]") →
       process_images (opening ++ W ++ S ++ H ++ [93%N] ++ T ++ closing ++ rest)
       = img_element (ascii_colons T) W H ++ process_images rest)
  ∧ (∀ c text,
       re_match img_pattern (ascii_colons (c :: text)) = None →
       process_images (c :: text) = ascii_colons [c] ++ process_images text)
  ∧ (∀ s g rest,
       re_match img_pattern s = Some (g, rest) →
       ∃ opening W S H T closing,
         s = opening ++ W ++ S ++ H ++ [93%N] ++ T ++ closing ++ rest
         ∧ is_variant opening (u "[img=")
         ∧ W ≠ [] ∧ forallb isdecimal W = true
         ∧ forallb img_separator S = true
         ∧ H ≠ [] ∧ forallb isdecimal H = true
         ∧ forallb dot T = true
         ∧ is_variant closing (u "[/img]")
         ∧ g = <[3 := T]> (<[2 := H]> (<[1 := W]> ∅)))
  ∧ process_images (u "[img=100,200]pic.png[/img]")
    = img_element (u "pic.png") (u "100") (u "200")
  ∧ process_images (u "[IMG=100 200]x[/img]") = img_element (u "x") (u "100") (u "200")
  ∧ process_images (u "没有图片") = u "没有图片".
Proof.
  split_and!.
  - apply process_images_unfold.
  - apply replace_colon_map.
  - apply process_images_no_bracket.
  - apply process_images_tag.
  - apply process_images_copy.
  - apply img_pattern_sound.
  - by vm_compute.
  - by vm_compute.
  - by vm_compute.
Qed.

Lemma process_images_rewrites_witness :
  process_images
    (u "[IMG=" ++ u "100" ++ u "， " ++ u "200" ++ [93%N] ++ u "图：片.png" ++ u "[/Img]"
       ++ u "后：")
  = img_element (u "图:片.png") (u "100") (u "200") ++ process_images (u "后：").
Proof.
  destruct process_images_rewrites as (_ & _ & _ & Htag & _).
  apply (Htag (u "[IMG=") (u "100") (u "， ") (u "200") (u "图：片.png") (u "[/Img]")
           (u "后：")); try (by vm_compute).
  intros i Hi. change (length (u "图：片.png")) with 7 in Hi.
  do 7 (destruct i as [|i]; [by vm_compute|]). lia.
Defined.

(** ** Writing a book out and reading it back *)

(** In the scanning state, and on lines none of which is the delimiter,
    the loop is a fold of the volume and chapter part of its body: the
    position in the file plays no part. *)
Lemma parse_loop_scanning (lines : list str) (i : nat) (todo : list str) (g : generator) :
  Forall (λ raw, rstrip_newline raw ≠ metadata_delimiter) todo →
  parse_loop lines i todo (mkParser g false)
  = Ok (mkParser (foldl (λ g raw, parse_volume_chapter (rstrip_newline raw) g) g todo)
          false).
Proof.
  intros Htodo. revert i g.
  induction Htodo as [|raw todo Hraw _ IH]; intros i g; [done|].
  cbn [parse_loop foldl]. unfold parse_line at 1.
  rewrite bool_decide_eq_false_2 by done. cbn [metadata_section gen].
  rewrite bind_Ok. apply IH.
Qed.

Lemma volume_refs_app (o : nat) (b b' : book) :
  volume_refs o (b ++ b') = volume_refs o b ++ volume_refs (o + chapters_total b) b'.
Proof.
  revert o. induction b as [|vol b IH]; intros o; cbn [volume_refs app].
  - unfold chapters_total. cbn. by rewrite Nat.add_0_r.
  - rewrite IH. do 3 f_equal. unfold chapters_total.
    cbn [fmap list_fmap concat]. rewrite length_app. lia.
Qed.

Lemma length_volume_refs (o : nat) (b : book) : length (volume_refs o b) = length b.
Proof. revert o. induction b as [|vol b IH]; intros o; cbn; [done|]. by rewrite IH. Qed.

Lemma chapters_total_app (b b' : book) :
  chapters_total (b ++ b') = chapters_total b + chapters_total b'.
Proof. unfold chapters_total. by rewrite fmap_app, concat_app, length_app. Qed.

Lemma chapters_total_singleton (t : str) (chs : list chapter) :
  chapters_total [(t, chs)] = length chs.
Proof. unfold chapters_total. cbn. by rewrite app_nil_r. Qed.

Lemma last_snoc_book (b : book) (vol : str * list chapter) : last (b ++ [vol]) = Some vol.
Proof. apply last_snoc. Qed.

(** A volume header opens a new volume, without chapters. *)
Lemma load_volume (b : book) (t : str) (g : generator) :
  volume_title_ok t →
  parse_volume_chapter (u "[卷名] " ++ t) (load b g) = load (b ++ [(t, [])]) g.
Proof.
  intros [Hne Hdot]. unfold parse_volume_chapter.
  rewrite volume_pattern_match by done.
  unfold load, set_tree. cbn [txt_path output_path volume_objs chapter_objs books
    current_volume current_chapter manifest spine nav_points metadata].
  rewrite last_snoc_book, length_volume_refs, volume_refs_app, !length_app.
  cbn [length volume_refs fst snd seq]. rewrite Nat.add_1_r, fmap_app, concat_app.
  cbn [fmap list_fmap concat snd app]. rewrite app_nil_r.
  rewrite seq_S, Nat.add_0_l.
  unfold group. cbn [fst]. by rewrite lookup_singleton_eq.
Qed.

Lemma is_volume_header_false (line : str) :
  is_volume_header line = false → re_match volume_pattern line = None.
Proof. unfold is_volume_header. by destruct (re_match volume_pattern line). Qed.

(** A chapter title starts a chapter of the last volume. *)
Lemma load_chapter (b : book) (t title : str) (chs : list chapter) (g : generator) :
  chapter_title_ok title →
  parse_volume_chapter title (load (b ++ [(t, chs)]) g)
  = load (b ++ [(t, chs ++ [mkChapter title []])]) g.
Proof.
  intros (Hhead & Hstrip & Hvol & _). unfold parse_volume_chapter.
  rewrite (is_volume_header_false _ Hvol), Hhead, Hstrip.
  unfold load, set_tree. cbn [txt_path output_path volume_objs chapter_objs books
    current_volume current_chapter manifest spine nav_points metadata].
  rewrite !last_snoc_book, !volume_refs_app, !length_app. cbn [length snd].
  rewrite !Nat.add_1_r. cbn [volume_refs fst snd].
  rewrite <- (length_volume_refs 0 b) at 1. rewrite alter_app_r_alt by lia.
  rewrite Nat.sub_diag. cbn [alter list_alter]. unfold chapters_append.
  cbn [v_title v_chapters].
  rewrite !fmap_app, !concat_app. cbn [fmap list_fmap concat snd].
  rewrite !app_nil_r, !length_app. cbn [length]. rewrite !Nat.add_0_l.
  rewrite seq_app. cbn [seq]. unfold chapters_total.
  rewrite !fmap_app, !concat_app, !length_app. cbn [fmap list_fmap concat snd length].
  rewrite !app_nil_r, !length_app. cbn [length].
  rewrite <- !app_assoc.
  destruct (chs ++ [mkChapter title []]) as [|? ?] eqn:E; [by destruct chs|].
  do 2 f_equal. lia.
Qed.

(** An indented or blank line goes to the content of the last chapter. *)
Lemma load_content (b : book) (t line : str) (chs : list chapter) (ch : chapter)
    (g : generator) :
  is_chapter_header line = false →
  parse_volume_chapter line (load (b ++ [(t, chs ++ [ch])]) g)
  = load (b ++ [(t, chs ++ [content_append line ch])]) g.
Proof.
  intros Hhead. unfold parse_volume_chapter.
  rewrite (volume_header_is_header_shaped _ Hhead), Hhead.
  unfold load, set_tree. cbn [txt_path output_path volume_objs chapter_objs books
    current_volume current_chapter manifest spine nav_points metadata].
  rewrite !last_snoc_book, !volume_refs_app, !length_app. cbn [length snd].
  rewrite !Nat.add_1_r. cbn [volume_refs fst snd].
  unfold chapters_total.
  rewrite !fmap_app, !concat_app. cbn [fmap list_fmap concat snd].
  rewrite !app_nil_r, !length_app. cbn [length]. rewrite !Nat.add_0_l.
  destruct (chs ++ [ch]) as [|? ?] eqn:E; [by destruct chs|]. rewrite <- E. clear E.
  destruct (chs ++ [content_append line ch]) as [|? ?] eqn:E; [by destruct chs|].
  rewrite <- E. clear E.
  rewrite !app_assoc.
  replace (length (concat b.*2) + (length chs + 1) - 1)
    with (length (concat b.*2 ++ chs) + 0) by (rewrite length_app; lia).
  rewrite alter_app_r. done.
Qed.

(** *** What [rstrip] and [strip] leave alone *)

Lemma rstrip_chars_fixed (p : N → bool) (s : str) :
  rstrip_chars p s = s ↔ ∀ c, last s = Some c → p c = false.
Proof.
  induction s as [|c s IH]; [done|]. cbn [rstrip_chars].
  destruct s as [|d s].
  - cbn. split.
    + intros H x [= <-]. by destruct (p c).
    + intros H. by rewrite (H c).
  - change (last (c :: d :: s)) with (last (d :: s)). rewrite <- IH.
    destruct (rstrip_chars p (d :: s)) as [|e r] eqn:E.
    + split; [by destruct (p c)|done].
    + split; [by intros [= -> ->]|by intros [= -> ->]].
Qed.

Lemma rstrip_chars_snoc (p : N → bool) (s : str) (c : N) :
  p c = true → rstrip_chars p (s ++ [c]) = rstrip_chars p s.
Proof.
  intros Hc. induction s as [|d s IH]; cbn [app rstrip_chars]; [by rewrite Hc|].
  by rewrite IH.
Qed.

Lemma rstrip_newline_with_newline (line : str) :
  rstrip_newline line = line → rstrip_newline (with_newline line) = line.
Proof. intros H. unfold rstrip_newline, with_newline. by rewrite rstrip_chars_snoc. Qed.

Lemma length_rstrip_chars (p : N → bool) (s : str) :
  length (rstrip_chars p s) ≤ length s.
Proof.
  induction s as [|c s IH]; cbn [rstrip_chars length]; [done|].
  destruct (rstrip_chars p s); [destruct (p c)|]; cbn [length] in *; lia.
Qed.

Lemma length_lstrip_chars (p : N → bool) (s : str) :
  length (lstrip_chars p s) ≤ length s.
Proof.
  induction s as [|c s IH]; cbn [lstrip_chars length]; [done|].
  destruct (p c); cbn [length]; lia.
Qed.

Lemma lstrip_chars_fixed (p : N → bool) (s : str) :
  length (lstrip_chars p s) = length s → lstrip_chars p s = s.
Proof.
  destruct s as [|c s]; [done|]. cbn [lstrip_chars length].
  destruct (p c); [|done]. pose proof (length_lstrip_chars p s). lia.
Qed.

(** A trimmed line does not end in a newline. *)
Lemma strip_fixed_rstrip_newline (line : str) :
  strip line = line → rstrip_newline line = line.
Proof.
  unfold strip. intros H.
  assert (lstrip_chars isspace line = line) as Hl.
  { apply lstrip_chars_fixed.
    pose proof (length_rstrip_chars isspace (lstrip_chars isspace line)).
    pose proof (length_lstrip_chars isspace line). rewrite H in *. lia. }
  rewrite Hl in H. apply rstrip_chars_fixed. intros c Hc.
  apply (proj1 (rstrip_chars_fixed _ _) H) in Hc.
  apply N.eqb_neq. intros ->. done.
Qed.

Lemma forallb_last (p : N → bool) (s : str) (c : N) :
  forallb p s = true → last s = Some c → p c = true.
Proof.
  intros Hs Hc. apply last_Some in Hc as [s' ->].
  rewrite forallb_app in Hs. apply andb_prop in Hs as [_ Hs]. cbn in Hs.
  by destruct (p c).
Qed.

Lemma volume_line_rstrip_newline (t : str) :
  volume_title_ok t → rstrip_newline (u "[卷名] " ++ t) = u "[卷名] " ++ t.
Proof.
  intros [Hne Hdot]. apply rstrip_chars_fixed. intros c Hc.
  rewrite last_app in Hc. destruct (last t) as [d|] eqn:Ed.
  - injection Hc as ->. apply (forallb_last _ _ _ Hdot) in Ed.
    unfold dot in Ed. by apply negb_true_iff in Ed.
  - by apply last_None in Ed.
Qed.

(** *** The fold over the lines of a book *)

Lemma fold_content (b : book) (t : str) (chs : list chapter) (ch : chapter)
    (ls : list str) (g : generator) :
  Forall content_line_ok ls →
  foldl (λ g raw, parse_volume_chapter (rstrip_newline raw) g)
    (load (b ++ [(t, chs ++ [ch])]) g) (with_newline <$> ls)
  = load (b ++ [(t, chs ++ [mkChapter (c_title ch) (c_content ch ++ ls)])]) g.
Proof.
  intros Hls. revert ch. induction Hls as [|l ls [Hl Hnl] _ IH]; intros ch.
  - rewrite app_nil_r. by destruct ch.
  - cbn [fmap list_fmap foldl]. rewrite rstrip_newline_with_newline by done.
    rewrite load_content by done. rewrite IH. unfold content_append.
    cbn [c_title c_content]. by rewrite <- app_assoc.
Qed.

Lemma fold_chapter (b : book) (t : str) (chs : list chapter) (ch : chapter)
    (g : generator) :
  chapter_ok ch →
  foldl (λ g raw, parse_volume_chapter (rstrip_newline raw) g)
    (load (b ++ [(t, chs)]) g) (with_newline <$> chapter_lines ch)
  = load (b ++ [(t, chs ++ [ch])]) g.
Proof.
  intros [Ht Hls]. unfold chapter_lines. cbn [fmap list_fmap foldl].
  rewrite rstrip_newline_with_newline
    by (apply strip_fixed_rstrip_newline; apply Ht).
  rewrite load_chapter by done. rewrite fold_content by done.
  cbn [c_title c_content app]. by destruct ch.
Qed.

Lemma fold_chapters (b : book) (t : str) (chs chs' : list chapter) (g : generator) :
  Forall chapter_ok chs' →
  foldl (λ g raw, parse_volume_chapter (rstrip_newline raw) g)
    (load (b ++ [(t, chs)]) g) (with_newline <$> flat_map chapter_lines chs')
  = load (b ++ [(t, chs ++ chs')]) g.
Proof.
  intros Hchs. revert chs. induction Hchs as [|ch chs' Hch _ IH]; intros chs.
  - by rewrite app_nil_r.
  - cbn [flat_map]. rewrite fmap_app, foldl_app, fold_chapter by done.
    rewrite IH. by rewrite <- app_assoc.
Qed.

Lemma fold_book (b b' : book) (g : generator) :
  book_ok b' →
  foldl (λ g raw, parse_volume_chapter (rstrip_newline raw) g)
    (load b g) (with_newline <$> book_lines b')
  = load (b ++ b') g.
Proof.
  intros Hb. revert b. induction Hb as [|[t chs] b' [Ht Hchs] _ IH]; intros b.
  - by rewrite app_nil_r.
  - unfold book_lines in *. cbn [flat_map]. rewrite fmap_app, foldl_app.
    unfold volume_lines at 1. cbn [fst snd fmap list_fmap foldl].
    rewrite rstrip_newline_with_newline by by apply volume_line_rstrip_newline.
    rewrite load_volume by done. rewrite (fold_chapters b t [] chs) by done.
    cbn [app]. rewrite IH. by rewrite <- app_assoc.
Qed.

Lemma book_lines_no_delimiter (b : book) :
  book_ok b →
  Forall (λ raw, rstrip_newline raw ≠ metadata_delimiter) (with_newline <$> book_lines b).
Proof.
  intros Hb. apply Forall_fmap. unfold book_lines. apply Forall_flat_map.
  eapply Forall_impl; [exact Hb|]. intros [t chs] [Ht Hchs]. cbn [fst snd] in *.
  unfold volume_lines. cbn [fst snd]. constructor.
  - unfold compose. cbn beta.
    rewrite rstrip_newline_with_newline by by apply volume_line_rstrip_newline.
    rewrite volume_prefix_eq. unfold metadata_delimiter. done.
  - apply Forall_flat_map. eapply Forall_impl; [exact Hchs|].
    intros ch [(Hhead & Hstrip & Hvol & Hd) Hls]. unfold chapter_lines. constructor.
    + unfold compose. cbn beta. rewrite rstrip_newline_with_newline; [done|].
      by apply strip_fixed_rstrip_newline.
    + eapply Forall_impl; [exact Hls|]. intros l [Hl Hnl]. unfold compose. cbn beta.
      rewrite rstrip_newline_with_newline by done. intros ->.
      by rewrite delimiter_is_header_shaped in Hl.
Qed.

Lemma omap_lookup_middle {A} (pre chs post : list A) :
  omap (λ r, (pre ++ chs ++ post) !! r) (seq (length pre) (length chs)) = chs.
Proof.
  revert pre. induction chs as [|ch chs IH]; intros pre; [done|].
  cbn [length seq]. change (omap ?f (?x :: ?l))
    with (match f x with Some y => y :: omap f l | None => omap f l end).
  cbn beta. rewrite lookup_app_r by lia. rewrite Nat.sub_diag.
  cbn [app lookup list_lookup]. f_equal.
  specialize (IH (pre ++ [ch])). rewrite length_app, Nat.add_1_r in IH.
  rewrite <- IH at 2. by rewrite <- !app_assoc.
Qed.

Lemma book_of_volume_refs (pre : list chapter) (b : book) (post : list chapter) :
  (λ vol, (v_title vol,
           omap (λ r, (pre ++ concat b.*2 ++ post) !! r) (v_chapters vol)))
    <$> volume_refs (length pre) b
  = b.
Proof.
  revert pre. induction b as [|[t chs] b IH]; intros pre; [done|].
  cbn [volume_refs fmap list_fmap fst snd v_title v_chapters concat].
  rewrite <- !app_assoc. rewrite omap_lookup_middle. f_equal.
  specialize (IH (pre ++ chs)). rewrite length_app, <- !app_assoc in IH. exact IH.
Qed.

(** The book of the store made for [b] is [b]. *)
Lemma book_of_load (b : book) (g : generator) : book_of (load b g) = b.
Proof.
  unfold book_of, volumes_of, chapters_of, load, set_tree.
  cbn [volume_objs chapter_objs books].
  rewrite <- (length_volume_refs 0 b), omap_lookup_seq.
  pose proof (book_of_volume_refs [] b []) as H. cbn [app length] in H.
  by rewrite app_nil_r in H.
Qed.

(** *** Reading the lines of a file *)

Lemma universal_newlines_id (s : str) :
  Forall (λ c, c ≠ 13%N) s → universal_newlines s = s.
Proof.
  induction 1 as [|c s Hc _ IH]; [done|]. cbn [universal_newlines].
  apply N.eqb_neq in Hc as ->. by rewrite IH.
Qed.

Lemma split_lines_line (cur l rest : str) :
  Forall (λ c, c ≠ 10%N) l →
  split_lines cur (l ++ 10%N :: rest) = (cur ++ l ++ [10%N]) :: split_lines [] rest.
Proof.
  intros Hl. revert cur. induction Hl as [|c l Hc _ IH]; intros cur.
  - cbn [app split_lines]. by rewrite N.eqb_refl.
  - cbn [app split_lines]. apply N.eqb_neq in Hc as ->. rewrite IH.
    by rewrite <- !app_assoc.
Qed.

Lemma readlines_with_newline (ls : list str) :
  Forall (Forall (λ c, c ≠ 10%N ∧ c ≠ 13%N)) ls →
  readlines (concat (with_newline <$> ls)) = with_newline <$> ls.
Proof.
  intros Hls. unfold readlines. rewrite universal_newlines_id.
  - induction Hls as [|l ls Hl _ IH]; [done|].
    cbn [fmap list_fmap concat]. unfold with_newline at 1.
    rewrite <- app_assoc. cbn [app]. rewrite split_lines_line.
    + by rewrite IH.
    + eapply Forall_impl; [exact Hl|]. by intros c [? ?].
  - apply Forall_concat, Forall_fmap. eapply Forall_impl; [exact Hls|].
    intros l Hl. unfold compose, with_newline. apply Forall_app. split.
    + eapply Forall_impl; [exact Hl|]. by intros c [? ?].
    + by repeat constructor.
Qed.

(** A book that is written out as a file and read by [parse_txt] is
    the book that was written: the volumes with their titles, in order,
    each with its chapters, their titles and their lines of content; the
    metadata keeps the values [__init__] gave it.  The titles of volumes
    are not empty, the titles of chapters are trimmed, not indented, and
    are neither a volume header nor the delimiter, the lines of content
    are indented or blank, and no title or line contains a line break. *)
Theorem parse_txt_round_trip (b : book) (txt out : str) :
  book_ok b →
  Forall (Forall (λ c, c ≠ 10%N ∧ c ≠ 13%N)) (book_lines b) →
  ∃ g,
    parse_txt (concat (with_newline <$> book_lines b)) (init txt out) = Ok g
    ∧ g = load b (init txt out)
    ∧ book_of g = b
    ∧ metadata g = metadata (init txt out)
    ∧ manifest g = [] ∧ spine g = [].
Proof.
  intros Hb Hlines. exists (load b (init txt out)). split_and!; try done.
  - unfold parse_txt, parse_lines. rewrite readlines_with_newline by done.
    rewrite parse_loop_scanning by by apply book_lines_no_delimiter.
    rewrite bind_Ok. cbn [gen]. f_equal.
    apply (fold_book [] b (init txt out) Hb).
  - apply book_of_load.
Qed.

Lemma parse_txt_round_trip_witness :
  ∃ g,
    parse_txt
      (concat (with_newline <$> book_lines
         [(u "第一卷", [mkChapter (u "第一章 开始") [u "　　正文一"; []; u "　　正文二"];
                        mkChapter (u "第二章") []]);
          (u "第二卷", [])]))
      (init [] [])
    = Ok g
    ∧ g = load [(u "第一卷", [mkChapter (u "第一章 开始") [u "　　正文一"; []; u "　　正文二"];
                              mkChapter (u "第二章") []]);
                (u "第二卷", [])] (init [] [])
    ∧ book_of g
      = [(u "第一卷", [mkChapter (u "第一章 开始") [u "　　正文一"; []; u "　　正文二"];
                       mkChapter (u "第二章") []]);
         (u "第二卷", [])]
    ∧ metadata g = metadata (init [] [])
    ∧ manifest g = [] ∧ spine g = [].
Proof.
  apply (parse_txt_round_trip
           [(u "第一卷", [mkChapter (u "第一章 开始") [u "　　正文一"; []; u "　　正文二"];
                          mkChapter (u "第二章") []]);
            (u "第二卷", [])] [] []).
  - repeat constructor; by vm_compute.
  - vm_compute. repeat constructor; done.
Defined.

(** ** More on the parser *)

(** *** Volume headers *)

(** On a line without a newline, the volume pattern matches exactly the
    lines that are the marker [[卷名]], one space and at least one more
    character.  The title of the volume opened is what follows the
    marker as it stands: it is not trimmed, where the title of a chapter
    is.  The marker alone, with or without its space, is no volume
    header. *)
Theorem volume_header_iff (line : str) (g : generator) :
  forallb dot line = true →
  (is_volume_header line = true ↔ ∃ t, t ≠ [] ∧ line = u "[卷名] " ++ t)
  ∧ (∀ t, t ≠ [] → line = u "[卷名] " ++ t →
       parse_volume_chapter line g
       = set_tree (volume_objs g ++ [mkVolume t []]) (chapter_objs g)
           (books g ++ [length (volume_objs g)]) (Some (length (volume_objs g))) None g).
Proof.
  intros Hdot. split.
  - split.
    + intros H. unfold is_volume_header, re_match, volume_pattern in H.
      cbn [rmatch] in H. rewrite rmatch_lits in H.
      destruct (startswith line (u "[卷名] ")) eqn:E; [|done].
      apply startswith_spec in E as [t ->]. exists t. split; [|done].
      intros ->. rewrite app_nil_r in H. by vm_compute in H.
    + intros (t & Hne & ->). unfold is_volume_header.
      rewrite volume_pattern_match; [done|done|].
      rewrite forallb_app in Hdot. by apply andb_prop in Hdot as [_ ?].
  - intros t Hne ->. unfold parse_volume_chapter.
    rewrite volume_pattern_match; [|done|].
    + unfold group. cbn [fst]. by rewrite lookup_singleton_eq.
    + rewrite forallb_app in Hdot. by apply andb_prop in Hdot as [_ ?].
Qed.

Lemma volume_header_iff_witness :
  is_volume_header (u "[卷名]  第一卷 ") = true
  ∧ parse_volume_chapter (u "[卷名]  第一卷 ") (init [] [])
    = set_tree [mkVolume (u " 第一卷 ") []] [] [0] (Some 0) None (init [] []).
Proof.
  destruct (volume_header_iff (u "[卷名]  第一卷 ") (init [] [])) as [Hiff Hparse];
    [by vm_compute|].
  split.
  - apply Hiff. exists (u " 第一卷 "). by vm_compute.
  - apply (Hparse (u " 第一卷 ")); by vm_compute.
Defined.

(** *** The metadata block *)

Lemma slice_between (marker t : str) (c : N) :
  length marker = 4 → slice (marker ++ t ++ [c]) 4 (-1) = t.
Proof.
  intros Hm. unfold slice. rewrite !length_app, Hm. cbn [length].
  replace (-1 <? 0)%Z with true by done. replace (4 <? 0)%Z with false by done.
  rewrite Z.max_r, Z.min_l by lia.
  replace (Z.to_nat 4) with (length marker) by (rewrite Hm; done).
  rewrite drop_app_length.
  replace (Z.to_nat (-1 + Z.of_nat (4 + (length t + 1)) - 4))
    with (length t) by lia.
  by rewrite take_app_length.
Qed.

Lemma slice_marker_only (marker : str) :
  length marker = 4 → slice marker 4 (-1) = [].
Proof.
  intros Hm. unfold slice. rewrite Hm.
  replace (Z.to_nat _) with 0 by done. done.
Qed.

(** Inside a metadata block, a line that starts with the title marker
    sets the title to what lies between the marker and the last
    character of the line, whatever that character is: where the closing
    bracket is missing, the last character of the title is lost, and a
    line that is the marker alone gives the empty title.  The same holds
    for the author and its marker.  The book is not touched, and the
    block goes on. *)
Theorem marker_line_sets_field (lines : list str) (i : nat) (raw t : str) (c : N)
    (p : parser) (marker : str) (set : str → metadata_dict → metadata_dict) :
  (marker, set) = (title_marker, set_title) ∨ (marker, set) = (author_marker, set_author) →
  metadata_section p = true →
  rstrip_newline raw = marker ++ t ++ [c] ∨ (rstrip_newline raw = marker ∧ t = []) →
  parse_line lines i raw p
  = Ok (mkParser (set_metadata (set t (metadata (gen p))) (gen p)) true).
Proof.
  intros Hmarker Hmd Hraw. unfold parse_line, parse_metadata. rewrite Hmd.
  destruct Hmarker as [[= -> ->]|[= -> ->]]; destruct Hraw as [->|[-> ->]].
  - rewrite bool_decide_eq_false_2 by done. rewrite startswith_app.
    by rewrite slice_between.
  - rewrite bool_decide_eq_false_2 by done.
    replace (startswith title_marker title_marker) with true by done.
    by rewrite slice_marker_only.
  - rewrite bool_decide_eq_false_2 by done.
    replace (startswith (author_marker ++ t ++ [c]) title_marker) with false by done.
    rewrite startswith_app. by rewrite slice_between.
  - rewrite bool_decide_eq_false_2 by done.
    replace (startswith author_marker title_marker) with false by done.
    replace (startswith author_marker author_marker) with true by done.
    by rewrite slice_marker_only.
Qed.

Lemma marker_line_sets_field_witness :
  parse_line [] 0 (u "「书名：三体
") (mkParser (init [] []) true)
  = Ok (mkParser (set_metadata (set_title (u "三") (metadata (init [] []))) (init [] []))
          true).
Proof.
  apply (marker_line_sets_field [] 0 (u "「书名：三体
") (u "三") 20307%N (mkParser (init [] []) true) title_marker set_title).
  - by left.
  - reflexivity.
  - left. by vm_compute.
Defined.

(** The line after a description marker is read twice: once as the
    description, trimmed, and once more as the next line of the file, by
    the volume and chapter part of the loop, which the marker has
    switched back on.  So a description that is not indented, read while
    a volume is open, is also the title of a new chapter. *)
Theorem description_line_read_twice (lines : list str) (i : nat) (marker next : str)
    (p : parser) :
  metadata_section p = true →
  startswith (rstrip_newline marker) description_marker = true →
  lines !! (i + 1) = Some next →
  rstrip_newline next ≠ metadata_delimiter →
  parse_loop lines i [marker; next] p
  = Ok (mkParser
          (parse_volume_chapter (rstrip_newline next)
             (set_metadata (set_description (strip next) (metadata (gen p))) (gen p)))
          false)
  ∧ (∀ v, current_volume (gen p) = Some v →
       is_chapter_line (rstrip_newline next) = true →
       ∃ g', parse_loop lines i [marker; next] p = Ok (mkParser g' false)
             ∧ md_description (metadata g') = strip next
             ∧ chapter_objs g'
               = chapter_objs (gen p) ++ [mkChapter (strip (rstrip_newline next)) []]).
Proof.
  intros Hmd Hd Hnext Hne.
  assert (parse_loop lines i [marker; next] p
          = Ok (mkParser
                  (parse_volume_chapter (rstrip_newline next)
                     (set_metadata (set_description (strip next) (metadata (gen p)))
                        (gen p)))
                  false)) as Hloop.
  { assert (rstrip_newline marker ≠ metadata_delimiter) as Hm.
    { intros E. by rewrite E in Hd. }
    assert (parse_line lines i marker p
            = Ok (mkParser
                    (set_metadata (set_description (strip next) (metadata (gen p)))
                       (gen p)) false)) as Hline.
    { unfold parse_line. rewrite (bool_decide_eq_false_2 _ Hm), Hmd.
      unfold parse_metadata.
      destruct (description_not_title _ Hd) as [-> ->]. rewrite Hd.
      unfold getitem. by rewrite Hnext. }
    cbn [parse_loop]. rewrite Hline, bind_Ok. unfold parse_line.
    rewrite (bool_decide_eq_false_2 _ Hne). cbn [metadata_section gen].
    by rewrite bind_Ok. }
  split; [exact Hloop|]. intros v Hv Hline. eexists. split; [exact Hloop|].
  unfold is_chapter_line in Hline. apply andb_prop in Hline as [Hvol Hhead].
  apply negb_true_iff in Hvol. unfold parse_volume_chapter.
  rewrite (is_volume_header_false _ Hvol).
  cbn [set_metadata current_volume]. rewrite Hv, Hhead. done.
Qed.

Lemma description_line_read_twice_witness :
  ∃ g', parse_loop [u "「书籍简介：
"; u "一个故事
"] 0 [u "「书籍简介：
"; u "一个故事
"] (mkParser (set_tree [mkVolume (u "卷") []] [] [0] (Some 0) None (init [] [])) true)
        = Ok (mkParser g' false)
        ∧ md_description (metadata g') = u "一个故事"
        ∧ chapter_objs g' = [mkChapter (u "一个故事") []].
Proof.
  destruct (description_line_read_twice [u "「书籍简介：
"; u "一个故事
"] 0 (u "「书籍简介：
") (u "一个故事
") (mkParser (set_tree [mkVolume (u "卷") []] [] [0] (Some 0) None (init [] [])) true))
    as [_ Hchapter]; try (by vm_compute).
  destruct (Hchapter 0) as (g' & Hloop & Hd & Hc); try (by vm_compute).
  exists g'. split; [exact Hloop|]. split; [exact Hd|exact Hc].
Defined.

(** *** The lines of the file *)

Lemma concat_split_lines (cur s : str) : concat (split_lines cur s) = cur ++ s.
Proof.
  revert cur. induction s as [|c s IH]; intros cur; cbn [split_lines].
  - destruct cur; cbn; by rewrite ?app_nil_r.
  - destruct (c =? 10)%N; cbn [concat]; rewrite IH; by rewrite <- ?app_assoc.
Qed.

Lemma universal_newlines_no_cr (s : str) : Forall (λ c, c ≠ 13%N) (universal_newlines s).
Proof.
  remember (length s) as n eqn:Hn. revert s Hn.
  induction n as [n IH] using lt_wf_ind. intros s ->.
  destruct s as [|c s]; [constructor|]. cbn [universal_newlines].
  destruct (c =? 13)%N eqn:Ec.
  - destruct s as [|d s]; [by repeat constructor|].
    destruct (d =? 10)%N; (constructor; [done|]); eapply IH; try reflexivity;
      cbn [length]; lia.
  - constructor; [by apply N.eqb_neq|]. eapply IH; try reflexivity. cbn [length]. lia.
Qed.

Lemma split_lines_shape (cur s : str) :
  Forall (λ c, c ≠ 10%N) cur →
  Forall (λ raw, raw ≠ []
                 ∧ ∃ body, Forall (λ c, c ≠ 10%N) body
                           ∧ (raw = body ∨ raw = body ++ [10%N]))
         (split_lines cur s).
Proof.
  revert cur. induction s as [|c s IH]; intros cur Hcur; cbn [split_lines].
  - destruct cur as [|x cur]; [constructor|]. repeat constructor; [done|].
    exists (x :: cur). eauto.
  - destruct (c =? 10)%N eqn:Ec.
    + apply N.eqb_eq in Ec as ->. constructor; [|by apply IH].
      split; [by destruct cur|]. exists cur. eauto.
    + apply IH. apply Forall_app. split; [done|].
      repeat constructor. by apply N.eqb_neq.
Qed.

(** Reading the file loses nothing and leaves no line break inside a
    line: the lines [readlines] returns, put together, are the text of
    the file with its line ends translated to newlines; no line is
    empty; and each is a text free of newlines and carriage returns,
    which is what [rstrip] makes of it, followed by at most one newline.
    So the lines the loop works on never contain a line break. *)
Theorem readlines_lines (text : str) :
  concat (readlines text) = universal_newlines text
  ∧ Forall (λ raw, raw ≠ []
                   ∧ Forall (λ c, c ≠ 10%N ∧ c ≠ 13%N) (rstrip_newline raw)
                   ∧ forallb dot (rstrip_newline raw) = true
                   ∧ (raw = rstrip_newline raw ∨ raw = rstrip_newline raw ++ [10%N]))
           (readlines text).
Proof.
  assert (concat (readlines text) = universal_newlines text) as Hcat.
  { unfold readlines. by rewrite concat_split_lines. }
  split; [done|].
  assert (Forall (Forall (λ c, c ≠ 13%N)) (readlines text)) as Hcr.
  { apply Forall_concat. rewrite Hcat. apply universal_newlines_no_cr. }
  pose proof (split_lines_shape [] (universal_newlines text) (Forall_nil_2 _)) as Hshape.
  fold (readlines text) in Hshape.
  apply Forall_forall. intros raw Hraw.
  apply (proj1 (Forall_forall _ _) Hcr) in Hraw as Hraw_cr.
  apply (proj1 (Forall_forall _ _) Hshape) in Hraw as (Hne & body & Hbody & Hraw').
  assert (rstrip_newline raw = body) as Hstrip.
  { assert (rstrip_newline body = body) as Hb.
    { apply rstrip_chars_fixed. intros c Hc. apply last_Some in Hc as [b' ->].
      rewrite Forall_app, Forall_singleton in Hbody. destruct Hbody as [_ Hc].
      by apply N.eqb_neq. }
    destruct Hraw' as [->| ->]; [done|]. by apply rstrip_newline_with_newline. }
  rewrite Hstrip.
  assert (Forall (λ c, c ≠ 13%N) body) as Hbody_cr.
  { destruct Hraw' as [->| ->]; [done|]. rewrite Forall_app in Hraw_cr. tauto. }
  split_and!; [done| | |done].
  - apply Forall_forall. intros c Hc. split.
    + by apply (proj1 (Forall_forall _ _) Hbody).
    + by apply (proj1 (Forall_forall _ _) Hbody_cr).
  - apply forallb_forall. intros c Hc. unfold dot. apply negb_true_iff, N.eqb_neq.
    apply (proj1 (Forall_forall _ _) Hbody). by apply list_elem_of_In.
Qed.

(** *** Line ends *)

Lemma universal_newlines_crlf (text : str) :
  Forall (λ c, c ≠ 13%N) text →
  universal_newlines (replace_char 10 [13; 10]%N text) = universal_newlines text.
Proof.
  unfold replace_char. induction 1 as [|c text Hc _ IH]; [done|].
  cbn [flat_map]. destruct (c =? 10)%N eqn:E10.
  - apply N.eqb_eq in E10 as ->. cbn [app universal_newlines].
    change (13 =? 13)%N with true. change (10 =? 10)%N with true.
    change (10 =? 13)%N with false. cbn match. by rewrite IH.
  - cbn [app universal_newlines]. apply N.eqb_neq in Hc as ->. by rewrite IH.
Qed.

Lemma universal_newlines_cr (text : str) :
  Forall (λ c, c ≠ 13%N) text →
  universal_newlines (replace_char 10 [13%N] text) = universal_newlines text.
Proof.
  unfold replace_char. induction 1 as [|c text Hc Htext IH]; [done|].
  cbn [flat_map]. destruct (c =? 10)%N eqn:E10.
  - apply N.eqb_eq in E10 as ->. cbn [app universal_newlines].
    change (13 =? 13)%N with true. change (10 =? 13)%N with false. cbn match.
    rewrite <- IH.
    destruct text as [|d text]; [done|]. cbn [flat_map].
    destruct (d =? 10)%N eqn:Ed; cbn [app]; [done|]. by rewrite Ed.
  - cbn [app universal_newlines]. apply N.eqb_neq in Hc as ->. by rewrite IH.
Qed.

(** The parser does not depend on the way the file ends its lines: a
    text whose newlines are written as carriage return and newline, or
    as carriage returns alone, is parsed as the text itself is. *)
Theorem parse_txt_line_ends (text : str) (g : generator) :
  Forall (λ c, c ≠ 13%N) text →
  parse_txt (replace_char 10 [13; 10]%N text) g = parse_txt text g
  ∧ parse_txt (replace_char 10 [13%N] text) g = parse_txt text g.
Proof.
  intros Hcr. unfold parse_txt, readlines.
  by rewrite universal_newlines_crlf, universal_newlines_cr.
Qed.

Lemma parse_txt_line_ends_witness :
  parse_txt (replace_char 10 [13; 10]%N (u "[卷名] 卷
第一章
　　正文
")) (init [] [])
  = parse_txt (u "[卷名] 卷
第一章
　　正文
") (init [] [])
  ∧ parse_txt (replace_char 10 [13%N] (u "[卷名] 卷
第一章
　　正文
")) (init [] [])
    = parse_txt (u "[卷名] 卷
第一章
　　正文
") (init [] []).
Proof.
  apply (parse_txt_line_ends (u "[卷名] 卷
第一章
　　正文
") (init [] [])).
  apply Forall_forall. intros c Hc%list_elem_of_In.
  vm_compute in Hc. intros ->. repeat (destruct Hc as [Hc|Hc]; [discriminate Hc|]). done.
Defined.

(** *** A file with a metadata block *)

Lemma lstrip_chars_snoc (p : N → bool) (s : str) (c : N) :
  p c = true →
  lstrip_chars p (s ++ [c]) = if forallb p s then [] else lstrip_chars p s ++ [c].
Proof.
  intros Hc. induction s as [|d s IH]; cbn [app lstrip_chars forallb].
  - by rewrite Hc.
  - destruct (p d); [exact IH|done].
Qed.

Lemma lstrip_chars_all (p : N → bool) (s : str) :
  forallb p s = true → lstrip_chars p s = [].
Proof.
  induction s as [|d s IH]; [done|]. cbn [forallb lstrip_chars].
  intros [-> H]%andb_prop. by apply IH.
Qed.

(** The newline at the end of a line does not survive [strip]. *)
Lemma strip_with_newline (line : str) : strip (with_newline line) = strip line.
Proof.
  unfold strip, with_newline. rewrite lstrip_chars_snoc by done.
  destruct (forallb isspace line) eqn:E.
  - by rewrite lstrip_chars_all.
  - by rewrite rstrip_chars_snoc.
Qed.

Lemma rstrip_newline_line (line : str) :
  Forall (λ c, c ≠ 10%N ∧ c ≠ 13%N) line → rstrip_newline (with_newline line) = line.
Proof.
  intros H. apply rstrip_newline_with_newline, rstrip_chars_fixed.
  intros c Hc. apply last_Some in Hc as [l' ->].
  rewrite Forall_app, Forall_singleton in H. apply N.eqb_neq. tauto.
Qed.

Lemma marker_line_no_newline (marker value : str) :
  Forall (λ c, c ≠ 10%N ∧ c ≠ 13%N) marker →
  Forall (λ c, c ≠ 10%N ∧ c ≠ 13%N) value →
  Forall (λ c, c ≠ 10%N ∧ c ≠ 13%N) (marker ++ value ++ u "」").
Proof. intros Hm Hv. rewrite !Forall_app. split_and!; try done. by repeat constructor. Qed.

Lemma parse_line_title (lines : list str) (i : nat) (value : str) (p : parser) :
  metadata_section p = true →
  Forall (λ c, c ≠ 10%N ∧ c ≠ 13%N) value →
  parse_line lines i (with_newline (title_marker ++ value ++ u "」")) p
  = Ok (mkParser (set_metadata (set_title value (metadata (gen p))) (gen p)) true).
Proof.
  intros Hmd Hv. unfold parse_line. rewrite rstrip_newline_line.
  - rewrite bool_decide_eq_false_2 by done. rewrite Hmd. unfold parse_metadata.
    change (u "」") with [12301%N]. by rewrite startswith_app, slice_between.
  - apply marker_line_no_newline; [by repeat constructor|done].
Qed.

Lemma parse_line_author (lines : list str) (i : nat) (value : str) (p : parser) :
  metadata_section p = true →
  Forall (λ c, c ≠ 10%N ∧ c ≠ 13%N) value →
  parse_line lines i (with_newline (author_marker ++ value ++ u "」")) p
  = Ok (mkParser (set_metadata (set_author value (metadata (gen p))) (gen p)) true).
Proof.
  intros Hmd Hv. unfold parse_line. rewrite rstrip_newline_line.
  - rewrite bool_decide_eq_false_2 by done. rewrite Hmd. unfold parse_metadata.
    replace (startswith (author_marker ++ value ++ u "」") title_marker) with false by done.
    change (u "」") with [12301%N]. by rewrite startswith_app, slice_between.
  - apply marker_line_no_newline; [by repeat constructor|done].
Qed.

Lemma parse_line_description (lines : list str) (i : nat) (next : str) (p : parser) :
  metadata_section p = true →
  lines !! (i + 1) = Some next →
  parse_line lines i (with_newline description_marker) p
  = Ok (mkParser (set_metadata (set_description (strip next) (metadata (gen p))) (gen p))
          false).
Proof.
  intros Hmd Hnext. unfold parse_line. rewrite rstrip_newline_line by by repeat constructor.
  rewrite bool_decide_eq_false_2 by done. rewrite Hmd. unfold parse_metadata, getitem.
  replace (startswith description_marker title_marker) with false by done.
  replace (startswith description_marker author_marker) with false by done.
  replace (startswith description_marker description_marker) with true by done.
  by rewrite Hnext.
Qed.

Lemma parse_line_before_volumes (lines : list str) (i : nat) (line : str) (g : generator) :
  Forall (λ c, c ≠ 10%N ∧ c ≠ 13%N) line →
  line ≠ metadata_delimiter → is_volume_header line = false →
  current_volume g = None →
  parse_line lines i (with_newline line) (mkParser g false) = Ok (mkParser g false).
Proof.
  intros Hl Hd Hvol Hnone. unfold parse_line. rewrite rstrip_newline_line by done.
  rewrite bool_decide_eq_false_2 by done. cbn [metadata_section gen].
  unfold parse_volume_chapter. by rewrite (is_volume_header_false _ Hvol), Hnone.
Qed.

Lemma no_break_check (s : str) :
  forallb (λ c, negb (c =? 10)%N && negb (c =? 13)%N) s = true →
  Forall (λ c, c ≠ 10%N ∧ c ≠ 13%N) s.
Proof.
  intros H. apply Forall_forall. intros c Hc%list_elem_of_In.
  apply (proj1 (forallb_forall _ _) H) in Hc.
  apply andb_prop in Hc as [H10%negb_true_iff%N.eqb_neq H13%negb_true_iff%N.eqb_neq].
  done.
Qed.

(** A file in the format the program is written for -- a metadata
    block with title, author and description, then the book -- is read
    as just that: the metadata are the three values, the description
    trimmed, and the book is the book that was written.  The line of the
    description is read once more as a line of the book, and dropped
    there, no volume being open; so it must not look like a volume
    header. *)
Theorem parse_txt_metadata_and_book (title author description : str) (b : book)
    (txt out : str) :
  Forall (λ c, c ≠ 10%N ∧ c ≠ 13%N) title →
  Forall (λ c, c ≠ 10%N ∧ c ≠ 13%N) author →
  Forall (λ c, c ≠ 10%N ∧ c ≠ 13%N) description →
  is_volume_header description = false →
  description ≠ metadata_delimiter →
  book_ok b →
  Forall (Forall (λ c, c ≠ 10%N ∧ c ≠ 13%N)) (book_lines b) →
  ∃ g,
    parse_txt
      (concat (with_newline <$> (metadata_lines title author description ++ book_lines b)))
      (init txt out)
    = Ok g
    ∧ metadata g = mkMetadata title author (strip description)
    ∧ book_of g = b.
Proof.
  intros Ht Ha Hd Hvol Hdelim Hb Hlines.
  assert (Forall (λ c, c ≠ 10%N ∧ c ≠ 13%N) title_marker) as Htm
    by (by repeat constructor).
  assert (Forall (λ c, c ≠ 10%N ∧ c ≠ 13%N) author_marker) as Ham
    by (by repeat constructor).
  set (g0 := set_metadata (mkMetadata title author (strip description)) (init txt out)).
  exists (load b g0). split; [|split; [done|apply book_of_load]].
  unfold parse_txt. rewrite readlines_with_newline.
  2:{ apply Forall_app. split; [|done]. unfold metadata_lines.
      rewrite !Forall_cons. split_and!; try done.
      - by repeat constructor.
      - by apply marker_line_no_newline.
      - by apply marker_line_no_newline.
      - by repeat constructor. }
  unfold parse_lines. rewrite fmap_app.
  set (lines := (with_newline <$> metadata_lines title author description)
                ++ (with_newline <$> book_lines b)).
  unfold lines at 2. rewrite parse_loop_app.
  assert (parse_loop lines 0 (with_newline <$> metadata_lines title author description)
            (mkParser (init txt out) false)
          = Ok (mkParser g0 false)) as ->.
  { unfold metadata_lines. cbn [fmap list_fmap parse_loop].
    rewrite parse_line_delimiter by (apply rstrip_newline_line; by repeat constructor).
    rewrite bind_Ok. cbn [gen].
    rewrite parse_line_title by done. rewrite bind_Ok. cbn [gen metadata_section].
    rewrite parse_line_author by done. rewrite bind_Ok. cbn [gen metadata_section].
    rewrite (parse_line_description _ _ (with_newline description)) by done.
    rewrite bind_Ok, strip_with_newline. cbn [gen metadata_section].
    rewrite parse_line_before_volumes by done. done. }
  rewrite bind_Ok, parse_loop_scanning by by apply book_lines_no_delimiter.
  rewrite bind_Ok. cbn [gen]. f_equal. apply (fold_book [] b g0 Hb).
Qed.

Lemma parse_txt_metadata_and_book_witness :
  ∃ g,
    parse_txt
      (concat (with_newline <$>
         (metadata_lines (u "三体") (u "刘慈欣") (u "　　一个故事。")
          ++ book_lines [(u "第一卷", [mkChapter (u "第一章") [u "　　正文"]])])))
      (init [] [])
    = Ok g
    ∧ metadata g = mkMetadata (u "三体") (u "刘慈欣") (strip (u "　　一个故事。"))
    ∧ book_of g = [(u "第一卷", [mkChapter (u "第一章") [u "　　正文"]])].
Proof.
  apply (parse_txt_metadata_and_book (u "三体") (u "刘慈欣") (u "　　一个故事。")
           [(u "第一卷", [mkChapter (u "第一章") [u "　　正文"]])] [] []).
  - apply no_break_check. by vm_compute.
  - apply no_break_check. by vm_compute.
  - apply no_break_check. by vm_compute.
  - by vm_compute.
  - by vm_compute.
  - repeat constructor; by vm_compute.
  - apply Forall_forall. intros l Hl%list_elem_of_In. vm_compute in Hl.
    repeat (destruct Hl as [<-|Hl]; [apply no_break_check; by vm_compute|]). done.
Defined.

(** ** The working directory *)

(** *** What a write leaves behind *)

Lemma lookup_path_file (path : list str) (content : str) :
  path ≠ [] → lookup_path path (File content) = None.
Proof. by destruct path. Qed.

Lemma lookup_path_empty_dir (path : list str) :
  path ≠ [] → lookup_path path (Dir []) = None.
Proof. by destruct path. Qed.

Lemma lookup_path_cons (name : str) (rest : list str) (es : list (str * node)) :
  lookup_path (name :: rest) (Dir es) = lookup_entry name es ≫= lookup_path rest.
Proof. reflexivity. Qed.

Lemma prefix_cons_inv_not (name : str) (p q : list str) :
  ¬ (name :: p) `prefix_of` (name :: q) → ¬ p `prefix_of` q.
Proof. intros H Hp. apply H. by apply prefix_cons. Qed.

(** The file written is there afterwards. *)
Lemma lookup_path_write_file (path : list str) (content : str) (fs fs' : node) :
  write_file path content fs = Ok fs' → lookup_path path fs' = Some (File content).
Proof.
  revert fs fs'. induction path as [|name rest IH]; intros [c|es] fs' Hw; try done.
  cbn [write_file] in Hw. destruct rest as [|r rest].
  - assert (fs' = Dir (update_entry name (File content) es)) as ->.
    { destruct (lookup_entry name es) as [[|]|]; congruence. }
    rewrite lookup_path_cons, lookup_update_entry, bool_decide_eq_true_2 by done.
    done.
  - destruct (lookup_entry name es) as [x|]; [|done].
    apply bind_Ok_inv in Hw as (x' & Hx' & [= <-]).
    rewrite lookup_path_cons, lookup_update_entry, bool_decide_eq_true_2 by done.
    cbn [mbind option_bind]. by eapply IH.
Qed.

(** Nothing else is touched: whatever is not on the way to the file is
    found as before. *)
Lemma lookup_path_write_file_other (path path' : list str) (content : str)
    (fs fs' : node) :
  write_file path content fs = Ok fs' →
  ¬ path' `prefix_of` path →
  lookup_path path' fs' = lookup_path path' fs.
Proof.
  revert fs fs' path'.
  induction path as [|name rest IH]; intros [c|es] fs' path' Hw Hpre; try done.
  destruct path' as [|name' rest']; [destruct Hpre; apply prefix_nil|].
  cbn [write_file] in Hw. rewrite !lookup_path_cons.
  destruct (decide (name' = name)) as [->|Hne].
  2:{ assert (∃ x', fs' = Dir (update_entry name x' es)) as [x' ->].
      { destruct rest as [|r rest].
        - destruct (lookup_entry name es) as [[|]|]; try done;
            injection Hw as <-; eauto.
        - destruct (lookup_entry name es) as [x|]; [|done].
          apply bind_Ok_inv in Hw as (x' & _ & [= <-]). eauto. }
      rewrite lookup_path_cons, lookup_update_entry.
      by rewrite bool_decide_eq_false_2. }
  apply prefix_cons_inv_not in Hpre.
  destruct rest as [|r rest].
  - assert (rest' ≠ []) as Hrest'.
    { intros ->. apply Hpre. apply prefix_nil. }
    assert (fs' = Dir (update_entry name (File content) es)
            ∧ ∀ x, lookup_entry name es = Some x → ∃ c, x = File c) as [-> Hfile].
    { destruct (lookup_entry name es) as [[c|es']|]; try done;
        injection Hw as <-; split; try done; intros x [= <-]; eauto. }
    rewrite lookup_path_cons, lookup_update_entry, bool_decide_eq_true_2 by done.
    cbn [mbind option_bind]. rewrite lookup_path_file by done.
    destruct (lookup_entry name es) as [x|] eqn:E; [|done].
    destruct (Hfile x eq_refl) as [c ->]. cbn [mbind option_bind].
    by rewrite lookup_path_file.
  - destruct (lookup_entry name es) as [x|] eqn:E; [|done].
    apply bind_Ok_inv in Hw as (x' & Hx' & [= <-]).
    rewrite lookup_path_cons, lookup_update_entry, bool_decide_eq_true_2 by done.
    cbn [mbind option_bind]. by eapply IH.
Qed.

(** A file that is there before a write to another path is there
    afterwards. *)
Lemma write_file_keeps_files (path path' : list str) (content c : str) (fs fs' : node) :
  write_file path content fs = Ok fs' →
  path' ≠ path →
  lookup_path path' fs = Some (File c) →
  lookup_path path' fs' = Some (File c).
Proof.
  intros Hw Hne Hfile.
  rewrite (lookup_path_write_file_other path path' content fs fs'); [done|done|].
  intros [q Hq]. destruct q as [|n q].
  { rewrite app_nil_r in Hq. congruence. }
  (* a file on the way to [path]: the write would have raised *)
  clear Hne. subst path. revert fs fs' Hw Hfile.
  induction path' as [|name rest IH]; intros fs fs' Hw Hfile.
  - cbn in Hfile. injection Hfile as ->. done.
  - destruct fs as [c'|es]; [done|]. rewrite lookup_path_cons in Hfile.
    destruct (lookup_entry name es) as [x|] eqn:E; [|done].
    cbn [mbind option_bind] in Hfile.
    cbn [app write_file] in Hw. rewrite E in Hw.
    destruct (rest ++ n :: q) as [|r rq] eqn:Erq; [by destruct rest|].
    apply bind_Ok_inv in Hw as (x' & Hx' & _). rewrite <- Erq in Hx', IH.
    by eapply IH.
Qed.

(** *** What [makedirs] leaves behind *)

Lemma lookup_path_makedirs_other (path path' : list str) (fs fs' : node) :
  makedirs path fs = Ok fs' →
  ¬ path' `prefix_of` path →
  lookup_path path' fs' = lookup_path path' fs.
Proof.
  revert fs fs' path'.
  induction path as [|name rest IH]; intros [c|es] fs' path' Hm Hpre; try done.
  { cbn in Hm. by injection Hm as <-. }
  destruct path' as [|name' rest']; [destruct Hpre; apply prefix_nil|].
  cbn [makedirs] in Hm. apply bind_Ok_inv in Hm as (x' & Hx' & [= <-]).
  rewrite !lookup_path_cons, lookup_update_entry.
  case_bool_decide as Hname; [subst name'|done].
  apply prefix_cons_inv_not in Hpre. cbn [mbind option_bind].
  rewrite (IH _ _ _ Hx' Hpre).
  destruct (lookup_entry name es) as [x|]; [done|]. cbn [default mbind option_bind].
  apply lookup_path_empty_dir. intros ->. apply Hpre, prefix_nil.
Qed.

(** The directory is there afterwards, with what it held before. *)
Lemma lookup_path_makedirs (path : list str) (fs fs' : node) :
  makedirs path fs = Ok fs' →
  ∃ es, lookup_path path fs' = Some (Dir es)
        ∧ (lookup_path path fs = Some (Dir es) ∨ lookup_path path fs = None ∧ es = []).
Proof.
  revert fs fs'. induction path as [|name rest IH]; intros [c|es] fs' Hm; try done.
  { cbn in Hm. injection Hm as <-. exists es. split; [done|]. by left. }
  cbn [makedirs] in Hm. apply bind_Ok_inv in Hm as (x' & Hx' & [= <-]).
  destruct (IH _ _ Hx') as (es' & Hes' & Hbefore). exists es'.
  rewrite !lookup_path_cons, lookup_update_entry, bool_decide_eq_true_2 by done.
  split; [done|].
  destruct (lookup_entry name es) as [x|]; cbn [default mbind option_bind] in *; [done|].
  right. destruct Hbefore as [Hb|[_ ->]]; [|done].
  destruct rest; [|done]. by injection Hb as <-.
Qed.

Lemma makedirs_keeps_files (path path' : list str) (c : str) (fs fs' : node) :
  makedirs path fs = Ok fs' →
  lookup_path path' fs = Some (File c) →
  lookup_path path' fs' = Some (File c).
Proof.
  intros Hm Hfile.
  rewrite (lookup_path_makedirs_other path path' fs fs'); [done|done|].
  intros [q ->]. revert fs fs' Hm Hfile.
  induction path' as [|name rest IH]; intros fs fs' Hm Hfile.
  - cbn in Hfile. injection Hfile as ->. by destruct q.
  - destruct fs as [c'|es]; [done|]. rewrite lookup_path_cons in Hfile.
    destruct (lookup_entry name es) as [x|] eqn:E; [|done].
    cbn [mbind option_bind] in Hfile. cbn [app makedirs] in Hm. rewrite E in Hm.
    apply bind_Ok_inv in Hm as (x' & Hx' & _). by eapply IH.
Qed.

(** ** [create_epub_structure] *)

(** When [create_epub_structure] returns, [epub/mimetype] holds the
    media type of an EPUB and [epub/META-INF/container.xml] the
    container descriptor, and [epub/OEBPS] is a directory: the one that
    was there, with all it held, or a new, empty one.  Nothing is
    removed: every other file of the working directory is left as it
    was, the chapter documents of an earlier run included. *)
Theorem create_epub_structure_keeps (fs fs' : node) :
  create_epub_structure fs = Ok fs' →
  read_file [u "epub"; u "mimetype"] fs' = Ok (u "application/epub+zip")
  ∧ read_file [u "epub"; u "META-INF"; u "container.xml"] fs' = Ok container_xml
  ∧ (∃ es, lookup_path [u "epub"; u "OEBPS"] fs' = Some (Dir es)
           ∧ (lookup_path [u "epub"; u "OEBPS"] fs = Some (Dir es)
              ∨ lookup_path [u "epub"; u "OEBPS"] fs = None ∧ es = []))
  ∧ (∀ path c,
       path ≠ [u "epub"; u "mimetype"] →
       path ≠ [u "epub"; u "META-INF"; u "container.xml"] →
       lookup_path path fs = Some (File c) →
       lookup_path path fs' = Some (File c)).
Proof.
  unfold create_epub_structure. intros H.
  apply bind_Ok_inv in H as (fs1 & H1 & H). apply bind_Ok_inv in H as (fs2 & H2 & H).
  apply bind_Ok_inv in H as (fs3 & H3 & H4).
  split_and!.
  - unfold read_file.
    rewrite (write_file_keeps_files _ [u "epub"; u "mimetype"] _
               (u "application/epub+zip") _ _ H4); [done|done|].
    by eapply lookup_path_write_file.
  - unfold read_file. by rewrite (lookup_path_write_file _ _ _ _ H4).
  - destruct (lookup_path_makedirs _ _ _ H1) as (es & Hes & Hbefore).
    exists es. split; [|done].
    rewrite (lookup_path_write_file_other _ _ _ _ _ H4)
      by (intros [q Hq]; by vm_compute in Hq).
    rewrite (lookup_path_write_file_other _ _ _ _ _ H3)
      by (intros [q Hq]; by vm_compute in Hq).
    rewrite (lookup_path_makedirs_other _ _ _ _ H2)
      by (intros [q Hq]; by vm_compute in Hq).
    done.
  - intros path c Hm Hc Hfile.
    eapply write_file_keeps_files; [exact H4|done|].
    eapply write_file_keeps_files; [exact H3|done|].
    eapply makedirs_keeps_files; [exact H2|].
    eapply makedirs_keeps_files; [exact H1|]. done.
Qed.

Lemma create_epub_structure_keeps_witness :
  ∃ fs',
    create_epub_structure
      (Dir [(u "epub", Dir [(u "OEBPS", Dir [(u "vol9_chap9.xhtml", File (u "old"))])])])
    = Ok fs'
    ∧ read_file [u "epub"; u "mimetype"] fs' = Ok (u "application/epub+zip")
    ∧ lookup_path [u "epub"; u "OEBPS"] fs'
      = Some (Dir [(u "vol9_chap9.xhtml", File (u "old"))]).
Proof.
  eexists. split; [by vm_compute|].
  destruct (create_epub_structure_keeps
              (Dir [(u "epub", Dir [(u "OEBPS", Dir [(u "vol9_chap9.xhtml", File (u "old"))])])])
              (Dir [(u "epub",
                     Dir [(u "OEBPS", Dir [(u "vol9_chap9.xhtml", File (u "old"))]);
                          (u "META-INF", Dir [(u "container.xml", File container_xml)]);
                          (u "mimetype", File (u "application/epub+zip"))])]))
    as (Hm & _ & _ & _); [by vm_compute|].
  split; [exact Hm|]. by vm_compute.
Defined.

(** *** Running it again *)

Lemma update_entry_same (name : str) (x : node) (es : list (str * node)) :
  lookup_entry name es = Some x → update_entry name x es = es.
Proof.
  induction es as [|[n y] es IH]; [done|]. cbn [lookup_entry update_entry].
  case_bool_decide as Hn; [by intros [= ->]|]. intros H. by rewrite IH.
Qed.

Lemma makedirs_existing (path : list str) (fs : node) (es : list (str * node)) :
  lookup_path path fs = Some (Dir es) → makedirs path fs = Ok fs.
Proof.
  revert fs. induction path as [|name rest IH]; intros [c|es'] H; try done.
  rewrite lookup_path_cons in H. cbn [makedirs].
  destruct (lookup_entry name es') as [x|] eqn:E; [|done].
  cbn [mbind option_bind] in H. cbn [default]. unfold id. rewrite (IH x H), bind_Ok.
  by rewrite (update_entry_same _ _ _ E).
Qed.

Lemma write_file_same (path : list str) (content : str) (fs : node) :
  path ≠ [] →
  lookup_path path fs = Some (File content) → write_file path content fs = Ok fs.
Proof.
  revert fs. induction path as [|name rest IH]; intros fs Hne H; [done|].
  destruct fs as [c|es]; [done|].
  rewrite lookup_path_cons in H. cbn [write_file].
  destruct (lookup_entry name es) as [x|] eqn:E; [|done].
  cbn [mbind option_bind] in H. destruct rest as [|r rest].
  - cbn in H. injection H as ->. by rewrite (update_entry_same _ _ _ E).
  - rewrite (IH x) by done. rewrite bind_Ok. by rewrite (update_entry_same _ _ _ E).
Qed.

Lemma lookup_path_parent (path : list str) (name : str) (fs x : node) :
  lookup_path (path ++ [name]) fs = Some x → ∃ es, lookup_path path fs = Some (Dir es).
Proof.
  revert fs. induction path as [|n path IH]; intros [c|es] H; try done.
  - by exists es.
  - cbn [app] in H. rewrite lookup_path_cons in *.
    destruct (lookup_entry n es) as [y|]; [|done]. cbn [mbind option_bind] in *.
    by apply IH.
Qed.

(** A second run of [create_epub_structure] changes nothing: on the
    tree that a run has made, it succeeds and returns the same tree. *)
Theorem create_epub_structure_idempotent (fs fs' : node) :
  create_epub_structure fs = Ok fs' → create_epub_structure fs' = Ok fs'.
Proof.
  unfold create_epub_structure at 1. intros H.
  apply bind_Ok_inv in H as (fs1 & H1 & H). apply bind_Ok_inv in H as (fs2 & H2 & H).
  apply bind_Ok_inv in H as (fs3 & H3 & H4).
  assert (lookup_path [u "epub"; u "META-INF"; u "container.xml"] fs'
          = Some (File container_xml)) as Hc by by eapply lookup_path_write_file.
  assert (lookup_path [u "epub"; u "mimetype"] fs'
          = Some (File (u "application/epub+zip"))) as Hm.
  { eapply write_file_keeps_files; [exact H4|done|]. by eapply lookup_path_write_file. }
  destruct (lookup_path_parent [u "epub"; u "META-INF"] (u "container.xml") fs' _ Hc)
    as [esm Hmeta].
  destruct (lookup_path_makedirs _ _ _ H1) as (eso & Ho & _).
  assert (lookup_path [u "epub"; u "OEBPS"] fs' = Some (Dir eso)) as Hoebps.
  { rewrite (lookup_path_write_file_other _ _ _ _ _ H4)
      by (intros [q Hq]; by vm_compute in Hq).
    rewrite (lookup_path_write_file_other _ _ _ _ _ H3)
      by (intros [q Hq]; by vm_compute in Hq).
    rewrite (lookup_path_makedirs_other _ _ _ _ H2)
      by (intros [q Hq]; by vm_compute in Hq).
    done. }
  unfold create_epub_structure.
  rewrite (makedirs_existing _ _ _ Hoebps), bind_Ok.
  rewrite (makedirs_existing _ _ _ Hmeta), bind_Ok.
  rewrite write_file_same by done. rewrite bind_Ok.
  by rewrite write_file_same.
Qed.

Lemma create_epub_structure_idempotent_witness :
  ∃ fs', create_epub_structure (Dir []) = Ok fs' ∧ create_epub_structure fs' = Ok fs'.
Proof.
  eexists. split; [by vm_compute|].
  apply (create_epub_structure_idempotent (Dir [])). by vm_compute.
Defined.

(** ** The chapter documents *)

(** *** File names *)

Lemma uint_chars_inj (d d' : Decimal.uint) : uint_chars d = uint_chars d' → d = d'.
Proof.
  revert d'. induction d; intros d' H; destruct d'; cbn [uint_chars] in H;
    try discriminate; try done; injection H as H; f_equal; by apply IHd.
Qed.

Lemma str_of_nat_inj (n m : nat) : str_of_nat n = str_of_nat m → n = m.
Proof. intros H%uint_chars_inj. by apply DecimalNat.Unsigned.to_uint_inj. Qed.

(** Two texts that agree up to the first occurrence of a character in
    each agree before it and after it. *)
Lemma app_cons_first (c : N) (a a' r r' : str) :
  Forall (λ x, x ≠ c) a → Forall (λ x, x ≠ c) a' →
  a ++ c :: r = a' ++ c :: r' → a = a' ∧ r = r'.
Proof.
  intros Ha. revert a'. induction Ha as [|x a Hx _ IH]; intros a' Ha' H.
  - destruct Ha' as [|y a' Hy _]; cbn in H; [by injection H as ->|].
    injection H as -> _. done.
  - destruct Ha' as [|y a' Hy Ha']; cbn in H.
    + injection H as -> _. done.
    + injection H as -> H. destruct (IH _ Ha' H) as [-> ->]. done.
Qed.

Lemma chapter_name_inj (N M N' M' : nat) :
  chapter_name N M = chapter_name N' M' → N = N' ∧ M = M'.
Proof.
  unfold chapter_name. intros H. apply app_inv_head in H.
  change (u "_chap") with (95%N :: u "chap") in H. cbn [app] in H.
  apply (app_cons_first 95) in H as [HN H].
  - apply app_inv_head in H. split; by apply str_of_nat_inj.
  - eapply Forall_impl; [apply str_of_nat_digits|]. cbn. lia.
  - eapply Forall_impl; [apply str_of_nat_digits|]. cbn. lia.
Qed.

Lemma chapter_filename_inj (N M N' M' : nat) :
  chapter_filename N M = chapter_filename N' M' → N = N' ∧ M = M'.
Proof.
  rewrite !chapter_filename_name. intros H%app_inv_tail. by apply chapter_name_inj.
Qed.

Lemma chapter_path_inj (pos pos' : nat * nat) :
  chapter_path pos = chapter_path pos' → pos = pos'.
Proof.
  intros H. apply (f_equal (λ l, default [] (l !! 2))) in H.
  unfold chapter_path in H. cbn [lookup list_lookup default] in H.
  apply chapter_filename_inj in H as [H1 H2]. destruct pos, pos'. cbn in *. congruence.
Qed.

(** *** Positions *)

Lemma enumerate_fst {A} (s : nat) (l : list A) : (enumerate s l).*1 = seq s (length l).
Proof. revert s. induction l as [|x l IH]; intros s; cbn; [done|]. by rewrite IH. Qed.

Lemma enumerate_snd {A} (s : nat) (l : list A) : (enumerate s l).*2 = l.
Proof. revert s. induction l as [|x l IH]; intros s; cbn; [done|]. by rewrite IH. Qed.

Lemma elem_of_enumerate {A} (s : nat) (l : list A) (i : nat) (x : A) :
  (i, x) ∈ enumerate s l → s ≤ i.
Proof.
  revert s. induction l as [|y l IH]; intros s; cbn [enumerate].
  - by intros ?%elem_of_nil.
  - intros [[= -> ->]|H%IH]%elem_of_cons; lia.
Qed.

Lemma book_positions_chapters (g : generator) : book_positions g = (book_chapters g).*1.
Proof.
  unfold book_positions, book_chapters. generalize 1 at 2 4. generalize (volumes_of g).
  intros vols. induction vols as [|vol vols IH]; intros s; cbn [enumerate flat_map]; [done|].
  rewrite fmap_app, <- IH. f_equal. cbn [fst snd].
  rewrite <- list_fmap_compose. done.
Qed.

Lemma elem_of_positions_from (g : generator) (s : nat) (vols : list volume)
    (pos : nat * nat) :
  pos ∈ flat_map (λ vol, (λ chap, (vol.1, chap.1)) <$> enumerate 1 (chapters_of g vol.2))
          (enumerate s vols) →
  s ≤ pos.1.
Proof.
  revert s. induction vols as [|vol vols IH]; intros s; cbn [enumerate flat_map].
  - by intros ?%elem_of_nil.
  - intros [H|H%IH]%elem_of_app; [|lia].
    apply list_elem_of_fmap in H as (chap & -> & _). done.
Qed.

Lemma enumerate_positions {A} (N s : nat) (l : list A) :
  (λ chap, (N, chap.1)) <$> enumerate s l = (λ i, (N, i)) <$> seq s (length l).
Proof. revert s. induction l as [|x l IH]; intros s; cbn; [done|]. by rewrite IH. Qed.

(** No position is visited twice. *)
Lemma NoDup_book_positions (g : generator) : NoDup (book_positions g).
Proof.
  unfold book_positions. generalize 1 at 2. generalize (volumes_of g).
  intros vols. induction vols as [|vol vols IH]; intros s; cbn [enumerate flat_map].
  { constructor. }
  apply NoDup_app. split_and!.
  - cbn [fst snd].
    rewrite enumerate_positions.
    apply NoDup_fmap_2; [by intros i j [= ->]|]. apply NoDup_seq.
  - intros pos Hpos Htail. apply elem_of_positions_from in Htail.
    apply list_elem_of_fmap in Hpos as (chap & -> & _). cbn in Htail. lia.
  - apply IH.
Qed.

(** No two chapters of a book share an identifier, or a file: the
    identifier [vol{N}_chap{M}] determines the position, and no position
    comes twice in the traversal. *)
Theorem chapter_ids_unique (g : generator) :
  NoDup (chapter_ids g)
  ∧ NoDup (chapter_path <$> book_positions g)
  ∧ ∀ N M N' M', chapter_filename N M = chapter_filename N' M' → N = N' ∧ M = M'.
Proof.
  split_and!.
  - unfold chapter_ids. apply NoDup_fmap_2; [|apply NoDup_book_positions].
    intros [N M] [N' M'] H. cbn [fst snd] in H.
    by destruct (chapter_name_inj _ _ _ _ H) as [-> ->].
  - apply NoDup_fmap_2; [|apply NoDup_book_positions].
    intros pos pos'. apply chapter_path_inj.
  - apply chapter_filename_inj.
Qed.

(** *** The loop, chapter by chapter *)

Lemma foldM_app {A S} (f : S → A → result S) (s : S) (a b : list A) :
  foldM f s (a ++ b) = foldM f s a ≫= λ s', foldM f s' b.
Proof.
  revert s. induction a as [|x a IH]; intros s; cbn [app foldM]; [done|].
  destruct (f s x) as [s'|e]; [|done]. rewrite !bind_Ok. apply IH.
Qed.

Lemma foldM_fmap {A B S} (f : S → B → result S) (h : A → B) (s : S) (l : list A) :
  foldM f s (h <$> l) = foldM (λ s x, f s (h x)) s l.
Proof.
  revert s. induction l as [|x l IH]; intros s; cbn [fmap list_fmap foldM]; [done|].
  destruct (f s (h x)) as [s'|e]; [|done]. rewrite !bind_Ok. apply IH.
Qed.

Lemma foldM_flat_map {A B S} (f : S → B → result S) (h : A → list B) (s : S)
    (l : list A) :
  foldM f s (flat_map h l) = foldM (λ s x, foldM f s (h x)) s l.
Proof.
  revert s. induction l as [|x l IH]; intros s; cbn [flat_map foldM]; [done|].
  rewrite foldM_app. destruct (foldM f s (h x)) as [s'|e]; [|done].
  rewrite !bind_Ok. apply IH.
Qed.

(** The two loops visit the chapters of [book_chapters], in order. *)
Lemma generate_chapters_flat (g : generator) (fs : node) :
  generate_chapters g fs
  = foldM (λ st pc, generate_chapter pc.1.1 pc.1.2 pc.2 st) (g, fs) (book_chapters g).
Proof.
  unfold generate_chapters, book_chapters. rewrite foldM_flat_map.
  generalize (g, fs). generalize (enumerate 1 (volumes_of g)). intros vols.
  induction vols as [|vol vols IH]; intros st; cbn [foldM]; [done|].
  rewrite foldM_fmap. cbn [fst snd].
  destruct (foldM _ st (enumerate 1 (chapters_of g vol.2))) as [st'|e]; [|done].
  rewrite !bind_Ok. apply IH.
Qed.

Lemma generate_documents (l : list (nat * nat * chapter)) (g : generator) (fs : node) :
  chapters_writable fs → NoDup l.*1 →
  ∃ g' fs',
    foldM (λ st pc, generate_chapter pc.1.1 pc.1.2 pc.2 st) (g, fs) l = Ok (g', fs')
    ∧ chapters_writable fs'
    ∧ same_tree g g' ∧ metadata g' = metadata g
    ∧ (∀ pos ch, (pos, ch) ∈ l →
         lookup_path (chapter_path pos) fs' = Some (File (chapter_document ch)))
    ∧ (∀ path c, (∀ pos, pos ∈ l.*1 → path ≠ chapter_path pos) →
         lookup_path path fs = Some (File c) → lookup_path path fs' = Some (File c)).
Proof.
  revert g fs. induction l as [|[pos0 ch0] l IH]; intros g fs Hw Hnd.
  { exists g, fs. split_and!; try done. intros pos ch H. by apply elem_of_nil in H. }
  cbn [fmap list_fmap fst] in Hnd. apply NoDup_cons in Hnd as [Hfresh Hnd].
  cbn [foldM fst snd]. unfold generate_chapter at 2. cbn [fst snd].
  destruct (write_chapter_ok (chapter_filename pos0.1 pos0.2) (chapter_document ch0) fs Hw)
    as (fs1 & Hwrite & Hw1).
  unfold chapter_document in Hwrite. rewrite Hwrite, !bind_Ok.
  fold (chapter_document ch0) in Hwrite.
  match goal with |- context [foldM _ (?g1, fs1) l] =>
    destruct (IH g1 fs1 Hw1 Hnd) as (g' & fs' & -> & Hw' & Htree & Hmeta & Hdocs & Hframe)
  end.
  exists g', fs'. split_and!; try done.
  - intros pos ch [[= -> ->]|Hin]%elem_of_cons; [|by apply Hdocs].
    apply Hframe.
    + intros pos Hpos E%chapter_path_inj. apply Hfresh. by subst pos0.
    + by eapply lookup_path_write_file.
  - intros path c Hother Hfile. apply Hframe.
    + intros pos Hpos. apply Hother. cbn [fmap list_fmap fst]. by right.
    + eapply write_file_keeps_files; [exact Hwrite| |exact Hfile].
      apply (Hother pos0). cbn [fmap list_fmap fst]. by left.
Qed.

(** In a working tree where the chapter documents can be written,
    [generate_chapters] writes, for every chapter of the book, the
    document of the chapter to [epub/OEBPS/vol{N}_chap{M}.xhtml], [N]
    and [M] its position: no document is overwritten by a later one.
    Every other file of the tree is left as it was, and so are the book
    and the metadata. *)
Theorem chapter_documents_written (g : generator) (fs : node) :
  chapters_writable fs →
  ∃ g' fs',
    generate_chapters g fs = Ok (g', fs')
    ∧ same_tree g g' ∧ metadata g' = metadata g
    ∧ (∀ pos ch, (pos, ch) ∈ book_chapters g →
         read_file (chapter_path pos) fs' = Ok (chapter_document ch))
    ∧ (∀ path c, (∀ pos, pos ∈ book_positions g → path ≠ chapter_path pos) →
         lookup_path path fs = Some (File c) → lookup_path path fs' = Some (File c)).
Proof.
  intros Hw. rewrite generate_chapters_flat.
  destruct (generate_documents (book_chapters g) g fs Hw)
    as (g' & fs' & -> & _ & Htree & Hmeta & Hdocs & Hframe).
  { rewrite <- book_positions_chapters. apply NoDup_book_positions. }
  exists g', fs'. split_and!; try done.
  - intros pos ch Hin. unfold read_file. by rewrite (Hdocs pos ch Hin).
  - intros path c Hother. apply Hframe. intros pos Hpos. apply Hother.
    by rewrite book_positions_chapters.
Qed.

Lemma chapter_documents_written_witness :
  ∃ g' fs',
    generate_chapters
      (set_tree [mkVolume (u "卷一") [0]] [mkChapter (u "甲") [u "　　正文"]] [0]
         (Some 0) (Some 0) (init [] []))
      (Dir [(u "epub", Dir [(u "OEBPS", Dir [])])])
    = Ok (g', fs')
    ∧ read_file (chapter_path (1, 1)) fs'
      = Ok (chapter_document (mkChapter (u "甲") [u "　　正文"])).
Proof.
  destruct (chapter_documents_written
              (set_tree [mkVolume (u "卷一") [0]] [mkChapter (u "甲") [u "　　正文"]] [0]
                 (Some 0) (Some 0) (init [] []))
              (Dir [(u "epub", Dir [(u "OEBPS", Dir [])])]))
    as (g' & fs' & Hgen & _ & _ & Hdocs & _).
  { exists []. split; [reflexivity|]. intros name x H. discriminate H. }
  exists g', fs'. split; [exact Hgen|]. apply Hdocs. apply list_elem_of_here.
Defined.

(** Without the directory [epub], [generate_chapters] stops at the
    first chapter of the book: the document cannot be opened, and
    [FileNotFoundError] is raised for its path.  A book without chapters
    is another matter: nothing is written, and nothing is missed. *)
Theorem generate_chapters_without_directory (g : generator) (es : list (str * node))
    (pos : nat * nat) (rest : list (nat * nat)) :
  lookup_entry (u "epub") es = None →
  book_positions g = pos :: rest →
  generate_chapters g (Dir es) = Raise (FileNotFoundError (chapter_path pos))
  ∧ ∀ g0 fs, book_positions g0 = [] → generate_chapters g0 fs = Ok (g0, fs).
Proof.
  intros Hepub Hpos. split.
  - rewrite generate_chapters_flat. rewrite book_positions_chapters in Hpos.
    destruct (book_chapters g) as [|[pos' ch] l]; [done|]. injection Hpos as -> _.
    cbn [foldM fst snd]. unfold generate_chapter. cbn [fst snd write_file].
    by rewrite Hepub.
  - intros g0 fs H0. rewrite generate_chapters_flat.
    rewrite book_positions_chapters in H0. by destruct (book_chapters g0).
Qed.

Lemma generate_chapters_without_directory_witness :
  generate_chapters
    (set_tree [mkVolume (u "卷一") []; mkVolume (u "卷二") [0]] [mkChapter (u "甲") []]
       [0; 1] (Some 1) (Some 0) (init [] []))
    (Dir [])
  = Raise (FileNotFoundError (chapter_path (2, 1)))
  ∧ generate_chapters (init [] []) (Dir []) = Ok (init [] [], Dir []).
Proof.
  destruct (generate_chapters_without_directory
              (set_tree [mkVolume (u "卷一") []; mkVolume (u "卷二") [0]]
                 [mkChapter (u "甲") []] [0; 1] (Some 1) (Some 0) (init [] []))
              [] (2, 1) []) as [Hraise Hnone]; [reflexivity|reflexivity|].
  split; [exact Hraise|]. by apply Hnone.
Defined.

(** ** [generate] *)

(** What follows the reading of the input file.  [text] is the text
    that [open] and [readlines] have read from the file at [txt_path];
    what these two calls raise themselves, when the file is missing or
    is not UTF-8, comes before and is not part of this statement.  From
    there on a run of [generate] in an empty working directory, in which
    the files can be written, ends in one of two exceptions, whatever
    the text: the [IndexError] of [lines[i+1]], the only exception the
    loop of [parse_txt] raises, where the loop raises; and otherwise,
    after the chapter documents have been written, the [KeyError] of the
    navigation header.  The package document and the archive are never
    made. *)
Theorem generate_in_empty_directory (text today : str) (g : generator) :
  generate text today g (Dir [])
  = match parse_txt text g with
    | Ok _ => Raise (KeyError (u "'title'"))
    | Raise e => Raise e
    end
  ∧ ∀ e, parse_txt text g = Raise e → e = IndexError.
Proof.
  split.
  - unfold generate. destruct (parse_txt text g) as [g1|e]; [|done]. rewrite bind_Ok.
    destruct fresh_tree_writable as (fs1 & -> & Hw). rewrite bind_Ok.
    rewrite generate_chapters_flat.
    destruct (generate_documents (book_chapters g1) g1 fs1 Hw) as (g2 & fs2 & -> & _).
    { rewrite <- book_positions_chapters. apply NoDup_book_positions. }
    rewrite bind_Ok. cbn [fst snd]. by rewrite generate_toc_raises.
  - intros e He. unfold parse_txt, parse_lines in He.
    destruct (parse_loop _ 0 _ _) as [p|e'] eqn:E; [done|].
    rewrite bind_Raise in He. injection He as <-.
    by apply parse_loop_raises in E as [-> _].
Qed.

(** ** Navigation points and documents *)

Lemma elem_of_book_positions_from (g : generator) (s : nat) (vols : list volume)
    (N M : nat) :
  (N, M) ∈ flat_map (λ vol, (λ chap, (vol.1, chap.1)) <$> enumerate 1 (chapters_of g vol.2))
             (enumerate s vols)
  ↔ ∃ vol, s ≤ N ∧ vols !! (N - s) = Some vol ∧ 1 ≤ M ≤ length (chapters_of g vol).
Proof.
  revert s. induction vols as [|vol vols IH]; intros s; cbn [enumerate flat_map].
  { split; [by intros ?%elem_of_nil|]. by intros (vol & _ & ? & _). }
  rewrite elem_of_app, IH. cbn [fst snd]. rewrite enumerate_positions.
  rewrite list_elem_of_fmap. split.
  - intros [(i & [= -> ->] & Hi%elem_of_seq)|(vol' & Hs & Hvol' & HM)].
    + exists vol. rewrite Nat.sub_diag. split_and!; [done|done|lia|lia].
    + exists vol'. replace (N - s) with (S (N - S s)) by lia. split_and!; [lia|done|lia|lia].
  - intros (vol' & Hs & Hvol' & HM). destruct (decide (N = s)) as [->|Hne].
    + left. rewrite Nat.sub_diag in Hvol'. injection Hvol' as <-.
      exists M. split; [done|]. apply elem_of_seq. lia.
    + right. exists vol'. replace (N - s) with (S (N - S s)) in Hvol' by lia.
      split_and!; [lia|done|lia|lia].
Qed.

(** The positions of a book: the chapter [M] of the volume [N] is
    visited exactly when the book has an [N]-th volume, and that volume
    an [M]-th chapter. *)
Lemma elem_of_book_positions (g : generator) (N M : nat) :
  (N, M) ∈ book_positions g
  ↔ ∃ vol, 1 ≤ N ∧ volumes_of g !! (N - 1) = Some vol ∧ 1 ≤ M ≤ length (chapters_of g vol).
Proof. apply elem_of_book_positions_from. Qed.

Lemma point_target_shape (A sn B C t D D' X V sN E E1 E2 : str) :
  D = D' ++ X ++ V → E = E1 ++ E2 →
  A ++ sn ++ B ++ sn ++ C ++ t ++ D ++ sN ++ E
  = (A ++ sn ++ B ++ sn ++ C ++ t ++ D') ++ X ++ (V ++ sN ++ E1) ++ E2.
Proof. intros -> ->. by rewrite <- !app_assoc. Qed.

(** *** The text of the loop *)

Lemma toc_chapters_text (N s : nat) (chs : list chapter) (st : str * nat) :
  foldl (λ st chap,
           (st.1 ++ toc_chapter_point st.2 (chapter_filename N chap.1) chap.2, S st.2))
        st (enumerate s chs)
  = (st.1 ++ concat (imap (λ j ch, toc_chapter_point (st.2 + j) (chapter_filename N (s + j)) ch)
                          chs),
     st.2 + length chs).
Proof.
  revert s st. induction chs as [|ch chs IH]; intros s [xml n]; cbn [enumerate foldl].
  - cbn. by rewrite app_nil_r, Nat.add_0_r.
  - rewrite IH. cbn [fst snd]. rewrite imap_cons. cbn [concat length].
    rewrite !Nat.add_0_r, <- app_assoc. f_equal; [|lia]. do 2 f_equal.
    f_equal. apply imap_ext. intros j x _. cbn [compose].
    by replace (n + S j) with (S n + j) by lia; replace (s + S j) with (S s + j) by lia.
Qed.

Lemma volume_block_unfold (nav_id N : nat) (v : volume) (chs : list chapter) :
  volume_block nav_id N v chs
  = toc_volume_point nav_id N v
      ++ concat (imap (λ j ch,
                         toc_chapter_point (S nav_id + j) (chapter_filename N (S j)) ch)
                      chs)
      ++ u "</navPoint>".
Proof. reflexivity. Qed.

Lemma toc_volumes_text_from (g : generator) (s : nat) (vols : list volume)
    (st : str * nat) :
  foldl (λ st vol,
           let st := (st.1 ++ toc_volume_point st.2 vol.1 vol.2, S st.2) in
           let st := toc_chapters vol.1 (chapters_of g vol.2) st in
           (st.1 ++ u "</navPoint>", st.2))
        st (enumerate s vols)
  = (st.1 ++ concat (imap (λ k v,
                             volume_block
                               (st.2 + k + length (concat (chapters_of g <$> take k vols)))
                               (s + k) v (chapters_of g v))
                          vols),
     st.2 + length vols + length (concat (chapters_of g <$> vols))).
Proof.
  revert s st. induction vols as [|v vols IH]; intros s [xml n]; cbn [enumerate foldl].
  - cbn. by rewrite app_nil_r, !Nat.add_0_r.
  - cbv zeta. cbn [fst snd]. unfold toc_chapters. rewrite toc_chapters_text.
    cbn [fst snd]. rewrite IH. cbn [fst snd]. rewrite imap_cons.
    assert (imap (λ k v0,
                    volume_block
                      (S n + length (chapters_of g v) + k
                       + length (concat (chapters_of g <$> take k vols)))
                      (S s + k) v0 (chapters_of g v0)) vols
            = imap ((λ k v0,
                       volume_block
                         (n + k + length (concat (chapters_of g <$> take k (v :: vols))))
                         (s + k) v0 (chapters_of g v0)) ∘ S) vols) as ->.
    { apply imap_ext. intros k x _. cbn [compose].
      cbn [take fmap list_fmap concat]. rewrite length_app.
      by replace (S n + length (chapters_of g v) + k
                  + length (concat (chapters_of g <$> take k vols)))
           with (n + S k + (length (chapters_of g v)
                            + length (concat (chapters_of g <$> take k vols)))) by lia;
         replace (S s + k) with (s + S k) by lia. }
    cbn [concat take fmap list_fmap length]. rewrite length_app, !Nat.add_0_r.
    apply (f_equal2 pair); [|lia].
    rewrite (volume_block_unfold n s v). by rewrite <- !app_assoc.
Qed.

(** The navigation points that the loop of [generate_toc] builds, and
    the document of the first chapter.  Entered with the text [xml] and
    the counter at [n], the loop adds to the text one block for every
    volume of the book, in order: the block of the [N]-th volume is its
    navigation point, which has the play order [n] plus the number of
    points before it and refers to [vol{N}_chap1.xhtml], then the points
    of its chapters, numbered on from there and referring to
    [vol{N}_chap{M}.xhtml], then the closing tag.  The volume point
    refers to the document of the first chapter whether the volume has
    chapters or not; [generate_chapters] writes that document exactly
    when the volume has a chapter, so for a volume without chapters the
    reference points at no file of the run. *)
Theorem volume_point_target (g : generator) (xml : str) (n : nat) :
  toc_volumes g (xml, n)
  = (xml ++ nav_map g n,
     n + length (volumes_of g) + length (concat (chapters_of g <$> volumes_of g)))
  ∧ ∀ k v,
      volumes_of g !! k = Some v →
      (∃ before,
         volume_block (n + k + chapters_before g k) (S k) v (chapters_of g v)
         = before ++ uq "<content src=`" ++ chapter_filename (S k) 1 ++ uq "`/>"
             ++ concat (imap (λ j ch,
                                toc_chapter_point (S (n + k + chapters_before g k) + j)
                                  (chapter_filename (S k) (S j)) ch)
                             (chapters_of g v))
             ++ u "</navPoint>")
      ∧ ((S k, 1) ∈ book_positions g ↔ chapters_of g v ≠ []).
Proof.
  split.
  - unfold toc_volumes. rewrite toc_volumes_text_from. done.
  - intros k v Hv. split.
    + unfold volume_block, toc_volume_point, chapter_filename.
      match goal with
      | |- ∃ before, (?A ++ ?sn ++ ?B ++ ?sn ++ ?C ++ ?t ++ ?D ++ ?sN ++ ?E) ++ ?tl = _ =>
          assert (D = take (length D - 17) D ++ uq "<content src=`" ++ u "vol") as HD
            by (vm_compute; reflexivity);
          assert (E = (u "_chap" ++ str_of_nat 1 ++ u ".xhtml") ++ uq "`/>") as HE
            by (vm_compute; reflexivity);
          exists (A ++ sn ++ B ++ sn ++ C ++ t ++ take (length D - 17) D);
          rewrite (point_target_shape A sn B C t D _ _ _ sN E _ _ HD HE)
      end.
      by rewrite <- !app_assoc.
    + rewrite elem_of_book_positions. cbn [Nat.sub]. rewrite Nat.sub_0_r. split.
      * intros (vol & _ & Hvol & HM) Hnil. rewrite Hv in Hvol. injection Hvol as <-.
        rewrite Hnil in HM. cbn in HM. lia.
      * intros Hne. exists v. split_and!; try done; [lia|].
        destruct (chapters_of g v); [done|]. cbn. lia.
Qed.

Lemma volume_point_target_witness :
  toc_volumes (set_tree [mkVolume (u "空卷") []] [] [0] (Some 0) None (init [] [])) ([], 1)
  = ([] ++ nav_map (set_tree [mkVolume (u "空卷") []] [] [0] (Some 0) None (init [] [])) 1,
     1 + length (volumes_of (set_tree [mkVolume (u "空卷") []] [] [0] (Some 0) None (init [] [])))
     + length (concat (chapters_of (set_tree [mkVolume (u "空卷") []] [] [0] (Some 0) None (init [] []))
                       <$> volumes_of (set_tree [mkVolume (u "空卷") []] [] [0] (Some 0) None (init [] [])))))
  ∧ (1, 1) ∉ book_positions (set_tree [mkVolume (u "空卷") []] [] [0] (Some 0) None (init [] [])).
Proof.
  destruct (volume_point_target (set_tree [mkVolume (u "空卷") []] [] [0] (Some 0) None (init [] [])) [] 1)
    as [Htext Hpoint].
  split; [exact Htext|].
  destruct (Hpoint 0 (mkVolume (u "空卷") []) eq_refl) as [_ Hiff].
  intros Hin. apply Hiff in Hin. by apply Hin.
Defined.

(** ** The package document *)

(** *** [split] and [dedent] *)

Lemma split_char_app (sep : N) (x y : str) :
  split_char sep (x ++ sep :: y) = split_char sep x ++ split_char sep y.
Proof.
  induction x as [|c x IH]; cbn [app split_char].
  - by rewrite N.eqb_refl.
  - destruct (c =? sep)%N; [by rewrite IH|]. rewrite IH.
    destruct (split_char sep x) as [|w ws] eqn:E; [|done].
    by destruct x; cbn in E; repeat case_match.
Qed.

Lemma split_char_one (sep : N) (x : str) :
  Forall (λ c, c ≠ sep) x → split_char sep x = [x].
Proof.
  induction 1 as [|c x Hc _ IH]; [done|]. cbn [split_char].
  apply N.eqb_neq in Hc as ->. by rewrite IH.
Qed.

Lemma split_char_cons (sep c : N) (y : str) :
  c ≠ sep → ∃ w ws, split_char sep (c :: y) = (c :: w) :: ws.
Proof.
  intros Hc. cbn [split_char]. apply N.eqb_neq in Hc as ->.
  destruct (split_char sep y); eauto.
Qed.

Lemma common_prefix_nil_r (a : str) : common_prefix a [] = [].
Proof. by destruct a. Qed.

Lemma foldl_common_prefix_nil (l : list str) : foldl common_prefix [] l = [].
Proof. induction l as [|x l IH]; [done|]. apply IH. Qed.

Lemma foldl_common_prefix_elem (i : str) (l : list str) :
  [] ∈ l → foldl common_prefix i l = [].
Proof.
  revert i. induction l as [|x l IH]; intros i; [by intros ?%elem_of_nil|].
  intros [<-|H]%elem_of_cons; cbn [foldl].
  - rewrite common_prefix_nil_r. apply foldl_common_prefix_nil.
  - by apply IH.
Qed.

(** A line that is not indented leaves no margin to remove: the text
    comes out as it is, but for its lines of blanks, which are emptied. *)
Lemma dedent_unindented (X Y : str) (c : N) :
  is_blank c = false → c ≠ 10%N →
  dedent (X ++ 10%N :: c :: Y)
  = join [10%N] ((λ l, if forallb is_blank l then [] else l)
                   <$> split_char 10 (X ++ 10%N :: c :: Y)).
Proof.
  intros Hb Hc. unfold dedent.
  set (lines := map _ (split_char 10 (X ++ 10%N :: c :: Y))).
  assert ([] ∈ omap (λ l : str, match l with [] => None | _ => Some (leading is_blank l) end)
                lines) as Hin.
  { unfold lines. rewrite split_char_app.
    destruct (split_char_cons 10 c Y Hc) as (w & ws & ->).
    rewrite map_app, omap_app. apply elem_of_app. right.
    cbn [map forallb]. rewrite Hb. cbn [andb omap list_omap leading]. rewrite Hb.
    apply list_elem_of_here. }
  destruct (omap _ lines) as [|i rest] eqn:E; [by apply elem_of_nil in Hin|].
  assert (foldl common_prefix i rest = []) as ->.
  { apply elem_of_cons in Hin as [<-|Hin].
    - apply foldl_common_prefix_nil.
    - by apply foldl_common_prefix_elem. }
  f_equal. change (map ?f lines) with (f <$> lines).
  transitivity (id <$> lines); [|by rewrite list_fmap_id].
  apply list_fmap_ext. intros _ l _. by destruct l.
Qed.

Lemma has_line_from_app_r (c : N) (s t : str) :
  has_line_from c t → has_line_from c (s ++ t).
Proof. intros (X & Y & ->). exists (s ++ X), Y. by rewrite <- app_assoc. Qed.

Lemma has_line_from_app_l (c : N) (s t : str) :
  has_line_from c t → has_line_from c (t ++ s).
Proof. intros (X & Y & ->). exists X, (Y ++ s). by rewrite <- app_assoc. Qed.

Lemma dedent_first_line (text F R : str) (c : N) :
  text = F ++ 10%N :: R → has_line_from c text →
  Forall (λ x, x ≠ 10%N) F → forallb is_blank F = false →
  is_blank c = false → c ≠ 10%N →
  ∃ rest, dedent text = F ++ 10%N :: rest.
Proof.
  intros HF (X & Y & HX) Hnl HFb Hb Hc. rewrite HX, dedent_unindented by done.
  rewrite <- HX, HF, split_char_app, split_char_one by done.
  cbn [app fmap list_fmap]. rewrite HFb.
  destruct (split_char 10 R) as [|l ls] eqn:E.
  { by destruct R; cbn in E; repeat case_match. }
  cbn [fmap list_fmap join]. eexists. cbn [app]. reflexivity.
Qed.

Lemma join_two (l1 l2 : str) (ls : list str) (c : N) (w : str) :
  l2 = c :: w → has_line_from c (join [10%N] (l1 :: l2 :: ls)).
Proof.
  intros ->. exists l1. cbn [join]. destruct ls as [|l ls]; cbn [app]; eauto.
Qed.

Lemma manifest_line_head (item : manifest_item) : ∃ w, manifest_line item = 60%N :: w.
Proof. unfold manifest_line. eexists. reflexivity. Qed.

Lemma spine_line_head (item : spine_item) : ∃ w, spine_line item = 60%N :: w.
Proof. unfold spine_line. eexists. reflexivity. Qed.


(** ** The text of a chapter document *)

(** *** [process_images] makes no line break *)

Lemma literal_no_newline (s : str) :
  forallb dot s = true → Forall (λ c, c ≠ 10%N) s.
Proof.
  intros H. apply Forall_forall. intros c Hc%list_elem_of_In.
  apply (proj1 (forallb_forall _ _) H) in Hc. unfold dot in Hc.
  by apply negb_true_iff, N.eqb_neq in Hc.
Qed.

Lemma img_element_no_newline (T W H : str) :
  Forall (λ c, c ≠ 10%N) T → Forall (λ c, c ≠ 10%N) W → Forall (λ c, c ≠ 10%N) H →
  Forall (λ c, c ≠ 10%N) (img_element T W H).
Proof.
  intros HT HW HH. unfold img_element. rewrite !Forall_app.
  split_and!; try done; by apply literal_no_newline.
Qed.

Lemma sub_fuel_no_newline (n : nat) (s : str) :
  Forall (λ c, c ≠ 10%N) s →
  Forall (λ c, c ≠ 10%N) (sub_fuel n img_pattern img_template s).
Proof.
  revert s. induction n as [|n IH]; intros s Hs; cbn [sub_fuel]; [done|].
  assert (Forall (λ c, c ≠ 10%N)
            (match s with c :: s' => c :: sub_fuel n img_pattern img_template s' | [] => [] end))
    as Hcopy.
  { destruct Hs as [|c s Hc Hs]; [done|]. constructor; [done|]. by apply IH. }
  destruct (re_match img_pattern s) as [[g rest]|] eqn:E; [|done].
  case_bool_decide as Hlt; [|done]. clear Hlt.
  apply img_pattern_sound in E
    as (opening & W & S & H & T & closing & -> & _ & _ & _ & _ & _ & _ & _ & _ & ->).
  rewrite expand_img_template. rewrite !Forall_app in Hs.
  destruct Hs as (_ & HW & _ & HH & _ & HT & _ & Hrest).
  apply Forall_app. split; [by apply img_element_no_newline|by apply IH].
Qed.

Lemma process_images_no_newline (text : str) :
  Forall (λ c, c ≠ 10%N) text → Forall (λ c, c ≠ 10%N) (process_images text).
Proof.
  intros H. rewrite process_images_unfold. apply sub_fuel_no_newline.
  unfold ascii_colons. rewrite replace_colon_map. apply Forall_fmap.
  eapply Forall_impl; [exact H|]. intros c Hc. cbn. by destruct (c =? 65306)%N.
Qed.

Lemma paragraph_no_newline (para : str) :
  Forall (λ c, c ≠ 10%N) para → Forall (λ c, c ≠ 10%N) (paragraph para).
Proof.
  intros H. unfold paragraph. case_bool_decide.
  - by apply literal_no_newline.
  - rewrite !Forall_app. split_and!; try by apply literal_no_newline.
    by apply process_images_no_newline.
Qed.

Lemma paragraph_head (para : str) : ∃ w, paragraph para = 60%N :: w.
Proof. unfold paragraph. case_bool_decide; eexists; reflexivity. Qed.

(** *** [dedent] with a margin *)

Lemma split_char_join (ls : list str) :
  ls ≠ [] → Forall (Forall (λ c, c ≠ 10%N)) ls → split_char 10 (join [10%N] ls) = ls.
Proof.
  intros Hne Hls. induction Hls as [|l ls Hl Hls IH]; [done|].
  destruct ls as [|l' ls].
  - cbn [join]. by apply split_char_one.
  - change (join [10%N] (l :: l' :: ls)) with (l ++ 10%N :: join [10%N] (l' :: ls)).
    rewrite split_char_app, split_char_one, IH by done. done.
Qed.

Lemma common_prefix_app (m a b : str) :
  common_prefix (m ++ a) (m ++ b) = m ++ common_prefix a b.
Proof. induction m as [|c m IH]; [done|]. cbn. by rewrite N.eqb_refl, IH. Qed.

Lemma foldl_common_prefix_app (m a : str) (xs : list str) :
  foldl common_prefix (m ++ a) ((m ++.) <$> xs) = m ++ foldl common_prefix a xs.
Proof.
  revert a. induction xs as [|x xs IH]; intros a; [done|].
  cbn [fmap list_fmap foldl]. by rewrite common_prefix_app, IH.
Qed.

Lemma leading_app (m b : str) :
  forallb is_blank m = true → leading is_blank (m ++ b) = m ++ leading is_blank b.
Proof.
  induction m as [|c m IH]; [done|]. cbn [forallb app leading].
  intros [-> Hm]%andb_prop. by rewrite IH.
Qed.

Lemma blank_no_newline (m : str) :
  forallb is_blank m = true → Forall (λ c, c ≠ 10%N) m.
Proof.
  intros H. apply Forall_forall. intros c Hc%list_elem_of_In.
  apply (proj1 (forallb_forall _ _) H) in Hc. intros ->. done.
Qed.

(** Where every line starts with the margin [m], and one of them has a
    character that is not a blank right after it, [dedent] removes [m]
    from every line, and empties the lines of blanks. *)
Lemma dedent_margin (m : str) (bodies : list str) :
  m ≠ [] → forallb is_blank m = true →
  Forall (Forall (λ c, c ≠ 10%N)) bodies →
  (∃ b, b ∈ bodies ∧ forallb is_blank b = false ∧ leading is_blank b = []) →
  dedent (join [10%N] ((m ++.) <$> bodies))
  = join [10%N] ((λ b, if forallb is_blank b then [] else b) <$> bodies).
Proof.
  intros Hm Hblank Hnl (b0 & Hb0 & Hb0b & Hb0l).
  assert (bodies ≠ []) as Hne by (intros ->; by apply elem_of_nil in Hb0).
  unfold dedent. rewrite split_char_join.
  2:{ by destruct bodies. }
  2:{ apply Forall_fmap. eapply Forall_impl; [exact Hnl|]. intros b Hb. cbn.
      apply Forall_app. split; [by apply blank_no_newline|done]. }
  set (lines := map _ ((m ++.) <$> bodies)).
  assert (lines = (λ b, if forallb is_blank b then [] else m ++ b) <$> bodies) as Hlines.
  { unfold lines. change (map ?f ?l) with (f <$> l). rewrite <- list_fmap_compose.
    apply list_fmap_ext. intros _ b _. cbn. by rewrite forallb_app, Hblank. }
  set (G := λ b : str, if forallb is_blank b then None else Some (leading is_blank b)).
  assert (omap (λ l : str, match l with [] => None | _ => Some (leading is_blank l) end)
               lines
          = (m ++.) <$> omap G bodies) as Hind.
  { rewrite Hlines. clear -Hm Hblank. induction bodies as [|b bodies IH]; [done|].
    cbn [fmap list_fmap]. unfold G at 1.
    change (omap ?f (?x :: ?l))
      with (match f x with Some y => y :: omap f l | None => omap f l end).
    cbn beta. destruct (forallb is_blank b) eqn:Eb; [exact IH|].
    destruct (m ++ b) as [|c r] eqn:E.
    { apply app_eq_nil in E as [-> ->]. done. }
    rewrite <- E, leading_app by done. cbn [fmap list_fmap]. f_equal. exact IH. }
  rewrite Hind.
  assert ([] ∈ omap G bodies) as Hin.
  { apply list_elem_of_omap. exists b0. split; [done|]. unfold G. by rewrite Hb0b, Hb0l. }
  destruct (omap G bodies) as [|x xs] eqn:Exs; [by apply elem_of_nil in Hin|].
  cbn [fmap list_fmap]. rewrite foldl_common_prefix_app.
  assert (foldl common_prefix x xs = []) as ->.
  { apply elem_of_cons in Hin as [<-|Hin].
    - apply foldl_common_prefix_nil.
    - by apply foldl_common_prefix_elem. }
  rewrite app_nil_r. f_equal. rewrite Hlines.
  change (map ?f ?l) with (f <$> l). rewrite <- list_fmap_compose.
  apply list_fmap_ext. intros _ b _. cbn.
  destruct (forallb is_blank b).
  - by destruct m.
  - by rewrite startswith_app, drop_app_length.
Qed.

(** *** The document *)

Lemma chapter_xhtml_lines (T P : str) :
  uq "                <?xml version=`1.0` encoding=`utf-8`?>
                <!DOCTYPE html PUBLIC `-//W3C//DTD XHTML 1.1//EN`
                  `http://www.w3.org/TR/xhtml11/DTD/xhtml11.dtd`>
                <html xmlns=`http://www.w3.org/1999/xhtml`>
                <head>
                  <title>" ++ T ++ uq "</title>
                </head>
                <body>
                  <h2>" ++ T ++ uq "</h2>
                  " ++ P ++ uq "
                </body>
                </html>
                "
  = join [10%N]
      ((u "                " ++.) <$>
         [uq "<?xml version=`1.0` encoding=`utf-8`?>";
          uq "<!DOCTYPE html PUBLIC `-//W3C//DTD XHTML 1.1//EN`";
          uq "  `http://www.w3.org/TR/xhtml11/DTD/xhtml11.dtd`>";
          uq "<html xmlns=`http://www.w3.org/1999/xhtml`>";
          u "<head>";
          u "  <title>" ++ T ++ u "</title>";
          u "</head>";
          u "<body>";
          u "  <h2>" ++ T ++ u "</h2>";
          u "  " ++ P;
          u "</body>";
          u "</html>";
          []]).
Proof.
  cbn [join fmap list_fmap]. rewrite <- !app_assoc. vm_compute. reflexivity.
Qed.

(** The document of a chapter, line by line.  [dedent] takes the
    sixteen spaces of the source off every line of the template; the
    title stands in the [title] and in the [h2] element; the paragraphs
    of the chapter follow one another on a single line, with nothing
    between them; a chapter without content has an empty line in their
    place. *)
Theorem chapter_document_text (ch : chapter) :
  Forall (λ c, c ≠ 10%N) (c_title ch) →
  Forall (Forall (λ c, c ≠ 10%N)) (c_content ch) →
  chapter_document ch = join [10%N] (chapter_document_lines ch).
Proof.
  intros Htitle Hcontent.
  assert (Forall (λ c, c ≠ 10%N) (concat (map paragraph (c_content ch)))) as HP.
  { apply Forall_concat. change (map ?f ?l) with (f <$> l). apply Forall_fmap.
    eapply Forall_impl; [exact Hcontent|]. intros para. apply paragraph_no_newline. }
  assert (forallb is_blank (concat (map paragraph (c_content ch)))
          = match c_content ch with [] => true | _ => false end) as HPb.
  { destruct (c_content ch) as [|para paras]; [done|]. cbn [map concat].
    destruct (paragraph_head para) as [w ->]. done. }
  unfold chapter_document, chapter_xhtml, chapter_document_lines.
  revert HP HPb. generalize (concat (map paragraph (c_content ch))) as P.
  revert Htitle. generalize (c_title ch) as T. intros T HT P HP HPb.
  rewrite chapter_xhtml_lines, dedent_margin.
  - f_equal. cbn [fmap list_fmap].
    change (forallb is_blank (u "  " ++ P)) with (forallb is_blank P). rewrite HPb.
    repeat (apply (f_equal2 cons); [first [by lazy | by destruct (c_content ch)]|]).
    done.
  - done.
  - done.
  - rewrite !Forall_cons, !Forall_app. split_and!; try done; by apply literal_no_newline.
  - eexists. split; [apply list_elem_of_here|]. split; by vm_compute.
Qed.

Lemma chapter_document_text_witness :
  chapter_document (mkChapter (u "第一章") [u "　　正文：一"; []])
  = join [10%N] (chapter_document_lines (mkChapter (u "第一章") [u "　　正文：一"; []])).
Proof.
  apply (chapter_document_text (mkChapter (u "第一章") [u "　　正文：一"; []])).
  - apply literal_no_newline. by vm_compute.
  - cbn [c_content]. rewrite !Forall_cons. split_and!; [| |done].
    + apply literal_no_newline. by vm_compute.
    + constructor.
Defined.

(** *** Paragraphs *)

(** A line of content is blank or indented.  A blank line becomes the
    paragraph of a no-break space; an indented line becomes a paragraph
    that keeps the indentation: the first character is copied as it is,
    and the images of the rest of the line are put in. *)
Theorem content_line_paragraph (line : str) :
  is_chapter_header line = false →
  (strip line = [] ∧ paragraph line = u "<p>&#160;</p>")
  ∨ (∃ c rest,
       line = c :: rest ∧ (c = 32%N ∨ c = 12288%N) ∧ strip line ≠ []
       ∧ paragraph line = u "<p>" ++ c :: process_images rest ++ u "</p>").
Proof.
  intros Hhead. unfold paragraph. case_bool_decide as Hstrip; [by left|]. right.
  unfold is_chapter_header in Hhead.
  rewrite (bool_decide_eq_false_2 _ Hstrip), andb_true_r in Hhead.
  apply negb_false_iff in Hhead. unfold startswith_any, indentation in Hhead.
  change (u " ") with [32%N] in Hhead. change (u "　") with [12288%N] in Hhead.
  destruct line as [|c rest]; [done|]. cbn [existsb startswith] in Hhead.
  rewrite !andb_true_r, orb_false_r in Hhead.
  assert (c = 32%N ∨ c = 12288%N) as Hc.
  { apply orb_prop in Hhead as [H|H]; apply N.eqb_eq in H; auto. }
  exists c, rest. split_and!; try done. do 1 f_equal.
  rewrite process_images_copy.
  - unfold ascii_colons, replace_char. cbn [flat_map].
    by destruct Hc as [-> | ->].
  - change (c :: rest) with ([c] ++ rest). rewrite ascii_colons_app.
    replace (ascii_colons [c]) with [c] by (by destruct Hc as [-> | ->]).
    apply img_pattern_needs_bracket. by destruct Hc as [-> | ->].
Qed.

Lemma content_line_paragraph_witness :
  (strip (u "　　他说：你好") = [] ∧ paragraph (u "　　他说：你好") = u "<p>&#160;</p>")
  ∨ (∃ c rest,
       u "　　他说：你好" = c :: rest ∧ (c = 32%N ∨ c = 12288%N) ∧ strip (u "　　他说：你好") ≠ []
       ∧ paragraph (u "　　他说：你好") = u "<p>" ++ c :: process_images rest ++ u "</p>").
Proof. apply (content_line_paragraph (u "　　他说：你好")). by vm_compute. Defined.

(** ** The margin of the package document *)

Lemma content_opf_lines (T A today D M S : str) :
  uq "        <?xml version=`1.0` encoding=`utf-8`?>
        <package xmlns=`http://www.idpf.org/2007/opf` unique-identifier=`BookId` version=`2.0`>
          <metadata xmlns:dc=`http://purl.org/dc/elements/1.1/` xmlns:opf=`http://www.idpf.org/2007/opf`>
            <dc:identifier id=`BookId`>urn:uuid:12345</dc:identifier>
            <dc:title>" ++ T ++ uq "</dc:title>
            <dc:language>zh-CN</dc:language>
            <dc:creator>" ++ A ++ uq "</dc:creator>
            <dc:date>" ++ today ++ uq "</dc:date>
            <dc:description>" ++ D ++ uq "</dc:description>
          </metadata>
          <manifest>
            <item id=`toc` href=`toc.ncx` media-type=`application/x-dtbncx+xml`/>
            " ++ M ++ uq "
          </manifest>
          <spine toc=`toc`>
            " ++ S ++ uq "
          </spine>
        </package>
        "
  = join [10%N] ((u "        " ++.) <$>
         [uq "<?xml version=`1.0` encoding=`utf-8`?>";
          uq "<package xmlns=`http://www.idpf.org/2007/opf` unique-identifier=`BookId` version=`2.0`>";
          uq "  <metadata xmlns:dc=`http://purl.org/dc/elements/1.1/` xmlns:opf=`http://www.idpf.org/2007/opf`>";
          uq "    <dc:identifier id=`BookId`>urn:uuid:12345</dc:identifier>";
          u "    <dc:title>" ++ T ++ u "</dc:title>";
          u "    <dc:language>zh-CN</dc:language>";
          u "    <dc:creator>" ++ A ++ u "</dc:creator>";
          u "    <dc:date>" ++ today ++ u "</dc:date>";
          u "    <dc:description>" ++ D ++ u "</dc:description>";
          u "  </metadata>";
          u "  <manifest>";
          uq "    <item id=`toc` href=`toc.ncx` media-type=`application/x-dtbncx+xml`/>";
          u "    " ++ M;
          u "  </manifest>";
          uq "  <spine toc=`toc`>";
          u "    " ++ S;
          u "  </spine>";
          u "</package>";
          []]).
Proof.
  cbn [join fmap list_fmap]. rewrite <- !app_assoc. vm_compute. reflexivity.
Qed.

(** The package document is made by [dedent] from a text into which
    the manifest and the spine have been put already, one entry to a
    line and only the first of them indented.  With two or more entries
    in the manifest or in the spine the second entry starts its line, so
    [dedent] finds no common margin and removes nothing: the document
    keeps the eight spaces of the source in front of every line of the
    template, the XML declaration included.  With no entry at all, and
    no line break in the metadata and the date, the margin is removed
    from every line, and the lines of the two lists are empty. *)
Theorem package_document_keeps_indentation (today : str) (g : generator) :
  (2 ≤ length (manifest g) ∨ 2 ≤ length (spine g) →
   ∃ rest,
     content_opf today g
     = uq "        <?xml version=`1.0` encoding=`utf-8`?>" ++ 10%N :: rest)
  ∧ (manifest g = [] → spine g = [] →
     Forall (λ c, c ≠ 10%N) (md_title (metadata g)) →
     Forall (λ c, c ≠ 10%N) (md_author (metadata g)) →
     Forall (λ c, c ≠ 10%N) (md_description (metadata g)) →
     Forall (λ c, c ≠ 10%N) today →
     content_opf today g
     = join [10%N]
         [uq "<?xml version=`1.0` encoding=`utf-8`?>";
          uq "<package xmlns=`http://www.idpf.org/2007/opf` unique-identifier=`BookId` version=`2.0`>";
          uq "  <metadata xmlns:dc=`http://purl.org/dc/elements/1.1/` xmlns:opf=`http://www.idpf.org/2007/opf`>";
          uq "    <dc:identifier id=`BookId`>urn:uuid:12345</dc:identifier>";
          u "    <dc:title>" ++ md_title (metadata g) ++ u "</dc:title>";
          u "    <dc:language>zh-CN</dc:language>";
          u "    <dc:creator>" ++ md_author (metadata g) ++ u "</dc:creator>";
          u "    <dc:date>" ++ today ++ u "</dc:date>";
          u "    <dc:description>" ++ md_description (metadata g) ++ u "</dc:description>";
          u "  </metadata>";
          u "  <manifest>";
          uq "    <item id=`toc` href=`toc.ncx` media-type=`application/x-dtbncx+xml`/>";
          [];
          u "  </manifest>";
          uq "  <spine toc=`toc`>";
          [];
          u "  </spine>";
          u "</package>";
          []]).
Proof.
  split.
  - intros Hlen. unfold content_opf. cbv zeta.
    match goal with |- ∃ rest, dedent (?L1 ++ ?tl) = ?F ++ _ =>
      assert (startswith L1 (F ++ [10%N]) = true) as HL1 by (by vm_compute);
      apply startswith_spec in HL1 as [T1 HL1];
      apply (dedent_first_line (L1 ++ tl) F (T1 ++ tl) 60%N)
    end.
    + rewrite HL1, <- !app_assoc. done.
    + destruct Hlen as [Hlen|Hlen].
      * destruct (manifest g) as [|m1 [|m2 ms]]; cbn [length] in Hlen; try lia.
        do 9 apply has_line_from_app_r. apply has_line_from_app_l.
        cbn [map]. destruct (manifest_line_head m2) as [w Hw].
        by eapply join_two.
      * destruct (spine g) as [|m1 [|m2 ms]]; cbn [length] in Hlen; try lia.
        do 11 apply has_line_from_app_r. apply has_line_from_app_l.
        cbn [map]. destruct (spine_line_head m2) as [w Hw].
        by eapply join_two.
    + vm_compute. repeat constructor; done.
    + by vm_compute.
    + done.
    + done.
  - intros Hm Hs. unfold content_opf. cbv zeta. rewrite Hm, Hs.
    change (join [10%N] (map manifest_line [])) with (@nil N).
    change (join [10%N] (map spine_line [])) with (@nil N).
    generalize (md_title (metadata g)) as T. generalize (md_author (metadata g)) as A.
    generalize (md_description (metadata g)) as D. intros D A T HT HA HD Htoday.
    rewrite content_opf_lines, dedent_margin.
    + apply (f_equal (join [10%N])). cbn [fmap list_fmap].
      repeat (apply (f_equal2 cons); [lazy; reflexivity|]). reflexivity.
    + done.
    + done.
    + rewrite !Forall_cons, !Forall_app.
      split_and!; try done; by apply literal_no_newline.
    + eexists. split; [apply list_elem_of_here|]. split; by vm_compute.
Qed.

Lemma package_document_keeps_indentation_witness :
  (∃ rest,
     content_opf (u "2024-01-01")
       (set_manifest_spine [chapter_item (1, 1); chapter_item (1, 2)]
          [chapter_itemref (1, 1); chapter_itemref (1, 2)] (init [] []))
     = uq "        <?xml version=`1.0` encoding=`utf-8`?>" ++ 10%N :: rest)
  ∧ startswith (content_opf (u "2024-01-01") (init [] [])) (u "<?xml") = true.
Proof.
  split.
  - apply (package_document_keeps_indentation (u "2024-01-01")
             (set_manifest_spine [chapter_item (1, 1); chapter_item (1, 2)]
                [chapter_itemref (1, 1); chapter_itemref (1, 2)] (init [] []))).
    left. cbn. lia.
  - destruct (package_document_keeps_indentation (u "2024-01-01") (init [] []))
      as [_ Htext].
    rewrite Htext.
    + vm_compute. reflexivity.
    + reflexivity.
    + reflexivity.
    + apply literal_no_newline. vm_compute. reflexivity.
    + apply literal_no_newline. vm_compute. reflexivity.
    + constructor.
    + apply literal_no_newline. vm_compute. reflexivity.
Defined.

(** ** The archive *)

(** *** [os.walk] misses nothing *)

Lemma walk_below (top : list str) (name : str) (es es2 : list (str * node))
    (entry : list str * list str * list str) :
  (name, Dir es2) ∈ es →
  entry ∈ walk (top ++ [name]) (Dir es2) →
  entry ∈ walk top (Dir es).
Proof.
  intros Hin Hentry. cbn [walk]. apply list_elem_of_further.
  induction es as [|[n x] es IH]; [by apply elem_of_nil in Hin|].
  apply elem_of_app. apply elem_of_cons in Hin as [[= <- <-]|Hin].
  - by left.
  - right. by apply IH.
Qed.

(** Every directory below the top is visited, under its path. *)
Lemma walk_complete (top rel : list str) (n : node) (es : list (str * node)) :
  lookup_path rel n = Some (Dir es) →
  (top ++ rel, subdirs es, files es) ∈ walk top n.
Proof.
  revert top n. induction rel as [|name rel IH]; intros top n Hrel.
  - cbn in Hrel. injection Hrel as ->. rewrite app_nil_r. cbn [walk].
    apply list_elem_of_here.
  - destruct n as [c|es0]; [done|]. rewrite lookup_path_cons in Hrel.
    destruct (lookup_entry name es0) as [x|] eqn:E; [|done].
    cbn [mbind option_bind] in Hrel.
    destruct x as [c|es1]; [by destruct rel|].
    apply (walk_below top name es0 es1); [by apply lookup_entry_elem_of|].
    specialize (IH (top ++ [name]) (Dir es1) Hrel). by rewrite <- app_assoc in IH.
Qed.

Lemma lookup_file_walked (rel : list str) (file content : str) (fs : node) :
  lookup_path (u "epub" :: rel ++ [file]) fs = Some (File content) →
  file ≠ u "mimetype" →
  u "epub" :: rel ++ [file] ∈ archive_members fs.
Proof.
  intros Hfile Hne.
  change (u "epub" :: rel ++ [file]) with (([u "epub"] ++ rel) ++ [file]) in Hfile.
  rewrite lookup_path_app in Hfile.
  destruct (lookup_path ([u "epub"] ++ rel) fs) as [[c|es]|] eqn:Edir; try done.
  cbn [mbind option_bind lookup_path] in Hfile.
  destruct (lookup_entry file es) as [x|] eqn:E; [|done].
  cbn [mbind option_bind] in Hfile. injection Hfile as ->.
  rewrite lookup_path_app in Edir.
  destruct (lookup_path [u "epub"] fs) as [n|] eqn:En; [|done].
  cbn [mbind option_bind] in Edir.
  unfold archive_members. apply list_elem_of_In, in_flat_map.
  exists ([u "epub"] ++ rel, subdirs es, files es). split.
  - apply list_elem_of_In. unfold os_walk. rewrite En. by apply walk_complete.
  - apply list_elem_of_In. cbn [fst snd]. apply list_elem_of_fmap. exists file.
    split; [done|]. apply list_elem_of_In, filter_In. split.
    + apply list_elem_of_In, elem_of_files. exists content.
      by apply lookup_entry_elem_of.
    + by rewrite bool_decide_eq_false_2.
Qed.

(** *** What the archive holds *)

Lemma zip_epub_members (fs : node) (mimetype : str) :
  well_formed fs →
  lookup_path [u "epub"; u "mimetype"] fs = Some (File mimetype) →
  ∃ rest,
    zip_epub fs
    = Ok (mkZipFile ZIP_STORED (mkZipEntry (u "mimetype") ZIP_STORED mimetype :: rest))
    ∧ Forall2 (member_of fs ZIP_STORED) (archive_members fs) rest.
Proof.
  intros Hwf Hmime. unfold zip_epub.
  rewrite (zf_write_ok _ _ _ mimetype) by (unfold read_file; by rewrite Hmime).
  rewrite bind_Ok. cbn [ZipFile_open zf_compression infolist default app].
  destruct (lookup_path [u "epub"] fs) as [n|] eqn:En.
  2:{ change [u "epub"; u "mimetype"] with ([u "epub"] ++ [u "mimetype"]) in Hmime.
      rewrite lookup_path_app, En in Hmime. done. }
  edestruct (zip_walk fs (os_walk [u "epub"] fs)) as (new & -> & Hnew).
  { unfold os_walk. rewrite En.
    eapply Forall_impl; [apply (walk_lists_files n [u "epub"])|].
    - by eapply well_formed_lookup_path.
    - cbn beta. intros entry (rel & Hroot & Hfiles). split; [by exists rel|].
      intros file Hfile. destruct (Hfiles file Hfile) as [content Hc].
      exists content. rewrite Hroot, <- app_assoc, lookup_path_app, En. done. }
  cbn [zf_compression infolist app] in *. by exists new.
Qed.

(** The archive leaves no file out: every file found under [epub], at
    any depth, that is not called [mimetype] is a member of the archive,
    under its path relative to [epub] with the components joined by
    slashes, with the content it has in the tree, and stored. *)
Theorem archive_holds_every_file (fs : node) (mimetype : str) (rel : list str)
    (file content : str) :
  well_formed fs →
  lookup_path [u "epub"; u "mimetype"] fs = Some (File mimetype) →
  lookup_path (u "epub" :: rel ++ [file]) fs = Some (File content) →
  file ≠ u "mimetype" →
  ∃ zf e,
    zip_epub fs = Ok zf
    ∧ e ∈ infolist zf
    ∧ arcname e = join (u "/") (rel ++ [file])
    ∧ data e = content
    ∧ compress_type e = ZIP_STORED.
Proof.
  intros Hwf Hmime Hfile Hne.
  destruct (zip_epub_members fs mimetype Hwf Hmime) as (rest & -> & Hrest).
  pose proof (lookup_file_walked rel file content fs Hfile Hne) as Hin.
  apply list_elem_of_lookup in Hin as [i Hi].
  destruct (Forall2_lookup_l _ _ _ _ _ Hrest Hi) as (e & He & (rel' & Hpath & Hname) & Hct & Hdata).
  eexists _, e. split; [done|]. cbn [infolist]. split_and!.
  - apply list_elem_of_further. by eapply list_elem_of_lookup_2.
  - injection Hpath as <-. done.
  - unfold read_file in Hdata. rewrite Hfile in Hdata. by injection Hdata as ->.
  - done.
Qed.

Lemma archive_holds_every_file_witness :
  ∃ zf e,
    zip_epub (Dir [(u "epub", Dir [(u "mimetype", File (u "application/epub+zip"));
                                   (u "OEBPS", Dir [(u "vol1_chap1.xhtml", File (u "x"))])])])
    = Ok zf
    ∧ e ∈ infolist zf
    ∧ arcname e = join (u "/") ([u "OEBPS"] ++ [u "vol1_chap1.xhtml"])
    ∧ data e = u "x"
    ∧ compress_type e = ZIP_STORED.
Proof.
  apply (archive_holds_every_file
           (Dir [(u "epub", Dir [(u "mimetype", File (u "application/epub+zip"));
                                 (u "OEBPS", Dir [(u "vol1_chap1.xhtml", File (u "x"))])])])
           (u "application/epub+zip") [u "OEBPS"] (u "vol1_chap1.xhtml") (u "x")).
  - apply wf_dir; [apply NoDup_singleton|].
    constructor; [|constructor]. apply wf_dir.
    + apply (bool_decide_unpack _). by vm_compute.
    + constructor; [apply wf_file|]. constructor; [|constructor].
      apply wf_dir; [apply NoDup_singleton|]. constructor; [apply wf_file|constructor].
  - reflexivity.
  - reflexivity.
  - by vm_compute.
Defined.
